(** * AI-MINESWEEPER: the hint engine, embedded and verified

    A shallow embedding of the hint engine of the repository
    ([GameBoard], [ConstraintSolver], [ProbabilityCalculator],
    [HintEngine]) and the proofs of its specification's properties.

    Conventions of the embedding.

    - A JavaScript [number] that holds a grid index or a count is a [Z];
      a [number] that holds a probability, a gain or a priority is an exact
      rational [Q].  The source computes the latter in IEEE doubles, so the
      embedding idealises them.  The two agree on the values 0 and 1, on the
      information gains (multiples of one half) and on the products 1 x 0.8
      and 1 x 0.9; they can differ in the last digit of a quotient, of a
      scaled probability or of a priority, and with it on which of two
      entries wins an exact tie or on which side of a threshold a value
      falls.  The theorems on the choice among probabilistic moves state
      what does not depend on that digit: that no entry has a higher
      priority than the chosen one, and comparisons of gains, which are
      exact.
    - A [Coordinate] object that is only read through its fields [x] and [y]
      is the record [Coordinate].  Where the identity of the object matters
      (a [Map<Coordinate, number>] compares its keys by reference) the
      object is a [CoordinateRef]: its heap address together with the
      contents found there.  No code of the repository assigns to the
      fields of a coordinate, so the contents of an address never change.
    - A [Set<string>] is the list of its elements in insertion order; a
      [Map] is the list of its entries in insertion order; a plain object
      used as a dictionary is the list of its own properties in insertion
      order (its keys here are never integer-like). *)

From Stdlib Require Import ZArith QArith Qround List Bool Lia Lqa Permutation.
From Stdlib Require Import Strings.String Strings.Ascii.
From Stdlib Require Import Numbers.DecimalString Numbers.DecimalPos Numbers.DecimalZ.
Import ListNotations.

Local Open Scope Z_scope.

(** ** JavaScript primitives used by the engine *)

Module JS.

(** [`${n}`] for an integer [n]. *)
Definition numberToString (n : Z) : string :=
  NilZero.string_of_int (Z.to_int n).

(** [Number(s)] on the decimal integer literals; every other string, for
    which JavaScript answers [NaN] or a fraction, is mapped to [0]: the
    engine only parses strings printed by [numberToString]. *)
Definition Number (s : string) : Z :=
  match NilZero.int_of_string s with
  | Some d => Z.of_int d
  | None => 0
  end.

(** [s.split(',')]. *)
Fixpoint split_comma (s : string) : list string :=
  match s with
  | EmptyString => [EmptyString]
  | String c s' =>
      if Ascii.eqb c ","%char then EmptyString :: split_comma s'
      else match split_comma s' with
           | h :: t => String c h :: t
           | [] => [String c EmptyString]
           end
  end.

(** [ToInt32]: the wrap-around of the 32-bit bitwise operators. *)
Definition toInt32 (n : Z) : Z := (n + 2 ^ 31) mod 2 ^ 32 - 2 ^ 31.

(** [a << b]: the shift count is taken modulo 32. *)
Definition shl (a b : Z) : Z := toInt32 (Z.shiftl (toInt32 a) (b mod 32)).

(** [a & b]. *)
Definition band (a b : Z) : Z := Z.land (toInt32 a) (toInt32 b).

(** [for (let i = 0; i < n; i++)]: the values of [i]. *)
Definition range (n : Z) : list Z := map Z.of_nat (seq 0 (Z.to_nat n)).

(** *** [Set<string>] *)
Definition StringSet := list string.

Definition set_has (s : StringSet) (k : string) : bool :=
  existsb (String.eqb k) s.

Definition set_add (s : StringSet) (k : string) : StringSet :=
  if set_has s k then s else s ++ [k].

(** [new Set(array)]. *)
Definition set_of (l : list string) : StringSet := fold_left set_add l [].

(** *** Dictionaries with string keys: [Map<string, V>] and plain objects *)
Definition Dict (V : Type) := list (string * V).

Fixpoint dict_get {V} (d : Dict V) (k : string) : option V :=
  match d with
  | [] => None
  | (k', v) :: d' => if String.eqb k k' then Some v else dict_get d' k
  end.

Definition dict_has {V} (d : Dict V) (k : string) : bool :=
  match dict_get d k with Some _ => true | None => false end.

Fixpoint dict_set {V} (d : Dict V) (k : string) (v : V) : Dict V :=
  match d with
  | [] => [(k, v)]
  | (k', v') :: d' =>
      if String.eqb k k' then (k', v) :: d' else (k', v') :: dict_set d' k v
  end.

(** [array.slice(0, count)] for an integer [count]: a negative [count] is
    taken from the end of the array. *)
Definition slice0 {A} (l : list A) (count : Z) : list A :=
  let len := Z.of_nat (List.length l) in
  let final := if count <? 0 then Z.max (len + count) 0 else Z.min count len in
  firstn (Z.to_nat final) l.

End JS.

(** ** types/index.ts *)

Record Coordinate : Type := mkCoordinate { x : Z; y : Z }.

(** A reference to a [Coordinate] object on the heap. *)
Record CoordinateRef : Type := mkRef { addr : nat; target : Coordinate }.

Record Cell : Type := mkCell {
  hasMine : bool;
  isRevealed : bool;
  isFlagged : bool;
  adjacentMines : Z;
  coordinates : CoordinateRef
}.

Record Constraint : Type := mkConstraint {
  centerCell : CoordinateRef;
  requiredMines : Z;
  affectedCells : list CoordinateRef
}.

(** [Map<Coordinate, number>]: keys are compared by reference. *)
Definition ProbabilityMap := list (CoordinateRef * Q).

Fixpoint map_get (m : ProbabilityMap) (k : CoordinateRef) : option Q :=
  match m with
  | [] => None
  | (k', v) :: m' => if Nat.eqb (addr k) (addr k') then Some v else map_get m' k
  end.

Fixpoint map_set (m : ProbabilityMap) (k : CoordinateRef) (v : Q) : ProbabilityMap :=
  match m with
  | [] => [(k, v)]
  | (k', v') :: m' =>
      if Nat.eqb (addr k) (addr k') then (k', v) :: m' else (k', v') :: map_set m' k v
  end.

Definition map_size (m : ProbabilityMap) : Z := Z.of_nat (List.length m).

Record HintAnalysis : Type := mkHintAnalysis {
  guaranteedSafe : list Coordinate;
  guaranteedMines : list Coordinate;
  probabilities : ProbabilityMap;
  recommendedMove : option Coordinate;
  confidence : Q
}.

(** ** models/GameBoard.ts *)

Record GameBoard : Type := mkGameBoard {
  board : list (list Cell);
  width : Z;
  height : Z;
  mineCount : Z
}.

Module Board.

(** [this.board[y][x]]; [None] stands for [undefined]. *)
Definition at_ (gb : GameBoard) (cx cy : Z) : option Cell :=
  if (cx <? 0) || (cy <? 0) then None
  else nth_error (nth (Z.to_nat cy) (board gb) []) (Z.to_nat cx).

Definition isValidCoordinate (gb : GameBoard) (cx cy : Z) : bool :=
  (0 <=? cx) && (cx <? width gb) && (0 <=? cy) && (cy <? height gb).

Definition getCell (gb : GameBoard) (cx cy : Z) : option Cell :=
  if negb (isValidCoordinate gb cx cy) then None else at_ gb cx cy.

(** The offsets [(dx, dy)] in the order of the two nested loops of
    [getAdjacentCells], the centre skipped. *)
Definition offsets : list (Z * Z) :=
  flat_map (fun dy =>
    flat_map (fun dx =>
      if (dx =? 0) && (dy =? 0) then [] else [(dx, dy)])
      [-1; 0; 1])
    [-1; 0; 1].

(** [array.push(this.board[cy][cx])].  On a board that satisfies the class
    invariant [wf] below, every position that passes [isValidCoordinate]
    holds a cell; the [None] branch is never taken there. *)
Definition push_cell (gb : GameBoard) (cx cy : Z) : list Cell :=
  match at_ gb cx cy with Some c => [c] | None => [] end.

Definition getAdjacentCells (gb : GameBoard) (cx cy : Z) : list Cell :=
  flat_map (fun d =>
    let adjX := cx + fst d in
    let adjY := cy + snd d in
    if isValidCoordinate gb adjX adjY then push_cell gb adjX adjY else [])
    offsets.

(** The cells in the order of the row-major double loop shared by the
    enumeration methods. *)
Definition scan (gb : GameBoard) : list Cell :=
  flat_map (fun cy =>
    flat_map (fun cx => push_cell gb cx cy) (JS.range (width gb)))
    (JS.range (height gb)).

Definition getUnrevealedCells (gb : GameBoard) : list Cell :=
  filter (fun c => negb (isRevealed c)) (scan gb).

Definition getRevealedCells (gb : GameBoard) : list Cell :=
  filter isRevealed (scan gb).

Definition getFlaggedCells (gb : GameBoard) : list Cell :=
  filter isFlagged (scan gb).

Definition getDimensions (gb : GameBoard) : Z * Z := (width gb, height gb).

Definition getMineCount (gb : GameBoard) : Z := mineCount gb.

Definition getRevealedCount (gb : GameBoard) : Z :=
  Z.of_nat (List.length (getRevealedCells gb)).

Definition getFlaggedCount (gb : GameBoard) : Z :=
  Z.of_nat (List.length (getFlaggedCells gb)).

(** The class invariant established by [initializeBoard] and kept by every
    method: [height] rows of [width] cells, the cell at row [cy], column
    [cx] carrying its own coordinate object with contents [(cx, cy)]. *)
Fixpoint distinct (l : list nat) : bool :=
  match l with
  | [] => true
  | a :: l' => negb (existsb (Nat.eqb a) l') && distinct l'
  end.

Definition wf (gb : GameBoard) : bool :=
  forallb (fun cy =>
    forallb (fun cx =>
      match at_ gb cx cy with
      | Some c =>
          (x (target (coordinates c)) =? cx) && (y (target (coordinates c)) =? cy)
      | None => false
      end) (JS.range (width gb))) (JS.range (height gb))
  && distinct (map (fun c => addr (coordinates c)) (scan gb)).

(** *** The constructor and the mutators

    The methods that write to the grid return the new board. *)

(** [initializeBoard]: the coordinate objects are numbered in the order of
    their allocation. *)
Definition initializeBoard (w h : Z) : list (list Cell) :=
  map (fun cy =>
    map (fun cx =>
      mkCell false false false 0
             (mkRef (Z.to_nat (cy * w + cx)) (mkCoordinate cx cy)))
      (JS.range w))
    (JS.range h).

Definition new (w h mines : Z) : GameBoard :=
  mkGameBoard (initializeBoard w h) w h mines.

Fixpoint replace_nth {A} (n : nat) (f : A -> A) (l : list A) : list A :=
  match l, n with
  | [], _ => []
  | a :: l', O => f a :: l'
  | a :: l', S n' => a :: replace_nth n' f l'
  end.

(** An assignment to fields of [this.board[cy][cx]]. *)
Definition update (gb : GameBoard) (cx cy : Z) (f : Cell -> Cell) : GameBoard :=
  if (cx <? 0) || (cy <? 0) then gb else
  mkGameBoard (replace_nth (Z.to_nat cy) (replace_nth (Z.to_nat cx) f) (board gb))
              (width gb) (height gb) (mineCount gb).

Definition positions (gb : GameBoard) : list (Z * Z) :=
  flat_map (fun cy => map (fun cx => (cx, cy)) (JS.range (width gb)))
           (JS.range (height gb)).

Definition clearMines (gb : GameBoard) : GameBoard :=
  fold_left (fun g p =>
    update g (fst p) (snd p) (fun c =>
      mkCell false (isRevealed c) (isFlagged c) 0 (coordinates c)))
    (positions gb) gb.

Definition calculateAdjacentMines (gb : GameBoard) : GameBoard :=
  fold_left (fun g p =>
    match at_ g (fst p) (snd p) with
    | Some cell =>
        if negb (hasMine cell) then
          let adjacentCells := getAdjacentCells g (fst p) (snd p) in
          update g (fst p) (snd p) (fun c =>
            mkCell (hasMine c) (isRevealed c) (isFlagged c)
                   (Z.of_nat (List.length (filter hasMine adjacentCells)))
                   (coordinates c))
        else g
    | None => g
    end)
    (positions gb) gb.

Definition placeMines (gb : GameBoard) (minePositions : list Coordinate) : GameBoard :=
  let g1 := clearMines gb in
  let g2 :=
    fold_left (fun g pos =>
      if isValidCoordinate g (x pos) (y pos) then
        update g (x pos) (y pos) (fun c =>
          mkCell true (isRevealed c) (isFlagged c) (adjacentMines c) (coordinates c))
      else g)
      minePositions g1 in
  calculateAdjacentMines g2.

Definition revealCell (gb : GameBoard) (cx cy : Z) : bool * GameBoard :=
  match getCell gb cx cy with
  | None => (false, gb)
  | Some cell =>
      if isRevealed cell || isFlagged cell then (false, gb)
      else (true, update gb cx cy (fun c =>
             mkCell (hasMine c) true (isFlagged c) (adjacentMines c) (coordinates c)))
  end.

Definition toggleFlag (gb : GameBoard) (cx cy : Z) : bool * GameBoard :=
  match getCell gb cx cy with
  | None => (false, gb)
  | Some cell =>
      if isRevealed cell then (false, gb)
      else (true, update gb cx cy (fun c =>
             mkCell (hasMine c) (isRevealed c) (negb (isFlagged c))
                    (adjacentMines c) (coordinates c)))
  end.

Definition getAdjacentCoordinates (gb : GameBoard) (cx cy : Z) : list Coordinate :=
  flat_map (fun d =>
    let adjX := cx + fst d in
    let adjY := cy + snd d in
    if isValidCoordinate gb adjX adjY then [mkCoordinate adjX adjY] else [])
    offsets.

Definition getMineCells (gb : GameBoard) : list Cell :=
  filter hasMine (scan gb).

Definition getSafeCells (gb : GameBoard) : list Cell :=
  filter (fun c => negb (hasMine c)) (scan gb).

Definition areAllSafeCellsRevealed (gb : GameBoard) : bool :=
  forallb isRevealed (getSafeCells gb).

Definition reset (gb : GameBoard) : GameBoard :=
  fold_left (fun g p =>
    update g (fst p) (snd p) (fun c =>
      mkCell (hasMine c) false false (adjacentMines c) (coordinates c)))
    (positions gb) gb.

End Board.

(** ** ai/ConstraintSolver.ts *)

Module ConstraintSolver.

Definition coordToString (c : Coordinate) : string :=
  (JS.numberToString (x c) ++ "," ++ JS.numberToString (y c))%string.

Definition stringToCoord (s : string) : Coordinate :=
  let parts := map JS.Number (JS.split_comma s) in
  mkCoordinate (nth 0 parts 0) (nth 1 parts 0).

Definition keyOf (r : CoordinateRef) : string := coordToString (target r).

Definition extractConstraints (gb : GameBoard) : list Constraint :=
  flat_map (fun cell =>
    let adjacentCells :=
      Board.getAdjacentCells gb (x (target (coordinates cell)))
                                (y (target (coordinates cell))) in
    let unrevealedAdjacent :=
      filter (fun c => negb (isRevealed c) && negb (isFlagged c)) adjacentCells in
    let flaggedAdjacent := filter isFlagged adjacentCells in
    let remainingMines :=
      adjacentMines cell - Z.of_nat (List.length flaggedAdjacent) in
    if (0 <? Z.of_nat (List.length unrevealedAdjacent)) && (0 <=? remainingMines)
    then [mkConstraint (coordinates cell) remainingMines
                       (map coordinates unrevealedAdjacent)]
    else [])
    (Board.getRevealedCells gb).

Definition isSubset (set1 set2 : JS.StringSet) : bool :=
  forallb (JS.set_has set2) set1.

(** The first loop of [findGuaranteedMoves]: the zero rule and the
    saturation rule.  The state is the pair of sets
    [(guaranteedSafe, guaranteedMines)]. *)
Definition simpleRule (st : JS.StringSet * JS.StringSet) (c : Constraint)
  : JS.StringSet * JS.StringSet :=
  if requiredMines c =? 0 then
    (fold_left (fun s coord => JS.set_add s (keyOf coord)) (affectedCells c) (fst st),
     snd st)
  else if (requiredMines c =? Z.of_nat (List.length (affectedCells c)))
          && (0 <? requiredMines c) then
    (fst st,
     fold_left (fun s coord => JS.set_add s (keyOf coord)) (affectedCells c) (snd st))
  else st.

(** The body of the double loop over the pairs [(i, j)]. *)
Definition subsetRule (constraints : list Constraint)
    (st : JS.StringSet * JS.StringSet) (ij : Z * Z)
  : JS.StringSet * JS.StringSet :=
  let (i, j) := ij in
  if i =? j then st else
  match nth_error constraints (Z.to_nat i), nth_error constraints (Z.to_nat j) with
  | Some c1, Some c2 =>
      let c1Set := JS.set_of (map keyOf (affectedCells c1)) in
      let c2Set := JS.set_of (map keyOf (affectedCells c2)) in
      if isSubset c1Set c2Set then
        let difference := filter (fun s => negb (JS.set_has c1Set s)) c2Set in
        let mineDifference := requiredMines c2 - requiredMines c1 in
        if mineDifference =? 0 then
          (fold_left JS.set_add difference (fst st), snd st)
        else if (mineDifference =? Z.of_nat (List.length difference))
                && (0 <? mineDifference) then
          (fst st, fold_left JS.set_add difference (snd st))
        else st
      else st
  | _, _ => st
  end.

Definition pairs (n : Z) : list (Z * Z) :=
  flat_map (fun i => map (fun j => (i, j)) (JS.range n)) (JS.range n).

Definition guaranteedSets (constraints : list Constraint)
  : JS.StringSet * JS.StringSet :=
  let st := fold_left simpleRule constraints ([], []) in
  fold_left (subsetRule constraints)
            (pairs (Z.of_nat (List.length constraints))) st.

(** The result object [{ safe, mines }] as a pair. *)
Definition findGuaranteedMoves (gb : GameBoard)
  : list Coordinate * list Coordinate :=
  let constraints := extractConstraints gb in
  let st := guaranteedSets constraints in
  (map stringToCoord (fst st), map stringToCoord (snd st)).

Definition validateConstraints (constraints : list Constraint) : bool :=
  forallb (fun c =>
    negb (requiredMines c <? 0)
    && negb (Z.of_nat (List.length (affectedCells c)) <? requiredMines c))
    constraints.

Definition findGuaranteedSafe (gb : GameBoard) : list Coordinate :=
  let constraints := extractConstraints gb in
  let guaranteedSafe : JS.StringSet :=
    fold_left (fun s c =>
      if requiredMines c =? 0 then
        fold_left (fun s' coord => JS.set_add s' (keyOf coord)) (affectedCells c) s
      else s)
      constraints [] in
  map stringToCoord guaranteedSafe.

Definition findGuaranteedMines (gb : GameBoard) : list Coordinate :=
  let constraints := extractConstraints gb in
  let guaranteedMines : JS.StringSet :=
    fold_left (fun s c =>
      if (requiredMines c =? Z.of_nat (List.length (affectedCells c)))
         && (0 <? requiredMines c) then
        fold_left (fun s' coord => JS.set_add s' (keyOf coord)) (affectedCells c) s
      else s)
      constraints [] in
  map stringToCoord guaranteedMines.

End ConstraintSolver.

(** ** ai/ProbabilityCalculator.ts *)

Definition Qltb (a b : Q) : bool := negb (Qle_bool b a).

(** [Math.round]: the nearest integer, halves rounded up. *)
Definition Math_round (q : Q) : Z := Qfloor (q + (1 # 2))%Q.

Module ProbabilityCalculator.

Definition coordToString (c : Coordinate) : string :=
  (JS.numberToString (x c) ++ "," ++ JS.numberToString (y c))%string.

Definition keyOf (r : CoordinateRef) : string := coordToString (target r).

(** [interface MineAssignment { [cellKey: string]: boolean }]. *)
Definition MineAssignment := JS.Dict bool.

(** [assignment[cellKey] === true]. *)
Definition isTrue (assignment : MineAssignment) (cellKey : string) : bool :=
  match JS.dict_get assignment cellKey with
  | Some true => true
  | _ => false
  end.

Definition isValidAssignment (assignment : MineAssignment)
    (constraints : list Constraint) : bool :=
  forallb (fun c =>
    let mineCount :=
      fold_left (fun n coord => if isTrue assignment (keyOf coord) then n + 1 else n)
                (affectedCells c) 0 in
    mineCount =? requiredMines c)
    constraints.

(** [(i & (1 << j)) !== 0]. *)
Definition isMineBit (i j : Z) : bool := negb (JS.band i (JS.shl 1 j) =? 0).

(** The assignment object built by the inner loop for the counter [i]. *)
Definition assignmentOf (cellKeys : list string) (i : Z) : MineAssignment :=
  fold_left (fun a j => JS.dict_set a (nth (Z.to_nat j) cellKeys EmptyString) (isMineBit i j))
            (JS.range (Z.of_nat (List.length cellKeys))) [].

(** [Math.pow(2, n)] is exact up to [n = 1023] and infinite beyond; the
    minimum with [1000000] is the same either way. *)
Definition generateValidAssignments (constraints : list Constraint)
    (cells : list CoordinateRef) : list MineAssignment :=
  let cellKeys := map keyOf cells in
  let totalCombinations := 2 ^ Z.of_nat (List.length cells) in
  let maxCombinations := Z.min totalCombinations 1000000 in
  flat_map (fun i =>
    let assignment := assignmentOf cellKeys i in
    if isValidAssignment assignment constraints then [assignment] else [])
    (JS.range maxCombinations).

(** The body of [Object.entries(assignment).forEach] on [mineCounts]. *)
Definition countEntry (mineCounts : JS.Dict Z) (entry : string * bool) : JS.Dict Z :=
  let (cellKey, isMine) := entry in
  if isMine && JS.dict_has mineCounts cellKey then
    match JS.dict_get mineCounts cellKey with
    | Some n => JS.dict_set mineCounts cellKey (n + 1)
    | None => mineCounts
    end
  else mineCounts.

Definition calculateConstrainedProbabilities (constraints : list Constraint)
    (constrainedCells : list CoordinateRef) : ProbabilityMap :=
  let probabilities :=
    fold_left (fun m coord => map_set m coord 0%Q) constrainedCells [] in
  let validAssignments := generateValidAssignments constraints constrainedCells in
  if Z.of_nat (List.length validAssignments) =? 0 then
    let uniformProb := (1 # 2)%Q in
    fold_left (fun m coord => map_set m coord uniformProb) constrainedCells probabilities
  else
    let mineCounts0 :=
      fold_left (fun d coord => JS.dict_set d (keyOf coord) 0) constrainedCells [] in
    let mineCounts :=
      fold_left (fun d assignment => fold_left countEntry assignment d)
                validAssignments mineCounts0 in
    fold_left (fun m coord =>
      let cellKey := keyOf coord in
      let mineCount :=
        match JS.dict_get mineCounts cellKey with Some n => n | None => 0 end in
      let probability :=
        (inject_Z mineCount / inject_Z (Z.of_nat (List.length validAssignments)))%Q in
      map_set m coord probability)
      constrainedCells probabilities.

Definition calculateUnconstrainedProbability (gb : GameBoard)
    (constrainedCellCount unconstrainedCellCount : Z) : Q :=
  if unconstrainedCellCount =? 0 then 0%Q else
  let totalMines := Board.getMineCount gb in
  let flaggedCount := Board.getFlaggedCount gb in
  let revealedMines :=
    Z.of_nat (List.length (filter hasMine (Board.getRevealedCells gb))) in
  let remainingMines := totalMines - flaggedCount - revealedMines in
  let estimatedConstrainedMines :=
    Z.min remainingMines (Math_round (inject_Z constrainedCellCount * (2 # 10))%Q) in
  let remainingUnconstrainedMines :=
    Z.max 0 (remainingMines - estimatedConstrainedMines) in
  let ratio :=
    (inject_Z remainingUnconstrainedMines / inject_Z unconstrainedCellCount)%Q in
  if Qle_bool 1 ratio then 1%Q else ratio.

Definition calculateProbabilities (gb : GameBoard) : ProbabilityMap :=
  let constraints := ConstraintSolver.extractConstraints gb in
  let unrevealedCells :=
    map coordinates
        (filter (fun cell => negb (isFlagged cell)) (Board.getUnrevealedCells gb)) in
  if Z.of_nat (List.length unrevealedCells) =? 0 then [] else
  let constrainedCells : JS.StringSet :=
    fold_left (fun s c =>
      fold_left (fun s' coord => JS.set_add s' (keyOf coord)) (affectedCells c) s)
      constraints [] in
  let constrainedCoords :=
    filter (fun coord => JS.set_has constrainedCells (keyOf coord)) unrevealedCells in
  let unconstrainedCoords :=
    filter (fun coord => negb (JS.set_has constrainedCells (keyOf coord)))
           unrevealedCells in
  let probabilities1 :=
    if (0 <? Z.of_nat (List.length constrainedCoords))
       && (0 <? Z.of_nat (List.length constraints)) then
      fold_left (fun m e => map_set m (fst e) (snd e))
                (calculateConstrainedProbabilities constraints constrainedCoords) []
    else [] in
  if 0 <? Z.of_nat (List.length unconstrainedCoords) then
    let unconstrainedProb :=
      calculateUnconstrainedProbability gb
        (Z.of_nat (List.length constrainedCoords))
        (Z.of_nat (List.length unconstrainedCoords)) in
    fold_left (fun m coord => map_set m coord unconstrainedProb)
              unconstrainedCoords probabilities1
  else probabilities1.

Definition isUnknown (c : Cell) : bool := negb (isRevealed c) && negb (isFlagged c).

Definition calculateInformationGain (coord : Coordinate) (gb : GameBoard) : Q :=
  let adjacentCells := Board.getAdjacentCells gb (x coord) (y coord) in
  let unrevealedAdjacent := filter isUnknown adjacentCells in
  let revealedAdjacent := filter isRevealed adjacentCells in
  let baseGain := inject_Z (Z.of_nat (List.length unrevealedAdjacent)) in
  let constraintBonus :=
    (inject_Z (Z.of_nat (List.length revealedAdjacent)) * (1 # 2))%Q in
  (baseGain + constraintBonus)%Q.

Definition findLowestRiskCell (probabilities : ProbabilityMap)
  : option CoordinateRef :=
  if map_size probabilities =? 0 then None else
  fst (fold_left (fun st e =>
         if Qltb (snd e) (snd st) then (Some (fst e), snd e) else st)
       probabilities (None, 1%Q)).

Definition isCorner (gb : GameBoard) (coord : Coordinate) : bool :=
  ((x coord =? 0) || (x coord =? width gb - 1))
  && ((y coord =? 0) || (y coord =? height gb - 1)).

Definition isEdge (gb : GameBoard) (coord : Coordinate) : bool :=
  (x coord =? 0) || (x coord =? width gb - 1)
  || (y coord =? 0) || (y coord =? height gb - 1).

(** [revealedCount < (width * height) * 0.1].  The outcome is the same in
    binary64 as over the rationals: the double 0.1 exceeds one tenth by
    2^-54 of its value, so the product rounds to the exact tenth when the
    number of cells is a multiple of ten and stays strictly between the same
    two integers otherwise, and [revealedCount] is an integer. *)
Definition earlyGame (gb : GameBoard) : bool :=
  Qltb (inject_Z (Board.getRevealedCount gb))
       (inject_Z (width gb * height gb) * (1 # 10))%Q.

Definition adjustEntry (gb : GameBoard) (m : ProbabilityMap)
    (e : CoordinateRef * Q) : ProbabilityMap :=
  let (coord, prob) := e in
  if isCorner gb (target coord) then map_set m coord (prob * (8 # 10))%Q
  else if isEdge gb (target coord) then map_set m coord (prob * (9 # 10))%Q
  else m.

Definition handleEdgeCases (gb : GameBoard) (probabilities : ProbabilityMap)
  : ProbabilityMap :=
  let adjustedProbabilities :=
    fold_left (fun m e => map_set m (fst e) (snd e)) probabilities [] in
  if earlyGame gb then
    fold_left (adjustEntry gb) adjustedProbabilities adjustedProbabilities
  else adjustedProbabilities.

End ProbabilityCalculator.

(** ** ai/HintEngine.ts *)

Record MoveRecommendation : Type := mkMove {
  coordinate : Coordinate;
  probability : Q;
  priority : Q;
  reasoning : string
}.

Record CellRisk : Type := mkCellRisk {
  risk_probability : Q;
  risk_reasoning : string;
  isGuaranteedSafe : bool;
  isGuaranteedMine : bool
}.

Module HintEngine.

Definition percent (p : Q) : string :=
  (JS.numberToString (Math_round (p * 100)%Q) ++ "% mine probability)")%string.

Definition generateMoveReasoning (p : Q) : string :=
  (if Qeq_bool p 0%Q then "Guaranteed safe move"
   else if Qltb p (1 # 10)%Q then "Very low risk (" ++ percent p
   else if Qltb p (3 # 10)%Q then "Low risk (" ++ percent p
   else if Qltb p (5 # 10)%Q then "Moderate risk (" ++ percent p
   else if Qltb p (7 # 10)%Q then "High risk (" ++ percent p
   else "Very high risk (" ++ percent p)%string.

Definition calculateMovePriority (p informationGain : Q) : Q :=
  let safetyScore := ((1 - p) * 100)%Q in
  let informationScore := (informationGain * 10)%Q in
  (safetyScore * (7 # 10) + informationScore * (3 # 10))%Q.

(** The loop of [selectBestGuaranteedSafe]; the state is
    [(bestMove, bestGain)]. *)
Definition betterSafe (gb : GameBoard) (st : Coordinate * Q) (c : Coordinate)
  : Coordinate * Q :=
  let gain := ProbabilityCalculator.calculateInformationGain c gb in
  if Qltb (snd st) gain then (c, gain) else st.

(** [None] stands for the [undefined] read from an empty array; the only
    caller passes a non-empty one. *)
Definition selectBestGuaranteedSafe (gb : GameBoard) (safeMoves : list Coordinate)
  : option Coordinate :=
  match safeMoves with
  | [] => None
  | [only] => Some only
  | first :: rest =>
      Some (fst (fold_left (betterSafe gb) rest
                   (first, ProbabilityCalculator.calculateInformationGain first gb)))
  end.

(** [Array.prototype.sort] is stable; with the comparator
    [(a, b) => b.priority - a.priority] an element stays in front of a
    later one unless the later one has a strictly higher priority. *)
Fixpoint insertByPriority (a : MoveRecommendation) (l : list MoveRecommendation)
  : list MoveRecommendation :=
  match l with
  | [] => [a]
  | b :: l' =>
      if Qle_bool (priority b - priority a)%Q 0%Q then a :: b :: l'
      else b :: insertByPriority a l'
  end.

Definition sortByPriority (l : list MoveRecommendation) : list MoveRecommendation :=
  fold_right insertByPriority [] l.

Definition recommend (gb : GameBoard) (e : CoordinateRef * Q) : MoveRecommendation :=
  let (coord, p) := e in
  let informationGain :=
    ProbabilityCalculator.calculateInformationGain (target coord) gb in
  mkMove (target coord) p (calculateMovePriority p informationGain)
         (generateMoveReasoning p).

Definition selectBestProbabilisticMove (gb : GameBoard)
    (probabilities : ProbabilityMap) : option MoveRecommendation :=
  let recommendations := map (recommend gb) probabilities in
  if Z.of_nat (List.length recommendations) =? 0 then None
  else hd_error (sortByPriority recommendations).

Definition getBestMove (gb : GameBoard)
    (guaranteedMoves : list Coordinate * list Coordinate)
    (probabilities : ProbabilityMap) : option MoveRecommendation :=
  if 0 <? Z.of_nat (List.length (fst guaranteedMoves)) then
    match selectBestGuaranteedSafe gb (fst guaranteedMoves) with
    | Some bestSafe => Some (mkMove bestSafe 0%Q 1000%Q "Guaranteed safe move")
    | None => None
    end
  else if 0 <? map_size probabilities then
    selectBestProbabilisticMove gb probabilities
  else None.

Definition Qmin_list (l : list Q) : Q :=
  match l with
  | [] => 0%Q
  | a :: l' => fold_left (fun m v => if Qltb v m then v else m) l' a
  end.

Definition Qmax_list (l : list Q) : Q :=
  match l with
  | [] => 0%Q
  | a :: l' => fold_left (fun m v => if Qltb m v then v else m) l' a
  end.

Definition calculateConfidence
    (guaranteedMoves : list Coordinate * list Coordinate)
    (probabilities : ProbabilityMap) : Q :=
  if (0 <? Z.of_nat (List.length (fst guaranteedMoves)))
     || (0 <? Z.of_nat (List.length (snd guaranteedMoves))) then (9 # 10)%Q
  else if 0 <? map_size probabilities then
    let probs := map snd probabilities in
    let spread := (Qmax_list probs - Qmin_list probs)%Q in
    if Qltb (3 # 10)%Q spread then (7 # 10)%Q
    else if Qltb (1 # 10)%Q spread then (5 # 10)%Q
    else (3 # 10)%Q
  else (1 # 10)%Q.

Definition analyzeBoard (gb : GameBoard) : HintAnalysis :=
  let guaranteedMoves := ConstraintSolver.findGuaranteedMoves gb in
  let probabilities := ProbabilityCalculator.calculateProbabilities gb in
  let adjustedProbabilities :=
    ProbabilityCalculator.handleEdgeCases gb probabilities in
  let recommendedMove := getBestMove gb guaranteedMoves adjustedProbabilities in
  let confidence := calculateConfidence guaranteedMoves adjustedProbabilities in
  mkHintAnalysis (fst guaranteedMoves) (snd guaranteedMoves) adjustedProbabilities
                 (option_map coordinate recommendedMove) confidence.

Definition getFallbackMove (gb : GameBoard) : option CoordinateRef :=
  let probabilities := ProbabilityCalculator.calculateProbabilities gb in
  if map_size probabilities =? 0 then None
  else ProbabilityCalculator.findLowestRiskCell probabilities.

(** [safe.x === coord.x && safe.y === coord.y]. *)
Definition sameCell (a b : Coordinate) : bool := (x a =? x b) && (y a =? y b).

(** [v || 0.5] on an optional number: the default replaces [undefined]
    and [0]. *)
Definition orHalf (v : option Q) : Q :=
  match v with
  | Some p => if Qeq_bool p 0%Q then (1 # 2)%Q else p
  | None => (1 # 2)%Q
  end.

Definition analyzeCellRisk (coord : CoordinateRef) (gb : GameBoard) : CellRisk :=
  let guaranteedMoves := ConstraintSolver.findGuaranteedMoves gb in
  let probabilities := ProbabilityCalculator.calculateProbabilities gb in
  let isGuaranteedSafe := existsb (fun safe => sameCell safe (target coord))
                                  (fst guaranteedMoves) in
  let isGuaranteedMine := existsb (fun mine => sameCell mine (target coord))
                                  (snd guaranteedMoves) in
  let probability := orHalf (map_get probabilities coord) in
  let reasoning :=
    if isGuaranteedSafe then "Guaranteed safe by constraint analysis"%string
    else if isGuaranteedMine then "Guaranteed mine by constraint analysis"%string
    else generateMoveReasoning probability in
  mkCellRisk probability reasoning isGuaranteedSafe isGuaranteedMine.

(** [count] is an optional parameter with the default [3]. *)
Definition getTopMoves (gb : GameBoard) (count : option Z) : list MoveRecommendation :=
  let count := match count with Some n => n | None => 3 end in
  let guaranteedMoves := ConstraintSolver.findGuaranteedMoves gb in
  let probabilities := ProbabilityCalculator.calculateProbabilities gb in
  let adjustedProbabilities :=
    ProbabilityCalculator.handleEdgeCases gb probabilities in
  let recommendations :=
    map (fun coord => mkMove coord 0%Q 1000%Q "Guaranteed safe move")
        (fst guaranteedMoves)
    ++ map (recommend gb) adjustedProbabilities in
  JS.slice0 (sortByPriority recommendations) count.

Definition hasSolvableMoves (gb : GameBoard) : bool :=
  let guaranteedMoves := ConstraintSolver.findGuaranteedMoves gb in
  0 <? Z.of_nat (List.length (fst guaranteedMoves)).

Definition isValidMove (coord : Coordinate) (gb : GameBoard) : bool :=
  match Board.getCell gb (x coord) (y coord) with
  | Some cell => negb (isRevealed cell) && negb (isFlagged cell)
  | None => false
  end.

End HintEngine.

(** ** The engine as a program over the mutable board

    [GameBoard] is a mutable object and every function of the engine
    receives a reference to it.  Here the board is the state of a state
    monad, the methods of [GameBoard] are its primitive operations, and the
    functions of the engine are written once more, call by call, over these
    operations. *)

Module Stateful.

Definition M (A : Type) : Type := GameBoard -> A * GameBoard.

Definition ret {A} (a : A) : M A := fun s => (a, s).

Definition bind {A B} (m : M A) (k : A -> M B) : M B :=
  fun s => let (a, s') := m s in k a s'.

Notation "x <- m ;; k" := (bind m (fun x => k))
  (at level 61, m at next level, right associativity).

Fixpoint forM {A B} (l : list A) (f : A -> M B) : M (list B) :=
  match l with
  | [] => ret []
  | a :: l' => b <- f a ;; bs <- forM l' f ;; ret (b :: bs)
  end.

Fixpoint foldM {A S} (f : S -> A -> M S) (l : list A) (st : S) : M S :=
  match l with
  | [] => ret st
  | a :: l' => st' <- f st a ;; foldM f l' st'
  end.

(** *** The methods of [GameBoard] *)

Definition getAdjacentCells (cx cy : Z) : M (list Cell) :=
  fun s => (Board.getAdjacentCells s cx cy, s).

Definition getUnrevealedCells : M (list Cell) :=
  fun s => (Board.getUnrevealedCells s, s).

Definition getRevealedCells : M (list Cell) :=
  fun s => (Board.getRevealedCells s, s).

Definition getDimensions : M (Z * Z) := fun s => (Board.getDimensions s, s).

Definition getMineCount : M Z := fun s => (Board.getMineCount s, s).

Definition getRevealedCount : M Z := fun s => (Board.getRevealedCount s, s).

Definition getFlaggedCount : M Z := fun s => (Board.getFlaggedCount s, s).

Definition placeMines (minePositions : list Coordinate) : M unit :=
  fun s => (tt, Board.placeMines s minePositions).

Definition revealCell (cx cy : Z) : M bool := fun s => Board.revealCell s cx cy.

Definition toggleFlag (cx cy : Z) : M bool := fun s => Board.toggleFlag s cx cy.

(** *** ConstraintSolver *)

Definition extractConstraints : M (list Constraint) :=
  revealedCells <- getRevealedCells ;;
  pushed <- forM revealedCells (fun cell =>
    adjacentCells <- getAdjacentCells (x (target (coordinates cell)))
                                      (y (target (coordinates cell))) ;;
    let unrevealedAdjacent :=
      filter (fun c => negb (isRevealed c) && negb (isFlagged c)) adjacentCells in
    let flaggedAdjacent := filter isFlagged adjacentCells in
    let remainingMines :=
      adjacentMines cell - Z.of_nat (List.length flaggedAdjacent) in
    if (0 <? Z.of_nat (List.length unrevealedAdjacent)) && (0 <=? remainingMines)
    then ret [mkConstraint (coordinates cell) remainingMines
                           (map coordinates unrevealedAdjacent)]
    else ret []) ;;
  ret (List.concat pushed).

Definition findGuaranteedMoves : M (list Coordinate * list Coordinate) :=
  constraints <- extractConstraints ;;
  let st := ConstraintSolver.guaranteedSets constraints in
  ret (map ConstraintSolver.stringToCoord (fst st),
       map ConstraintSolver.stringToCoord (snd st)).

(** *** ProbabilityCalculator *)

Definition calculateUnconstrainedProbability
    (constrainedCellCount unconstrainedCellCount : Z) : M Q :=
  if unconstrainedCellCount =? 0 then ret 0%Q else
  totalMines <- getMineCount ;;
  flaggedCount <- getFlaggedCount ;;
  revealedCells <- getRevealedCells ;;
  let revealedMines := Z.of_nat (List.length (filter hasMine revealedCells)) in
  let remainingMines := totalMines - flaggedCount - revealedMines in
  let estimatedConstrainedMines :=
    Z.min remainingMines (Math_round (inject_Z constrainedCellCount * (2 # 10))%Q) in
  let remainingUnconstrainedMines :=
    Z.max 0 (remainingMines - estimatedConstrainedMines) in
  let ratio :=
    (inject_Z remainingUnconstrainedMines / inject_Z unconstrainedCellCount)%Q in
  ret (if Qle_bool 1 ratio then 1%Q else ratio).

Definition calculateProbabilities : M ProbabilityMap :=
  constraints <- extractConstraints ;;
  unrevealed <- getUnrevealedCells ;;
  let unrevealedCells :=
    map coordinates (filter (fun cell => negb (isFlagged cell)) unrevealed) in
  if Z.of_nat (List.length unrevealedCells) =? 0 then ret [] else
  let constrainedCells : JS.StringSet :=
    fold_left (fun s c =>
      fold_left (fun s' coord => JS.set_add s' (ProbabilityCalculator.keyOf coord))
                (affectedCells c) s)
      constraints [] in
  let constrainedCoords :=
    filter (fun coord => JS.set_has constrainedCells (ProbabilityCalculator.keyOf coord))
           unrevealedCells in
  let unconstrainedCoords :=
    filter (fun coord =>
              negb (JS.set_has constrainedCells (ProbabilityCalculator.keyOf coord)))
           unrevealedCells in
  let probabilities1 :=
    if (0 <? Z.of_nat (List.length constrainedCoords))
       && (0 <? Z.of_nat (List.length constraints)) then
      fold_left (fun m e => map_set m (fst e) (snd e))
                (ProbabilityCalculator.calculateConstrainedProbabilities
                   constraints constrainedCoords) []
    else [] in
  if 0 <? Z.of_nat (List.length unconstrainedCoords) then
    unconstrainedProb <-
      calculateUnconstrainedProbability
        (Z.of_nat (List.length constrainedCoords))
        (Z.of_nat (List.length unconstrainedCoords)) ;;
    ret (fold_left (fun m coord => map_set m coord unconstrainedProb)
                   unconstrainedCoords probabilities1)
  else ret probabilities1.

Definition calculateInformationGain (coord : Coordinate) : M Q :=
  adjacentCells <- getAdjacentCells (x coord) (y coord) ;;
  let unrevealedAdjacent := filter ProbabilityCalculator.isUnknown adjacentCells in
  let revealedAdjacent := filter isRevealed adjacentCells in
  let baseGain := inject_Z (Z.of_nat (List.length unrevealedAdjacent)) in
  let constraintBonus :=
    (inject_Z (Z.of_nat (List.length revealedAdjacent)) * (1 # 2))%Q in
  ret (baseGain + constraintBonus)%Q.

Definition handleEdgeCases (probabilities : ProbabilityMap) : M ProbabilityMap :=
  let adjustedProbabilities :=
    fold_left (fun m e => map_set m (fst e) (snd e)) probabilities [] in
  dims <- getDimensions ;;
  revealedCount <- getRevealedCount ;;
  let (w, h) := dims in
  if Qltb (inject_Z revealedCount) (inject_Z (w * h) * (1 # 10))%Q then
    ret (fold_left (fun (m : ProbabilityMap) (e : CoordinateRef * Q) =>
           let (coord, prob) := e in
           let isCorner :=
             ((x (target coord) =? 0) || (x (target coord) =? w - 1))
             && ((y (target coord) =? 0) || (y (target coord) =? h - 1)) in
           let isEdge :=
             (x (target coord) =? 0) || (x (target coord) =? w - 1)
             || (y (target coord) =? 0) || (y (target coord) =? h - 1) in
           if isCorner then map_set m coord (prob * (8 # 10))%Q
           else if isEdge then map_set m coord (prob * (9 # 10))%Q
           else m)
         adjustedProbabilities adjustedProbabilities)
  else ret adjustedProbabilities.

(** *** HintEngine *)

Definition selectBestGuaranteedSafe (safeMoves : list Coordinate)
  : M (option Coordinate) :=
  match safeMoves with
  | [] => ret None
  | [only] => ret (Some only)
  | first :: rest =>
      firstGain <- calculateInformationGain first ;;
      st <- foldM (fun st c =>
              gain <- calculateInformationGain c ;;
              ret (if Qltb (snd st) gain then (c, gain) else st))
            rest (first, firstGain) ;;
      ret (Some (fst st))
  end.

Definition selectBestProbabilisticMove (probabilities : ProbabilityMap)
  : M (option MoveRecommendation) :=
  recommendations <- forM probabilities (fun e =>
    informationGain <- calculateInformationGain (target (fst e)) ;;
    ret (mkMove (target (fst e)) (snd e)
                (HintEngine.calculateMovePriority (snd e) informationGain)
                (HintEngine.generateMoveReasoning (snd e)))) ;;
  if Z.of_nat (List.length recommendations) =? 0 then ret None
  else ret (hd_error (HintEngine.sortByPriority recommendations)).

Definition getBestMove (guaranteedMoves : list Coordinate * list Coordinate)
    (probabilities : ProbabilityMap) : M (option MoveRecommendation) :=
  if 0 <? Z.of_nat (List.length (fst guaranteedMoves)) then
    best <- selectBestGuaranteedSafe (fst guaranteedMoves) ;;
    match best with
    | Some bestSafe => ret (Some (mkMove bestSafe 0%Q 1000%Q "Guaranteed safe move"))
    | None => ret None
    end
  else if 0 <? map_size probabilities then selectBestProbabilisticMove probabilities
  else ret None.

Definition analyzeBoard : M HintAnalysis :=
  guaranteedMoves <- findGuaranteedMoves ;;
  probabilities <- calculateProbabilities ;;
  adjustedProbabilities <- handleEdgeCases probabilities ;;
  recommendedMove <- getBestMove guaranteedMoves adjustedProbabilities ;;
  let confidence :=
    HintEngine.calculateConfidence guaranteedMoves adjustedProbabilities in
  ret (mkHintAnalysis (fst guaranteedMoves) (snd guaranteedMoves)
                      adjustedProbabilities
                      (option_map coordinate recommendedMove) confidence).

End Stateful.

(** ** Boards for the examples

    Every board is built through the public methods of [GameBoard]: the
    constructor, [placeMines], then a sequence of clicks. *)

Module Examples.

Inductive Click := Reveal (cx cy : Z) | Flag (cx cy : Z).

Definition click (gb : GameBoard) (c : Click) : GameBoard :=
  match c with
  | Reveal cx cy => snd (Board.revealCell gb cx cy)
  | Flag cx cy => snd (Board.toggleFlag gb cx cy)
  end.

Definition play (w h : Z) (mines : list (Z * Z)) (clicks : list Click) : GameBoard :=
  fold_left click clicks
    (Board.placeMines (Board.new w h (Z.of_nat (List.length mines)))
                      (map (fun p => mkCoordinate (fst p) (snd p)) mines)).

(** A 3x3 board with one mine, before the first click. *)
Definition fresh3 : GameBoard := play 3 3 [(0, 0)] [].

(** A 3x3 game with mines at (1,0) and (2,0) after the first click, on
    (2,1), which shows 2. *)
Definition firstClick : GameBoard := play 3 3 [(1, 0); (2, 0)] [Reveal 2 1].

(** One row; the player flags the safe cell (0,0) and reveals (1,0), which
    shows 0, and (3,0), which shows 1. *)
Definition flagOver : GameBoard :=
  play 5 1 [(4, 0)] [Flag 0 0; Reveal 1 0; Reveal 3 0].

(** The first click lands on a corner that shows 3. *)
Definition earlyMines : GameBoard :=
  play 4 3 [(1, 0); (0, 1); (1, 1)] [Reveal 0 0].

(** One row with a wrong flag at (0,0): the cells (1,0) and (3,0) contradict
    each other about (2,0), while (5,0) constrains (6,0) alone. *)
Definition twoComponents : GameBoard :=
  play 7 1 [(2, 0)] [Flag 0 0; Reveal 1 0; Reveal 3 0; Reveal 4 0; Reveal 5 0].

(** One row with a mine at (0,0); (1,0) shows 1, (3,0) and (4,0) show 0:
    the zero rule clears (2,0) and the subset rule then marks (0,0). *)
Definition subsetBoard : GameBoard :=
  play 5 1 [(0, 0)] [Reveal 1 0; Reveal 3 0; Reveal 4 0].

(** One row, two frontiers separated by a flagged mine: (1,0) shows 1 next to
    the hidden (0,0) and (2,0), and (5,0) shows 1 next to the hidden (4,0)
    and (6,0). *)
Definition twoPairs : GameBoard :=
  play 7 1 [(0, 0); (3, 0); (6, 0)] [Flag 3 0; Reveal 1 0; Reveal 5 0].

(** Four flagged mines on the left, a hidden pocket at (0,1),(1,1) and a
    hidden cell (3,1) surrounded by revealed cells. *)
Definition twoSafe : GameBoard :=
  play 5 3 [(0, 0); (1, 0); (0, 2); (1, 2)]
    [Flag 0 0; Flag 1 0; Flag 0 2; Flag 1 2;
     Reveal 2 0; Reveal 3 0; Reveal 4 0; Reveal 2 1; Reveal 4 1;
     Reveal 2 2; Reveal 3 2; Reveal 4 2].

(** A finished game: the mine is flagged and the other cell is revealed. *)
Definition finished : GameBoard := play 2 1 [(0, 0)] [Flag 0 0; Reveal 1 0].

(** A lost game: (1,0) shows 2 and the mine at (0,0) has been revealed, so
    the cell (1,0) asks for two mines among its one hidden neighbour. *)
Definition overdrawn : GameBoard :=
  play 3 1 [(0, 0); (2, 0)] [Reveal 1 0; Reveal 0 0].

(** A won game whose mine was never flagged: the only safe cell is
    revealed. *)
Definition cleared : GameBoard := play 2 1 [(0, 0)] [Reveal 1 0].

(** A frontier of twenty-one cells in one row. *)
Definition wideFrontier : list CoordinateRef :=
  map (fun k => mkRef k (mkCoordinate (Z.of_nat k) 0)) (seq 0 21).

End Examples.

(** ** Vocabulary of the specification *)

Module Spec.

Definition neighbours (gb : GameBoard) (c : Coordinate) : list Cell :=
  Board.getAdjacentCells gb (x c) (y c).

Definition flaggedNeighbours (gb : GameBoard) (c : Coordinate) : Z :=
  Z.of_nat (List.length (filter isFlagged (neighbours gb c))).

(** Unrevealed, unflagged neighbours. *)
Definition unknownNeighbours (gb : GameBoard) (c : Coordinate) : Z :=
  Z.of_nat (List.length (filter ProbabilityCalculator.isUnknown (neighbours gb c))).

Definition revealedNeighbours (gb : GameBoard) (c : Coordinate) : Z :=
  Z.of_nat (List.length (filter isRevealed (neighbours gb c))).

(** The entry of a probability map for a cell given by its position. *)
Definition lookupCell (m : ProbabilityMap) (c : Coordinate) : option Q :=
  option_map snd (find (fun e => HintEngine.sameCell (target (fst e)) c) m).

(** The number of mines a complete mine assignment puts on a list of cells. *)
Definition minesOn (sigma : Coordinate -> bool) (cells : list CoordinateRef) : Z :=
  Z.of_nat (List.length (filter (fun r => sigma (target r)) cells)).

(** A complete mine assignment satisfies a constraint. *)
Definition satisfies (sigma : Coordinate -> bool) (c : Constraint) : Prop :=
  minesOn sigma (affectedCells c) = requiredMines c.

Definition keys (m : ProbabilityMap) : list CoordinateRef := map fst m.

Definition Qmin_of (l : list Q) (v : Q) : Prop :=
  (exists w, In w l /\ w == v)%Q /\ forall w, In w l -> (v <= w)%Q.

Definition inUnit (q : Q) : Prop := (0 <= q /\ q <= 1)%Q.

End Spec.

(** The addresses of the keys of a map. *)
Definition addrs (m : ProbabilityMap) : list nat := map (fun e => addr (fst e)) m.

(** The intermediate lists of [calculateProbabilities]. *)
Definition unknownCells (gb : GameBoard) : list CoordinateRef :=
  map coordinates
      (filter (fun cell => negb (isFlagged cell)) (Board.getUnrevealedCells gb)).

Definition frontierKeys (gb : GameBoard) : JS.StringSet :=
  fold_left (fun s c =>
    fold_left (fun s' coord => JS.set_add s' (ProbabilityCalculator.keyOf coord))
              (affectedCells c) s)
    (ConstraintSolver.extractConstraints gb) [].

Definition constrainedCoords (gb : GameBoard) : list CoordinateRef :=
  filter (fun coord => JS.set_has (frontierKeys gb) (ProbabilityCalculator.keyOf coord))
         (unknownCells gb).

Definition unconstrainedCoords (gb : GameBoard) : list CoordinateRef :=
  filter (fun coord =>
            negb (JS.set_has (frontierKeys gb) (ProbabilityCalculator.keyOf coord)))
         (unknownCells gb).

(** What [handleEdgeCases] does to one entry of the map. *)
Definition rescale (gb : GameBoard) (e : CoordinateRef * Q) : CoordinateRef * Q :=
  if ProbabilityCalculator.earlyGame gb then
    if ProbabilityCalculator.isCorner gb (target (fst e))
    then (fst e, (snd e * (8 # 10))%Q)
    else if ProbabilityCalculator.isEdge gb (target (fst e))
    then (fst e, (snd e * (9 # 10))%Q)
    else e
  else e.

(** C4 as a predicate on an analysis: the guaranteed cells found in the
    probability map sit at 1 (mines) and 0 (safe cells). *)
Definition guaranteedKept (a : HintAnalysis) : Prop :=
  (forall c p, In c (guaranteedMines a) ->
               Spec.lookupCell (probabilities a) c = Some p -> (p == 1)%Q)
  /\ (forall c p, In c (guaranteedSafe a) ->
                  Spec.lookupCell (probabilities a) c = Some p -> (p == 0)%Q).

(** The value that [calculateConstrainedProbabilities] stores for a cell. *)
Definition mineCountsOf (constraints : list Constraint) (cells : list CoordinateRef)
  : JS.Dict Z :=
  fold_left (fun d assignment => fold_left ProbabilityCalculator.countEntry assignment d)
            (ProbabilityCalculator.generateValidAssignments constraints cells)
            (fold_left (fun d coord => JS.dict_set d (ProbabilityCalculator.keyOf coord) 0)
                       cells []).

Definition marginal (constraints : list Constraint) (cells : list CoordinateRef)
    (coord : CoordinateRef) : Q :=
  let validAssignments :=
    ProbabilityCalculator.generateValidAssignments constraints cells in
  if Z.of_nat (List.length validAssignments) =? 0 then (1 # 2)%Q
  else
    (inject_Z (match JS.dict_get (mineCountsOf constraints cells)
                                 (ProbabilityCalculator.keyOf coord) with
               | Some n => n
               | None => 0
               end)
     / inject_Z (Z.of_nat (List.length validAssignments)))%Q.

(** The number of entries of an assignment object that mark the key [k] as a
    mine; an object has at most one entry per key. *)
Definition minesAt (k : string) (a : ProbabilityCalculator.MineAssignment) : Z :=
  Z.of_nat (List.length (filter (fun e => String.eqb k (fst e) && snd e) a)).

Definition dict_keys {V} (d : JS.Dict V) : list string := map fst d.

(** A string without a comma. *)
Fixpoint commaFree (s : string) : Prop :=
  match s with
  | EmptyString => True
  | String c s' => Ascii.eqb c ","%char = false /\ commaFree s'
  end.

(** The two sets of keys built by [findGuaranteedMoves] agree with a mine
    assignment. *)
Definition soundSets (sigma : Coordinate -> bool)
    (st : JS.StringSet * JS.StringSet) : Prop :=
  (forall s, In s (fst st) -> sigma (ConstraintSolver.stringToCoord s) = false)
  /\ (forall s, In s (snd st) -> sigma (ConstraintSolver.stringToCoord s) = true).

(** The assignment that the binary digits of [i] give to a list of keys, the
    first key taking the lowest digit. *)
Fixpoint bitsAssign (keys : list string) (i : Z) : ProbabilityCalculator.MineAssignment :=
  match keys with
  | [] => []
  | k :: ks => (k, Z.odd i) :: bitsAssign ks (Z.div2 i)
  end.

(** All the assignments to a list of keys, in the order of the counter. *)
Fixpoint allAssignments (keys : list string) : list ProbabilityCalculator.MineAssignment :=
  match keys with
  | [] => [[]]
  | k :: ks =>
      flat_map (fun a => [(k, false) :: a; (k, true) :: a]) (allAssignments ks)
  end.

(** Two assignments mark the same keys among those selected by [sel]. *)
Definition agreeOn (sel : string -> bool) (a a' : ProbabilityCalculator.MineAssignment)
  : Prop :=
  forall k, sel k = true ->
            ProbabilityCalculator.isTrue a k = ProbabilityCalculator.isTrue a' k.

(** A test on assignments that reads only the keys selected by [sel]. *)
Definition readsOnly (sel : string -> bool)
    (P : ProbabilityCalculator.MineAssignment -> bool) : Prop :=
  forall a a', agreeOn sel a a' -> P a = P a'.

(** The number of elements of a list that pass a test. *)
Definition countIf {A} (P : A -> bool) (l : list A) : Z :=
  Z.of_nat (List.length (filter P l)).

(** The number of mines around a position. *)
Definition mineNeighbours (gb : GameBoard) (cx cy : Z) : Z :=
  Z.of_nat (List.length (filter hasMine (Board.getAdjacentCells gb cx cy))).

(** The mine assignment of the board itself: whether the cell at a
    coordinate holds a mine. *)
Definition mineAt (gb : GameBoard) (c : Coordinate) : bool :=
  match Board.getCell gb (x c) (y c) with
  | Some cell => hasMine cell
  | None => false
  end.

(** A board that tells the truth: every revealed cell is free of mines and
    shows the number of mines around it, and every flag sits on a mine. *)
Definition truthful (gb : GameBoard) : bool :=
  forallb (fun cell =>
    (negb (isRevealed cell)
     || (negb (hasMine cell)
         && (adjacentMines cell
             =? mineNeighbours gb (x (target (coordinates cell)))
                                  (y (target (coordinates cell))))))
    && (negb (isFlagged cell) || hasMine cell))
    (Board.scan gb).

(** The mine assignment that an assignment object of the enumeration stands
    for. *)
Definition sigmaOf (a : ProbabilityCalculator.MineAssignment) (c : Coordinate) : bool :=
  ProbabilityCalculator.isTrue a (ProbabilityCalculator.coordToString c).

(** A list of moves in the order of descending priority. *)
Fixpoint descending (l : list MoveRecommendation) : Prop :=
  match l with
  | [] => True
  | a :: l' => (forall b, In b l' -> (priority b <= priority a)%Q) /\ descending l'
  end.

(** The array [recommendations] of [getTopMoves] before it is sorted. *)
Definition topCandidates (gb : GameBoard) : list MoveRecommendation :=
  map (fun coord => mkMove coord 0%Q 1000%Q "Guaranteed safe move")
      (fst (ConstraintSolver.findGuaranteedMoves gb))
  ++ map (HintEngine.recommend gb)
         (ProbabilityCalculator.handleEdgeCases gb
            (ProbabilityCalculator.calculateProbabilities gb)).

(** The test of [at_update]: the write at [p] reaches the position read. *)
Definition hitAt (p : Z * Z) (qx qy : Z) : bool :=
  (0 <=? fst p) && (0 <=? snd p) && (qx =? fst p) && (qy =? snd p).

(** Two boards of the same dimensions and mine count. *)
Definition sameShape (g0 g : GameBoard) : Prop :=
  width g = width g0 /\ height g = height g0 /\ mineCount g = mineCount g0.

(** The three writes of [placeMines] to a cell. *)
Definition clearMine (c : Cell) : Cell :=
  mkCell false (isRevealed c) (isFlagged c) 0 (coordinates c).

Definition setMine (c : Cell) : Cell :=
  mkCell true (isRevealed c) (isFlagged c) (adjacentMines c) (coordinates c).

Definition setAdjacent (n : Z) (c : Cell) : Cell :=
  mkCell (hasMine c) (isRevealed c) (isFlagged c) n (coordinates c).

(** Whether a list of mine positions names the position [(cx, cy)]. *)
Definition listed (minePositions : list Coordinate) (cx cy : Z) : bool :=
  existsb (fun pos => (x pos =? cx) && (y pos =? cy)) minePositions.

(** Every cell without a mine shows the number of mines around it. *)
Definition numbered (gb : GameBoard) : Prop :=
  forall cx cy c, Board.getCell gb cx cy = Some c -> hasMine c = false ->
    adjacentMines c = mineNeighbours gb cx cy.

(** The value that the adjustment returns for an entry that was 1: the factor
    of the cell. *)
Definition mineValue (gb : GameBoard) (c : Coordinate) : Q :=
  if ProbabilityCalculator.earlyGame gb && ProbabilityCalculator.isCorner gb c
  then (8 # 10)%Q
  else if ProbabilityCalculator.earlyGame gb && ProbabilityCalculator.isEdge gb c
  then (9 # 10)%Q
  else 1%Q.

(** * Properties *)

(** ** Ranges and the grid invariant *)

Lemma In_range (n z : Z) : In z (JS.range n) <-> 0 <= z < n.
Proof.
  unfold JS.range. rewrite in_map_iff. split.
  - intros (k & <- & Hk). apply in_seq in Hk. lia.
  - intros Hz. exists (Z.to_nat z). split; [lia|]. apply in_seq. lia.
Qed.

Lemma In_push_cell gb cx cy c :
  In c (Board.push_cell gb cx cy) <-> Board.at_ gb cx cy = Some c.
Proof.
  unfold Board.push_cell. destruct (Board.at_ gb cx cy); simpl; split;
    intros H; try tauto; try discriminate.
  - destruct H as [->|[]]. reflexivity.
  - inversion H. now left.
Qed.

Lemma In_scan gb c :
  In c (Board.scan gb) <->
  exists cx cy, 0 <= cx < width gb /\ 0 <= cy < height gb /\ Board.at_ gb cx cy = Some c.
Proof.
  unfold Board.scan. rewrite in_flat_map. split.
  - intros (cy & Hy & H). apply in_flat_map in H. destruct H as (cx & Hx & H).
    apply In_range in Hy, Hx. apply In_push_cell in H. eauto.
  - intros (cx & cy & Hx & Hy & H). exists cy. split; [now apply In_range|].
    apply in_flat_map. exists cx. split; [now apply In_range|]. now apply In_push_cell.
Qed.

Lemma isValidCoordinate_spec gb cx cy :
  Board.isValidCoordinate gb cx cy = true <-> 0 <= cx < width gb /\ 0 <= cy < height gb.
Proof.
  unfold Board.isValidCoordinate. rewrite !andb_true_iff. lia.
Qed.

Lemma wf_at gb cx cy :
  Board.wf gb = true -> 0 <= cx < width gb -> 0 <= cy < height gb ->
  exists c, Board.at_ gb cx cy = Some c /\ target (coordinates c) = mkCoordinate cx cy.
Proof.
  unfold Board.wf. rewrite andb_true_iff. intros [H _] Hx Hy.
  rewrite forallb_forall in H. specialize (H cy (proj2 (In_range _ _) Hy)).
  rewrite forallb_forall in H. specialize (H cx (proj2 (In_range _ _) Hx)).
  destruct (Board.at_ gb cx cy) as [c|]; [|discriminate].
  exists c. split; [reflexivity|].
  apply andb_true_iff in H. destruct H as [H1 H2].
  apply Z.eqb_eq in H1, H2. destruct (target (coordinates c)); simpl in *. now subst.
Qed.

Lemma wf_scan_target gb c :
  Board.wf gb = true -> In c (Board.scan gb) ->
  Board.at_ gb (x (target (coordinates c))) (y (target (coordinates c))) = Some c
  /\ 0 <= x (target (coordinates c)) < width gb
  /\ 0 <= y (target (coordinates c)) < height gb.
Proof.
  intros Hwf Hin. apply In_scan in Hin. destruct Hin as (cx & cy & Hx & Hy & Hat).
  destruct (wf_at gb cx cy Hwf Hx Hy) as (c' & Hat' & Ht).
  rewrite Hat in Hat'. inversion Hat'; subst c'. rewrite Ht. simpl. auto.
Qed.

Lemma distinct_NoDup l : Board.distinct l = true <-> NoDup l.
Proof.
  induction l as [|a l IH]; simpl.
  - split; [constructor|reflexivity].
  - rewrite andb_true_iff, negb_true_iff, IH. split.
    + intros [Hn Hd]. constructor; [|assumption]. intros Hin.
      assert (existsb (Nat.eqb a) l = true) as E
          by (apply existsb_exists; exists a; split; [assumption|apply Nat.eqb_refl]).
      congruence.
    + intros H. inversion H; subst. split; [|assumption].
      destruct (existsb (Nat.eqb a) l) eqn:E; [|reflexivity].
      apply existsb_exists in E. destruct E as (b & Hb & Hab).
      apply Nat.eqb_eq in Hab. now subst.
Qed.

Lemma NoDup_map_inj {A B} (f : A -> B) (l : list A) a b :
  NoDup (map f l) -> In a l -> In b l -> f a = f b -> a = b.
Proof.
  induction l as [|c l IH]; simpl; [tauto|].
  intros Hnd Ha Hb Hf. inversion Hnd as [|? ? Hn Hnd']; subst.
  destruct Ha as [->|Ha], Hb as [->|Hb]; auto.
  - exfalso. apply Hn. rewrite Hf. now apply in_map.
  - exfalso. apply Hn. rewrite <- Hf. now apply in_map.
Qed.

Lemma wf_addr_NoDup gb :
  Board.wf gb = true -> NoDup (map (fun c => addr (coordinates c)) (Board.scan gb)).
Proof.
  unfold Board.wf. rewrite andb_true_iff. intros [_ H]. now apply distinct_NoDup.
Qed.

Lemma wf_addr_inj gb c c' :
  Board.wf gb = true -> In c (Board.scan gb) -> In c' (Board.scan gb) ->
  addr (coordinates c) = addr (coordinates c') -> c = c'.
Proof.
  intros Hwf Hc Hc' E.
  exact (NoDup_map_inj (fun c => addr (coordinates c)) _ c c' (wf_addr_NoDup gb Hwf) Hc Hc' E).
Qed.

Lemma In_getAdjacentCells gb cx cy c :
  In c (Board.getAdjacentCells gb cx cy) ->
  exists d, In d Board.offsets
            /\ 0 <= cx + fst d < width gb /\ 0 <= cy + snd d < height gb
            /\ Board.at_ gb (cx + fst d) (cy + snd d) = Some c.
Proof.
  unfold Board.getAdjacentCells. rewrite in_flat_map. intros (d & Hd & H).
  exists d. split; [assumption|].
  destruct (Board.isValidCoordinate gb (cx + fst d) (cy + snd d)) eqn:E; [|destruct H].
  apply isValidCoordinate_spec in E. apply In_push_cell in H. tauto.
Qed.

Lemma getAdjacentCells_scan gb cx cy c :
  In c (Board.getAdjacentCells gb cx cy) -> In c (Board.scan gb).
Proof.
  intros H. apply In_getAdjacentCells in H. destruct H as (d & _ & Hx & Hy & Hat).
  apply In_scan. eauto.
Qed.

(** ** The constraint extractor *)

Lemma In_extractConstraints gb c :
  In c (ConstraintSolver.extractConstraints gb) ->
  exists cell,
    In cell (Board.getRevealedCells gb)
    /\ centerCell c = coordinates cell
    /\ requiredMines c
       = adjacentMines cell - Spec.flaggedNeighbours gb (target (coordinates cell))
    /\ affectedCells c
       = map coordinates
           (filter ProbabilityCalculator.isUnknown
                   (Spec.neighbours gb (target (coordinates cell))))
    /\ 0 <= requiredMines c
    /\ affectedCells c <> [].
Proof.
  unfold ConstraintSolver.extractConstraints. rewrite in_flat_map.
  intros (cell & Hcell & H). exists cell. split; [assumption|].
  match type of H with In _ (if ?b then _ else _) => destruct b eqn:E end;
    [|destruct H].
  destruct H as [<-|[]]. simpl.
  apply andb_true_iff in E. destruct E as [E1 E2].
  apply Z.ltb_lt in E1. apply Z.leb_le in E2.
  unfold Spec.flaggedNeighbours, Spec.neighbours, ProbabilityCalculator.isUnknown.
  repeat split; auto.
  intros Hnil. apply (f_equal (@List.length _)) in Hnil.
  rewrite length_map in Hnil. simpl in Hnil.
  change (fun c : Cell => negb (isRevealed c) && negb (isFlagged c))
    with (fun c : Cell => negb (isRevealed c) && negb (isFlagged c)) in *.
  lia.
Qed.

(** C3, as stated, fails: on [Examples.flagOver] the revealed cell (1,0)
    shows 0 and has one flagged neighbour, it has the unrevealed, unflagged
    neighbour (2,0), and the extractor emits no constraint for it, with a
    negative count or otherwise. *)
Lemma extractConstraints_negative_counterexample :
  Board.wf Examples.flagOver = true
  /\ exists cell,
       In cell (Board.getRevealedCells Examples.flagOver)
       /\ adjacentMines cell
          < Spec.flaggedNeighbours Examples.flagOver (target (coordinates cell))
       /\ 0 < Spec.unknownNeighbours Examples.flagOver (target (coordinates cell))
       /\ ~ exists c, In c (ConstraintSolver.extractConstraints Examples.flagOver)
                      /\ addr (centerCell c) = addr (coordinates cell).
Proof.
  split; [vm_compute; reflexivity|].
  exists (mkCell false true false 0 (mkRef 1 (mkCoordinate 1 0))).
  split; [vm_compute; auto|].
  split; [vm_compute; reflexivity|].
  split; [vm_compute; reflexivity|].
  intros (c & Hc & Hcenter).
  vm_compute in Hc. destruct Hc as [<-|[]]. vm_compute in Hcenter. discriminate.
Qed.

(** C3 (amended): the extractor emits only constraints with a non-negative
    required-mine count and a non-empty list of affected cells; a revealed
    cell whose flagged neighbours outnumber its adjacent-mine count is
    skipped, no constraint is emitted for it. *)
Theorem extractConstraints_skips_negative (gb : GameBoard) :
  Board.wf gb = true ->
  (forall c, In c (ConstraintSolver.extractConstraints gb) ->
     0 <= requiredMines c /\ affectedCells c <> [])
  /\ (forall cell,
        In cell (Board.getRevealedCells gb) ->
        adjacentMines cell < Spec.flaggedNeighbours gb (target (coordinates cell)) ->
        forall c, In c (ConstraintSolver.extractConstraints gb) ->
                  addr (centerCell c) <> addr (coordinates cell)).
Proof.
  intros Hwf. split.
  - intros c Hc. apply In_extractConstraints in Hc.
    destruct Hc as (cell & _ & _ & _ & _ & H1 & H2). auto.
  - intros cell Hcell Hlt c Hc Haddr.
    apply In_extractConstraints in Hc.
    destruct Hc as (cell' & Hcell' & Hcenter & Hreq & _ & Hnonneg & _).
    rewrite Hcenter in Haddr.
    assert (cell' = cell) as ->.
    { apply (wf_addr_inj gb); auto.
      - unfold Board.getRevealedCells in Hcell'. now apply filter_In in Hcell'.
      - unfold Board.getRevealedCells in Hcell. now apply filter_In in Hcell. }
    lia.
Qed.

Lemma extractConstraints_skips_negative_witness :
  (forall c, In c (ConstraintSolver.extractConstraints Examples.flagOver) ->
     0 <= requiredMines c /\ affectedCells c <> [])
  /\ (forall cell,
        In cell (Board.getRevealedCells Examples.flagOver) ->
        adjacentMines cell
        < Spec.flaggedNeighbours Examples.flagOver (target (coordinates cell)) ->
        forall c, In c (ConstraintSolver.extractConstraints Examples.flagOver) ->
                  addr (centerCell c) <> addr (coordinates cell)).
Proof.
  apply (extractConstraints_skips_negative Examples.flagOver).
  vm_compute. reflexivity.
Defined.

(** ** Maps keyed by reference *)

Lemma map_get_None m k : map_get m k = None <-> ~ In (addr k) (addrs m).
Proof.
  induction m as [|[k' v] m IH]; simpl; [tauto|].
  destruct (Nat.eqb (addr k) (addr k')) eqn:E.
  - apply Nat.eqb_eq in E. split; [discriminate|]. intros H. exfalso. apply H. now left.
  - apply Nat.eqb_neq in E. rewrite IH. split; [intros H [H'|H']; congruence|tauto].
Qed.

Lemma map_get_In m k v : map_get m k = Some v -> exists k', In (k', v) m /\ addr k' = addr k.
Proof.
  induction m as [|[k' v'] m IH]; simpl; [discriminate|].
  destruct (Nat.eqb (addr k) (addr k')) eqn:E.
  - intros H. inversion H; subst. apply Nat.eqb_eq in E. eauto.
  - intros H. destruct (IH H) as (k'' & Hin & Ha). eauto.
Qed.

Lemma In_map_get m k v :
  NoDup (addrs m) -> In (k, v) m -> map_get m k = Some v.
Proof.
  induction m as [|[k' v'] m IH]; simpl; [tauto|].
  intros Hnd [H|H].
  - inversion H; subst. now rewrite Nat.eqb_refl.
  - inversion Hnd as [|? ? Hn Hnd']; subst.
    destruct (Nat.eqb (addr k) (addr k')) eqn:E; [|auto].
    apply Nat.eqb_eq in E. exfalso. apply Hn. rewrite <- E.
    unfold addrs. apply in_map_iff. exists (k, v). auto.
Qed.

Lemma map_set_notin m k v : ~ In (addr k) (addrs m) -> map_set m k v = m ++ [(k, v)].
Proof.
  induction m as [|[k' v'] m IH]; simpl; [reflexivity|].
  intros H. destruct (Nat.eqb (addr k) (addr k')) eqn:E.
  - apply Nat.eqb_eq in E. exfalso. apply H. now left.
  - rewrite IH; [reflexivity|tauto].
Qed.

Lemma map_set_at m1 m2 k v0 v :
  ~ In (addr k) (addrs m1) -> map_set (m1 ++ (k, v0) :: m2) k v = m1 ++ (k, v) :: m2.
Proof.
  induction m1 as [|[k' v'] m1 IH]; simpl.
  - now rewrite Nat.eqb_refl.
  - intros H. destruct (Nat.eqb (addr k) (addr k')) eqn:E.
    + apply Nat.eqb_eq in E. exfalso. apply H. now left.
    + rewrite IH; [reflexivity|tauto].
Qed.

Lemma map_set_addrs m k v a :
  In a (addrs (map_set m k v)) <-> In a (addrs m) \/ a = addr k.
Proof.
  induction m as [|[k' v'] m IH]; simpl.
  - split; [intros [H|[]]; auto|intros [[]|H]; auto].
  - destruct (Nat.eqb (addr k) (addr k')) eqn:E; simpl.
    + apply Nat.eqb_eq in E. rewrite E. intuition.
    + rewrite IH. tauto.
Qed.

Lemma map_set_NoDup m k v : NoDup (addrs m) -> NoDup (addrs (map_set m k v)).
Proof.
  induction m as [|[k' v'] m IH]; simpl.
  - intros _. constructor; [intros []|constructor].
  - intros H. inversion H as [|? ? Hn Hnd]; subst.
    destruct (Nat.eqb (addr k) (addr k')) eqn:E; simpl.
    + constructor; assumption.
    + constructor; [|auto]. rewrite map_set_addrs. apply Nat.eqb_neq in E.
      intros [H'|H']; [tauto|congruence].
Qed.

Lemma map_set_values (P : Q -> Prop) m k v :
  Forall (fun e => P (snd e)) m -> P v -> Forall (fun e => P (snd e)) (map_set m k v).
Proof.
  intros Hm Hv. induction m as [|[k' v'] m IH]; simpl.
  - constructor; [assumption|constructor].
  - inversion Hm; subst. destruct (Nat.eqb (addr k) (addr k')).
    + constructor; assumption.
    + constructor; auto.
Qed.

Section FoldSet.

Context {A : Type} (kf : A -> CoordinateRef) (vf : A -> Q).

Let step (m : ProbabilityMap) (a : A) : ProbabilityMap := map_set m (kf a) (vf a).

Lemma fold_set_addrs l m a :
  In a (addrs (fold_left step l m)) <->
  In a (addrs m) \/ In a (map (fun z => addr (kf z)) l).
Proof.
  revert m. induction l as [|z l IH]; intros m; simpl; [tauto|].
  rewrite IH. unfold step. rewrite map_set_addrs. intuition.
Qed.

Lemma fold_set_NoDup l m : NoDup (addrs m) -> NoDup (addrs (fold_left step l m)).
Proof.
  revert m. induction l as [|z l IH]; intros m H; simpl; [assumption|].
  apply IH. now apply map_set_NoDup.
Qed.

Lemma fold_set_values (P : Q -> Prop) l m :
  Forall (fun e => P (snd e)) m -> (forall z, In z l -> P (vf z)) ->
  Forall (fun e => P (snd e)) (fold_left step l m).
Proof.
  revert m. induction l as [|z l IH]; intros m Hm Hl; simpl; [assumption|].
  apply IH; [|intros; apply Hl; now right].
  apply map_set_values; [assumption|apply Hl; now left].
Qed.

Lemma fold_set_fresh l m :
  NoDup (addrs m ++ map (fun z => addr (kf z)) l) ->
  fold_left step l m = m ++ map (fun z => (kf z, vf z)) l.
Proof.
  revert m. induction l as [|z l IH]; intros m H; simpl.
  - now rewrite app_nil_r.
  - assert (~ In (addr (kf z)) (addrs m)) as Hz.
    { intros Hin. apply NoDup_remove_2 in H. apply H. apply in_or_app. now left. }
    change (step m z) with (map_set m (kf z) (vf z)). rewrite map_set_notin by assumption.
    rewrite IH.
    + now rewrite <- app_assoc.
    + unfold addrs in *. rewrite map_app, <- app_assoc. simpl. exact H.
Qed.

(** Setting every key of a map a second time, in order, rewrites the
    values in place. *)
Lemma fold_set_overwrite (v0 : A -> Q) done todo :
  NoDup (map (fun z => addr (kf z)) (done ++ todo)) ->
  fold_left step todo
    (map (fun z => (kf z, vf z)) done ++ map (fun z => (kf z, v0 z)) todo)
  = map (fun z => (kf z, vf z)) (done ++ todo).
Proof.
  revert done. induction todo as [|z todo IH]; intros done H; simpl.
  - now rewrite !app_nil_r.
  - match goal with |- fold_left step todo (step ?m z) = _ =>
      change (step m z) with (map_set m (kf z) (vf z)) end.
    rewrite map_set_at.
    + specialize (IH (done ++ [z])).
      rewrite !map_app, <- !app_assoc in IH. simpl in IH.
      rewrite map_app. simpl. apply IH. rewrite map_app in H. exact H.
    + unfold addrs. rewrite map_map. simpl.
      rewrite map_app in H. apply NoDup_remove_2 in H.
      intros Hin. apply H. apply in_or_app. now left.
Qed.

End FoldSet.

(** [new Map(m)] of a map is the map. *)
Lemma map_copy m :
  NoDup (addrs m) -> fold_left (fun acc e => map_set acc (fst e) (snd e)) m [] = m.
Proof.
  intros H.
  rewrite (fold_set_fresh fst snd m []).
  - simpl. rewrite <- (map_id m) at 2. apply map_ext. now intros [k v].
  - simpl. exact H.
Qed.

(** ** The probability map *)

Lemma calculateProbabilities_unfold gb :
  ProbabilityCalculator.calculateProbabilities gb =
  if Z.of_nat (List.length (unknownCells gb)) =? 0 then [] else
  let probabilities1 :=
    if (0 <? Z.of_nat (List.length (constrainedCoords gb)))
       && (0 <? Z.of_nat (List.length (ConstraintSolver.extractConstraints gb))) then
      fold_left (fun m e => map_set m (fst e) (snd e))
        (ProbabilityCalculator.calculateConstrainedProbabilities
           (ConstraintSolver.extractConstraints gb) (constrainedCoords gb)) []
    else [] in
  if 0 <? Z.of_nat (List.length (unconstrainedCoords gb)) then
    fold_left (fun m coord =>
      map_set m coord
        (ProbabilityCalculator.calculateUnconstrainedProbability gb
           (Z.of_nat (List.length (constrainedCoords gb)))
           (Z.of_nat (List.length (unconstrainedCoords gb)))))
      (unconstrainedCoords gb) probabilities1
  else probabilities1.
Proof. reflexivity. Qed.

Lemma calculateConstrainedProbabilities_addrs cs cells a :
  In a (addrs (ProbabilityCalculator.calculateConstrainedProbabilities cs cells)) ->
  In a (map addr cells).
Proof.
  unfold ProbabilityCalculator.calculateConstrainedProbabilities.
  destruct (Z.of_nat _ =? 0); intros H;
    apply (fold_set_addrs (fun c => c)) in H;
    destruct H as [H|H]; auto;
    apply (fold_set_addrs (fun c => c)) in H; destruct H as [[]|H]; auto.
Qed.

Lemma In_unknownCells gb r :
  In r (unknownCells gb) <->
  exists cell, In cell (Board.scan gb) /\ ProbabilityCalculator.isUnknown cell = true
               /\ coordinates cell = r.
Proof.
  unfold unknownCells, Board.getUnrevealedCells, ProbabilityCalculator.isUnknown.
  rewrite in_map_iff. split.
  - intros (cell & <- & H). apply filter_In in H. destruct H as [H Hf].
    apply filter_In in H. destruct H as [H Hr]. exists cell. rewrite Hr, Hf. auto.
  - intros (cell & Hin & Hu & <-). apply andb_true_iff in Hu. destruct Hu as [Hr Hf].
    exists cell. split; [reflexivity|]. apply filter_In. split; [|assumption].
    apply filter_In. auto.
Qed.

Lemma calculateProbabilities_addrs gb a :
  In a (addrs (ProbabilityCalculator.calculateProbabilities gb)) ->
  In a (map addr (unknownCells gb)).
Proof.
  rewrite calculateProbabilities_unfold.
  destruct (Z.of_nat (List.length (unknownCells gb)) =? 0); [intros []|].
  cbv zeta.
  assert (forall a,
    In a (addrs (if (0 <? Z.of_nat (List.length (constrainedCoords gb)))
       && (0 <? Z.of_nat (List.length (ConstraintSolver.extractConstraints gb))) then
      fold_left (fun m e => map_set m (fst e) (snd e))
        (ProbabilityCalculator.calculateConstrainedProbabilities
           (ConstraintSolver.extractConstraints gb) (constrainedCoords gb)) []
    else [])) -> In a (map addr (unknownCells gb))) as H1.
  { intros b. destruct (_ && _); [|intros []].
    intros H. apply (fold_set_addrs fst snd) in H. destruct H as [[]|H].
    apply (calculateConstrainedProbabilities_addrs _ _ b) in H.
    apply in_map_iff in H. destruct H as (r & <- & H).
    apply in_map. unfold constrainedCoords in H. apply filter_In in H. tauto. }
  destruct (0 <? Z.of_nat (List.length (unconstrainedCoords gb))); [|apply H1].
  intros H. apply (fold_set_addrs (fun c => c)) in H. destruct H as [H|H]; [auto|].
  apply in_map_iff in H. destruct H as (r & <- & H).
  apply in_map. unfold unconstrainedCoords in H. apply filter_In in H. tauto.
Qed.

(** ** analyzeCellRisk *)

Lemma orHalf_nonzero v : ~ (HintEngine.orHalf v == 0)%Q.
Proof.
  unfold HintEngine.orHalf. destruct v as [p|]; [|discriminate].
  destruct (Qeq_bool p 0) eqn:E; [discriminate|].
  intros H. apply Qeq_bool_neq in E. contradiction.
Qed.

(** C10: [analyzeCellRisk] never reports the probability 0: a lookup that
    misses or that finds 0 is replaced by 0.5, any other value found is
    reported as it is.  The lookup compares references: it misses for every
    coordinate object whose address is not that of a key, whatever its
    contents, and in particular for every object that is not the
    [coordinates] field of a cell of the board. *)
Theorem analyzeCellRisk_default (coord : CoordinateRef) (gb : GameBoard) :
  let probs := ProbabilityCalculator.calculateProbabilities gb in
  let reported := risk_probability (HintEngine.analyzeCellRisk coord gb) in
  ~ (reported == 0)%Q
  /\ (map_get probs coord = None -> reported = (1 # 2)%Q)
  /\ (forall p, map_get probs coord = Some p -> (p == 0)%Q -> reported = (1 # 2)%Q)
  /\ (forall p, map_get probs coord = Some p -> ~ (p == 0)%Q -> reported = p)
  /\ ((forall k, In k (Spec.keys probs) -> addr k <> addr coord) ->
      map_get probs coord = None /\ reported = (1 # 2)%Q)
  /\ ((forall cell, In cell (Board.scan gb) -> addr (coordinates cell) <> addr coord) ->
      map_get probs coord = None /\ reported = (1 # 2)%Q).
Proof.
  intros probs reported.
  assert (reported = HintEngine.orHalf (map_get probs coord)) as Hr by reflexivity.
  assert ((forall k, In k (Spec.keys probs) -> addr k <> addr coord) ->
          map_get probs coord = None /\ reported = (1 # 2)%Q) as Hkeys.
  { intros Hk. assert (map_get probs coord = None) as E.
    { apply map_get_None. unfold addrs. rewrite in_map_iff.
      intros ([k v] & Ha & Hin). simpl in Ha.
      apply (Hk k); [|assumption]. unfold Spec.keys. apply in_map_iff.
      exists (k, v). auto. }
    split; [assumption|]. rewrite Hr, E. reflexivity. }
  split; [rewrite Hr; apply orHalf_nonzero|].
  split; [intros E; rewrite Hr, E; reflexivity|].
  split.
  { intros p E Hp. rewrite Hr, E. simpl.
    apply Qeq_bool_iff in Hp. now rewrite Hp. }
  split.
  { intros p E Hp. rewrite Hr, E. simpl.
    destruct (Qeq_bool p 0) eqn:E0; [|reflexivity].
    apply Qeq_bool_iff in E0. contradiction. }
  split; [assumption|].
  intros Hfresh. apply Hkeys. intros k Hk Ha.
  assert (In (addr k) (addrs probs)) as Hin.
  { unfold Spec.keys in Hk. apply in_map_iff in Hk. destruct Hk as (e & <- & He).
    unfold addrs. apply in_map_iff. exists e. auto. }
  apply calculateProbabilities_addrs in Hin.
  apply in_map_iff in Hin. destruct Hin as (r & Hr' & Hin).
  apply In_unknownCells in Hin. destruct Hin as (cell & Hcell & _ & <-).
  apply (Hfresh cell Hcell). congruence.
Qed.

(** On [Examples.earlyMines] the map holds 1 for the cell (1,0); a
    coordinate object built by the caller for (1,0) is reported at 0.5. *)
Lemma analyzeCellRisk_default_witness :
  Spec.lookupCell (ProbabilityCalculator.calculateProbabilities Examples.earlyMines)
                  (mkCoordinate 1 0) = Some 1%Q
  /\ map_get (ProbabilityCalculator.calculateProbabilities Examples.earlyMines)
             (mkRef 100 (mkCoordinate 1 0)) = None
  /\ risk_probability
       (HintEngine.analyzeCellRisk (mkRef 100 (mkCoordinate 1 0)) Examples.earlyMines)
     = (1 # 2)%Q.
Proof.
  split; [vm_compute; reflexivity|].
  apply (analyzeCellRisk_default (mkRef 100 (mkCoordinate 1 0)) Examples.earlyMines).
  intros cell Hcell. vm_compute in Hcell.
  repeat (destruct Hcell as [<-|Hcell]; [simpl; discriminate|]).
  destruct Hcell.
Defined.

(** On [Examples.twoSafe] the map holds 0 for the guaranteed-safe cell
    (3,1); asked with the board's own coordinate object, the engine reports
    0.5 for it. *)
Example analyzeCellRisk_zero_is_half :
  map_get (ProbabilityCalculator.calculateProbabilities Examples.twoSafe)
          (mkRef 8 (mkCoordinate 3 1)) = Some 0%Q
  /\ HintEngine.analyzeCellRisk (mkRef 8 (mkCoordinate 3 1)) Examples.twoSafe
     = mkCellRisk (1 # 2)%Q "Guaranteed safe by constraint analysis" true false.
Proof. split; vm_compute; reflexivity. Qed.

(** ** The edge and corner adjustment *)

Lemma calculateConstrainedProbabilities_NoDup cs cells :
  NoDup (addrs (ProbabilityCalculator.calculateConstrainedProbabilities cs cells)).
Proof.
  unfold ProbabilityCalculator.calculateConstrainedProbabilities.
  destruct (Z.of_nat _ =? 0);
    apply (fold_set_NoDup (fun c => c)); apply (fold_set_NoDup (fun c => c)); constructor.
Qed.

Lemma calculateProbabilities_NoDup gb :
  NoDup (addrs (ProbabilityCalculator.calculateProbabilities gb)).
Proof.
  rewrite calculateProbabilities_unfold.
  destruct (Z.of_nat (List.length (unknownCells gb)) =? 0); [constructor|].
  cbv zeta.
  match goal with |- context [if ?b then fold_left ?f ?l ?m else ?m] =>
    assert (NoDup (addrs m)) as H1 end.
  { destruct (_ && _); [|constructor]. apply (fold_set_NoDup fst snd). constructor. }
  destruct (0 <? Z.of_nat (List.length (unconstrainedCoords gb))); [|exact H1].
  apply (fold_set_NoDup (fun c => c)). exact H1.
Qed.

Lemma rescale_fst gb e : fst (rescale gb e) = fst e.
Proof.
  unfold rescale. destruct (ProbabilityCalculator.earlyGame gb); [|reflexivity].
  destruct (ProbabilityCalculator.isCorner gb _); [reflexivity|].
  destruct (ProbabilityCalculator.isEdge gb _); reflexivity.
Qed.

Lemma adjustEntry_fold gb done todo :
  ProbabilityCalculator.earlyGame gb = true ->
  NoDup (addrs (done ++ todo)) ->
  fold_left (ProbabilityCalculator.adjustEntry gb) todo (map (rescale gb) done ++ todo)
  = map (rescale gb) (done ++ todo).
Proof.
  intros Hearly. revert done.
  induction todo as [|[k p] todo IH]; intros done H; cbn [fold_left].
  - now rewrite !app_nil_r.
  - assert (~ In (addr k) (addrs (map (rescale gb) done))) as Hk.
    { unfold addrs in *. rewrite map_map.
      rewrite (map_ext _ (fun e => addr (fst e))) by (intros e; now rewrite rescale_fst).
      rewrite map_app in H. apply NoDup_remove_2 in H.
      intros Hin. apply H. apply in_or_app. now left. }
    assert (ProbabilityCalculator.adjustEntry gb
              (map (rescale gb) done ++ (k, p) :: todo) (k, p)
            = map (rescale gb) (done ++ [(k, p)]) ++ todo) as E.
    { rewrite map_app, <- app_assoc. simpl.
      remember (map (rescale gb) done) as M.
      unfold ProbabilityCalculator.adjustEntry, rescale. rewrite Hearly. simpl.
      destruct (ProbabilityCalculator.isCorner gb (target k));
        [now rewrite map_set_at by exact Hk|].
      destruct (ProbabilityCalculator.isEdge gb (target k));
        [now rewrite map_set_at by exact Hk|reflexivity]. }
    rewrite E, IH.
    + now rewrite <- app_assoc.
    + now rewrite <- app_assoc.
Qed.

Lemma handleEdgeCases_map gb m :
  NoDup (addrs m) ->
  ProbabilityCalculator.handleEdgeCases gb m = map (rescale gb) m.
Proof.
  intros H. unfold ProbabilityCalculator.handleEdgeCases.
  rewrite (map_copy m H).
  destruct (ProbabilityCalculator.earlyGame gb) eqn:E.
  - exact (adjustEntry_fold gb [] m E H).
  - rewrite <- (map_id m) at 1. apply map_ext. intros e. unfold rescale. now rewrite E.
Qed.

Lemma handleEdgeCases_addrs gb m :
  NoDup (addrs m) -> addrs (ProbabilityCalculator.handleEdgeCases gb m) = addrs m.
Proof.
  intros H. rewrite handleEdgeCases_map by exact H. unfold addrs. rewrite map_map.
  apply map_ext. intros e. now rewrite rescale_fst.
Qed.

(** ** The choice among guaranteed-safe cells *)

Lemma Qltb_lt a b : Qltb a b = true <-> (a < b)%Q.
Proof.
  unfold Qltb. rewrite negb_true_iff. split.
  - intros H. apply Qnot_le_lt. intros Hle. apply Qle_bool_iff in Hle. congruence.
  - intros H. destruct (Qle_bool b a) eqn:E; [|reflexivity].
    apply Qle_bool_iff in E. exfalso. exact (Qlt_not_le _ _ H E).
Qed.

Lemma Qltb_ge a b : Qltb a b = false <-> (b <= a)%Q.
Proof.
  unfold Qltb. rewrite negb_false_iff. apply Qle_bool_iff.
Qed.

Lemma betterSafe_fold gb rest first :
  let gain c := ProbabilityCalculator.calculateInformationGain c gb in
  let st := fold_left (HintEngine.betterSafe gb) rest (first, gain first) in
  In (fst st) (first :: rest)
  /\ snd st = gain (fst st)
  /\ forall c, In c (first :: rest) -> (gain c <= snd st)%Q.
Proof.
  intros gain.
  assert (forall rest st0 (seen : list Coordinate),
    In (fst st0) seen -> snd st0 = gain (fst st0) ->
    (forall c, In c seen -> (gain c <= snd st0)%Q) ->
    let st := fold_left (HintEngine.betterSafe gb) rest st0 in
    In (fst st) (seen ++ rest) /\ snd st = gain (fst st)
    /\ forall c, In c (seen ++ rest) -> (gain c <= snd st)%Q) as Hgen.
  { clear rest first. induction rest as [|c rest IH]; intros st0 seen Hin Hsnd Hmax; simpl.
    - rewrite app_nil_r. auto.
    - specialize (IH (HintEngine.betterSafe gb st0 c) (seen ++ [c])).
      rewrite <- app_assoc in IH. simpl in IH. apply IH; clear IH.
      + unfold HintEngine.betterSafe.
        destruct (Qltb (snd st0) _); simpl; apply in_or_app; [right; now left|now left].
      + unfold HintEngine.betterSafe.
        destruct (Qltb (snd st0) _); simpl; [reflexivity|assumption].
      + intros c' Hc'. unfold HintEngine.betterSafe. fold (gain c).
        destruct (Qltb (snd st0) (gain c)) eqn:E; simpl.
        * apply Qltb_lt in E. apply in_app_or in Hc'. destruct Hc' as [Hc'|[<-|[]]].
          -- apply Qle_trans with (snd st0); [auto|now apply Qlt_le_weak].
          -- apply Qle_refl.
        * apply Qltb_ge in E. apply in_app_or in Hc'. destruct Hc' as [Hc'|[<-|[]]]; auto. }
  intros st. apply (Hgen rest (first, gain first) [first]); simpl; auto.
  - intros c [<-|[]]. apply Qle_refl.
Qed.

Lemma selectBestGuaranteedSafe_spec gb safeMoves :
  safeMoves <> [] ->
  exists best,
    HintEngine.selectBestGuaranteedSafe gb safeMoves = Some best
    /\ In best safeMoves
    /\ forall c, In c safeMoves ->
         (ProbabilityCalculator.calculateInformationGain c gb
          <= ProbabilityCalculator.calculateInformationGain best gb)%Q.
Proof.
  destruct safeMoves as [|first rest]; [congruence|]. intros _.
  destruct rest as [|second rest].
  - exists first. simpl. split; [reflexivity|]. split; [now left|].
    intros c [<-|[]]. apply Qle_refl.
  - destruct (betterSafe_fold gb (second :: rest) first) as (Hin & Hsnd & Hmax).
    eexists. split; [reflexivity|]. split; [exact Hin|].
    intros c Hc. rewrite <- Hsnd. now apply Hmax.
Qed.

(** The loop of [selectBestGuaranteedSafe] keeps the first candidate of
    maximal gain: a later candidate replaces the current one only when its
    gain is strictly higher. *)
Lemma betterSafe_fold_first gb rest : forall before best after,
  let gain c := ProbabilityCalculator.calculateInformationGain c gb in
  (forall c, In c before -> (gain c < gain best)%Q) ->
  (forall c, In c after -> (gain c <= gain best)%Q) ->
  exists before' best' after',
    before ++ best :: after ++ rest = before' ++ best' :: after'
    /\ fst (fold_left (HintEngine.betterSafe gb) rest (best, gain best)) = best'
    /\ (forall c, In c before' -> (gain c < gain best')%Q)
    /\ (forall c, In c after' -> (gain c <= gain best')%Q).
Proof.
  induction rest as [|c rest IH]; intros before best after gain Hb Ha.
  - exists before, best, after. rewrite app_nil_r. cbn [fold_left fst]. auto.
  - cbn [fold_left]. unfold HintEngine.betterSafe at 2. cbn [snd]. fold (gain c).
    destruct (Qltb (gain best) (gain c)) eqn:E.
    + apply Qltb_lt in E.
      destruct (IH (before ++ best :: after) c []) as (b' & s' & a' & Heq & Hf & Hb' & Ha').
      * intros d Hd. apply in_app_or in Hd. destruct Hd as [Hd|[<- |Hd]].
        -- eapply Qlt_trans; [now apply Hb|exact E].
        -- exact E.
        -- eapply Qle_lt_trans; [now apply Ha|exact E].
      * intros d [].
      * exists b', s', a'. split; [|now split].
        rewrite <- Heq. cbn [app]. now rewrite <- app_assoc.
    + apply Qltb_ge in E.
      destruct (IH before best (after ++ [c])) as (b' & s' & a' & Heq & Hf & Hb' & Ha').
      * exact Hb.
      * intros d Hd. apply in_app_or in Hd.
        destruct Hd as [Hd|[<- |[]]]; [now apply Ha|exact E].
      * exists b', s', a'. split; [|now split].
        rewrite <- Heq. now rewrite <- app_assoc.
Qed.

Lemma selectBestGuaranteedSafe_first gb safeMoves :
  let gain c := ProbabilityCalculator.calculateInformationGain c gb in
  safeMoves <> [] ->
  exists before best after,
    safeMoves = before ++ best :: after
    /\ HintEngine.selectBestGuaranteedSafe gb safeMoves = Some best
    /\ (forall c, In c before -> (gain c < gain best)%Q)
    /\ (forall c, In c after -> (gain c <= gain best)%Q).
Proof.
  intros gain. destruct safeMoves as [|first rest]; [congruence|]. intros _.
  destruct rest as [|second rest].
  - exists [], first, []. cbn. repeat split; intros c [].
  - destruct (betterSafe_fold_first gb (second :: rest) [] first [])
      as (b' & s' & a' & Heq & Hf & Hb' & Ha'); try (intros c []).
    exists b', s', a'. split; [exact Heq|]. split; [|now split].
    cbn [HintEngine.selectBestGuaranteedSafe]. now rewrite Hf.
Qed.

Lemma gain_compare gb c best :
  (ProbabilityCalculator.calculateInformationGain c gb
   <= ProbabilityCalculator.calculateInformationGain best gb)%Q ->
  2 * Spec.unknownNeighbours gb c + Spec.revealedNeighbours gb c
  <= 2 * Spec.unknownNeighbours gb best + Spec.revealedNeighbours gb best.
Proof.
  unfold ProbabilityCalculator.calculateInformationGain, Spec.unknownNeighbours,
    Spec.revealedNeighbours, Spec.neighbours.
  generalize (Z.of_nat (List.length (filter ProbabilityCalculator.isUnknown
                (Board.getAdjacentCells gb (x c) (y c))))).
  generalize (Z.of_nat (List.length (filter isRevealed
                (Board.getAdjacentCells gb (x c) (y c))))).
  generalize (Z.of_nat (List.length (filter ProbabilityCalculator.isUnknown
                (Board.getAdjacentCells gb (x best) (y best))))).
  generalize (Z.of_nat (List.length (filter isRevealed
                (Board.getAdjacentCells gb (x best) (y best))))).
  intros rb ub rc uc. unfold Qle, Qplus, Qmult, inject_Z.
  cbn [Qnum Qden Pos.mul]. lia.
Qed.

Lemma getBestMove_safe gb gm probs :
  fst gm <> [] ->
  HintEngine.getBestMove gb gm probs
  = option_map (fun bestSafe => mkMove bestSafe 0%Q 1000%Q "Guaranteed safe move")
               (HintEngine.selectBestGuaranteedSafe gb (fst gm)).
Proof.
  intros Hne. unfold HintEngine.getBestMove.
  destruct (fst gm) as [|c0 l]; [congruence|].
  replace (0 <? Z.of_nat (List.length (c0 :: l))) with true
    by (symmetry; apply Z.ltb_lt; simpl List.length; lia).
  destruct (HintEngine.selectBestGuaranteedSafe gb (c0 :: l)); reflexivity.
Qed.

(** C8, as stated, fails: on [Examples.twoSafe] the guaranteed-safe cells are
    (1,1), with one unrevealed, unflagged neighbour, and (3,1), with none;
    the engine recommends (3,1), whose eight revealed neighbours give it the
    information gain 4 against 2.5. *)
Lemma selectBestGuaranteedSafe_counterexample :
  Board.wf Examples.twoSafe = true
  /\ guaranteedSafe (HintEngine.analyzeBoard Examples.twoSafe)
     = [mkCoordinate 1 1; mkCoordinate 3 1]
  /\ Spec.unknownNeighbours Examples.twoSafe (mkCoordinate 1 1) = 1
  /\ Spec.unknownNeighbours Examples.twoSafe (mkCoordinate 3 1) = 0
  /\ recommendedMove (HintEngine.analyzeBoard Examples.twoSafe)
     = Some (mkCoordinate 3 1).
Proof. repeat split; vm_compute; reflexivity. Qed.

(** C8 (amended): when guaranteed-safe cells exist, the recommended move is
    the first of them with the highest information gain, the number of
    unrevealed, unflagged neighbours plus half the number of revealed
    neighbours: every candidate listed before it has a strictly lower gain
    and every candidate listed after it has a gain that is lower or equal.
    A candidate with more unrevealed neighbours than the selected one has
    fewer revealed neighbours. *)
Theorem analyzeBoard_safe_max_gain (gb : GameBoard) :
  let gain c := ProbabilityCalculator.calculateInformationGain c gb in
  guaranteedSafe (HintEngine.analyzeBoard gb) <> [] ->
  exists before best after,
    guaranteedSafe (HintEngine.analyzeBoard gb) = before ++ best :: after
    /\ recommendedMove (HintEngine.analyzeBoard gb) = Some best
    /\ (forall c, In c before -> (gain c < gain best)%Q)
    /\ (forall c, In c after -> (gain c <= gain best)%Q)
    /\ (forall c, gain c = (inject_Z (Spec.unknownNeighbours gb c)
                            + inject_Z (Spec.revealedNeighbours gb c) * (1 # 2))%Q)
    /\ In best (guaranteedSafe (HintEngine.analyzeBoard gb))
    /\ (forall c, In c (guaranteedSafe (HintEngine.analyzeBoard gb)) ->
          (gain c <= gain best)%Q)
    /\ (forall c, In c (guaranteedSafe (HintEngine.analyzeBoard gb)) ->
          Spec.unknownNeighbours gb best < Spec.unknownNeighbours gb c ->
          Spec.revealedNeighbours gb c < Spec.revealedNeighbours gb best).
Proof.
  intros gain Hne.
  change (guaranteedSafe (HintEngine.analyzeBoard gb))
    with (fst (ConstraintSolver.findGuaranteedMoves gb)) in *.
  destruct (selectBestGuaranteedSafe_first gb _ Hne)
    as (before & best & after & Heq & Hsel & Hb & Ha).
  assert (forall c, In c (fst (ConstraintSolver.findGuaranteedMoves gb)) ->
            (gain c <= gain best)%Q) as Hmax.
  { intros c Hc. rewrite Heq in Hc. apply in_app_or in Hc.
    destruct Hc as [Hc|[<- |Hc]];
      [apply Qlt_le_weak; now apply Hb|apply Qle_refl|now apply Ha]. }
  exists before, best, after. split; [exact Heq|]. split.
  { unfold HintEngine.analyzeBoard. cbn [recommendedMove].
    rewrite getBestMove_safe by exact Hne. rewrite Hsel. reflexivity. }
  split; [exact Hb|]. split; [exact Ha|]. split; [reflexivity|].
  split; [rewrite Heq; apply in_or_app; right; now left|].
  split; [exact Hmax|].
  intros c Hc Hlt. pose proof (gain_compare gb c best (Hmax c Hc)). lia.
Qed.

Lemma analyzeBoard_safe_max_gain_witness :
  let gb := Examples.twoSafe in
  let gain c := ProbabilityCalculator.calculateInformationGain c gb in
  exists before best after,
    guaranteedSafe (HintEngine.analyzeBoard gb) = before ++ best :: after
    /\ recommendedMove (HintEngine.analyzeBoard gb) = Some best
    /\ (forall c, In c before -> (gain c < gain best)%Q)
    /\ (forall c, In c after -> (gain c <= gain best)%Q)
    /\ (forall c, gain c = (inject_Z (Spec.unknownNeighbours gb c)
                            + inject_Z (Spec.revealedNeighbours gb c) * (1 # 2))%Q)
    /\ In best (guaranteedSafe (HintEngine.analyzeBoard gb))
    /\ (forall c, In c (guaranteedSafe (HintEngine.analyzeBoard gb)) ->
          (gain c <= gain best)%Q)
    /\ (forall c, In c (guaranteedSafe (HintEngine.analyzeBoard gb)) ->
          Spec.unknownNeighbours gb best < Spec.unknownNeighbours gb c ->
          Spec.revealedNeighbours gb c < Spec.revealedNeighbours gb best).
Proof.
  apply (analyzeBoard_safe_max_gain Examples.twoSafe).
  vm_compute. discriminate.
Defined.

(** ** The choice among probabilistic moves *)

Lemma insertByPriority_head a l :
  exists h, hd_error (HintEngine.insertByPriority a l) = Some h
            /\ (priority a <= priority h)%Q
            /\ (forall b, hd_error l = Some b -> (priority b <= priority h)%Q)
            /\ (h = a \/ hd_error l = Some h).
Proof.
  destruct l as [|b l]; simpl.
  - exists a. repeat split; auto using Qle_refl. discriminate.
  - destruct (Qle_bool (priority b - priority a) 0) eqn:E; simpl.
    + apply Qle_bool_iff in E. exists a. repeat split; auto using Qle_refl.
      intros b' Hb'. inversion Hb'; subst b'.
      apply (Qplus_le_l _ _ (- priority a)). rewrite Qplus_opp_r. exact E.
    + exists b. repeat split; auto using Qle_refl.
      * apply Qlt_le_weak. apply Qnot_le_lt. intros Hle.
        assert (Qle_bool (priority b - priority a) 0 = true) as E'; [|congruence].
        apply Qle_bool_iff.
        apply (Qplus_le_l _ _ (priority a)). ring_simplify. exact Hle.
      * intros b' Hb'. inversion Hb'; subst. apply Qle_refl.
Qed.

Lemma sortByPriority_head l :
  l <> [] ->
  exists h, hd_error (HintEngine.sortByPriority l) = Some h
            /\ In h l
            /\ forall b, In b l -> (priority b <= priority h)%Q.
Proof.
  induction l as [|a l IH]; [congruence|]. intros _. simpl.
  destruct (insertByPriority_head a (HintEngine.sortByPriority l))
    as (h & Hh & Ha & Hhd & Hor).
  exists h. split; [exact Hh|].
  destruct l as [|a' l'].
  - simpl in *. inversion Hh; subst. split; [now left|].
    intros b [<-|[]]. apply Qle_refl.
  - destruct IH as (h' & Hh' & Hin' & Hmax'); [discriminate|].
    split.
    + destruct Hor as [->|Hor]; [now left|]. right. congruence.
    + intros b [<-|Hb]; [exact Ha|].
      apply Qle_trans with (priority h'); [now apply Hmax'|now apply Hhd].
Qed.

(** What [getBestMove] does when no guaranteed-safe cell exists: it returns
    an entry of the map whose priority, 70 (1 - p) + 3 gain, is maximal. *)
Lemma getBestMove_max_priority gb gm probs :
  fst gm = [] -> probs <> [] ->
  exists r,
    HintEngine.getBestMove gb gm probs = Some r
    /\ In r (map (HintEngine.recommend gb) probs)
    /\ forall e, In e probs -> (priority (HintEngine.recommend gb e) <= priority r)%Q.
Proof.
  intros Hsafe Hne. unfold HintEngine.getBestMove. rewrite Hsafe. simpl.
  destruct probs as [|e0 probs]; [congruence|].
  replace (0 <? map_size (e0 :: probs)) with true
    by (symmetry; apply Z.ltb_lt; unfold map_size; simpl List.length; lia).
  unfold HintEngine.selectBestProbabilisticMove.
  replace (Z.of_nat (List.length (map (HintEngine.recommend gb) (e0 :: probs))) =? 0)
    with false by (symmetry; apply Z.eqb_neq; simpl List.length; lia).
  destruct (sortByPriority_head (map (HintEngine.recommend gb) (e0 :: probs)))
    as (h & Hh & Hin & Hmax); [discriminate|].
  exists h. split; [exact Hh|]. split; [exact Hin|].
  intros e He. apply Hmax. now apply in_map.
Qed.

(** C2, as stated, fails: on [Examples.firstClick] one cell of nine is
    revealed, no guaranteed-safe cell exists and the map is not empty.  The
    lowest probability in the returned map is 1/3, held by the three cells of
    the left column; the engine recommends the centre (1,1), whose
    probability is 2/5, because its information gain 7.5 gives it the
    priority 64.5 against their 61.67 at most. *)
Theorem analyzeBoard_recommends_riskier_cell :
  let a := HintEngine.analyzeBoard Examples.firstClick in
  Board.wf Examples.firstClick = true
  /\ guaranteedSafe a = []
  /\ probabilities a <> []
  /\ recommendedMove a = Some (mkCoordinate 1 1)
  /\ (exists p, Spec.lookupCell (probabilities a) (mkCoordinate 1 1) = Some p
                /\ (p == 2 # 5)%Q)
  /\ Spec.Qmin_of (map snd (probabilities a)) (1 # 3)%Q.
Proof.
  cbv zeta.
  split; [vm_compute; reflexivity|].
  split; [vm_compute; reflexivity|].
  split; [vm_compute; discriminate|].
  split; [vm_compute; reflexivity|].
  split; [eexists; split; [vm_compute; reflexivity|reflexivity]|].
  split.
  - exists (1 # 3)%Q. split; [vm_compute; tauto|reflexivity].
  - intros w Hw. vm_compute in Hw.
    repeat (destruct Hw as [<-|Hw]; [vm_compute; discriminate|]). destruct Hw.
Qed.

(** C2 (amended): when no guaranteed-safe cell exists and the probability map
    is not empty, [getBestMove], and with it [analyzeBoard], recommends an
    entry of the map whose priority score,
    0.7 x 100 x (1 - probability) + 0.3 x 10 x information gain, is the
    highest of the map. *)
Theorem analyzeBoard_recommends_max_priority (gb : GameBoard) :
  let a := HintEngine.analyzeBoard gb in
  guaranteedSafe a = [] -> probabilities a <> [] ->
  exists r k,
    HintEngine.getBestMove gb (ConstraintSolver.findGuaranteedMoves gb) (probabilities a)
    = Some r
    /\ recommendedMove a = Some (coordinate r)
    /\ In (k, probability r) (probabilities a)
    /\ coordinate r = target k
    /\ priority r
       = HintEngine.calculateMovePriority (probability r)
           (ProbabilityCalculator.calculateInformationGain (coordinate r) gb)
    /\ (forall k' p', In (k', p') (probabilities a) ->
          (HintEngine.calculateMovePriority p'
             (ProbabilityCalculator.calculateInformationGain (target k') gb)
           <= priority r)%Q).
Proof.
  cbv zeta. unfold HintEngine.analyzeBoard. cbv zeta.
  cbn [guaranteedSafe probabilities recommendedMove].
  set (adjusted := ProbabilityCalculator.handleEdgeCases gb _).
  intros Hs Hm.
  destruct (getBestMove_max_priority gb (ConstraintSolver.findGuaranteedMoves gb)
              adjusted Hs Hm) as (r & Hr & Hin & Hmax).
  apply in_map_iff in Hin. destruct Hin as ([k p] & <- & Hin).
  exists (HintEngine.recommend gb (k, p)), k. rewrite Hr.
  cbn [HintEngine.recommend coordinate probability priority option_map].
  repeat split; auto.
  intros k' p' Hin'. exact (Hmax _ Hin').
Qed.

Lemma analyzeBoard_recommends_max_priority_witness :
  exists r k,
    HintEngine.getBestMove Examples.firstClick
      (ConstraintSolver.findGuaranteedMoves Examples.firstClick)
      (probabilities (HintEngine.analyzeBoard Examples.firstClick)) = Some r
    /\ recommendedMove (HintEngine.analyzeBoard Examples.firstClick)
       = Some (coordinate r)
    /\ In (k, probability r) (probabilities (HintEngine.analyzeBoard Examples.firstClick))
    /\ coordinate r = target k
    /\ priority r
       = HintEngine.calculateMovePriority (probability r)
           (ProbabilityCalculator.calculateInformationGain (coordinate r)
              Examples.firstClick)
    /\ (forall k' p',
          In (k', p') (probabilities (HintEngine.analyzeBoard Examples.firstClick)) ->
          (HintEngine.calculateMovePriority p'
             (ProbabilityCalculator.calculateInformationGain (target k')
                Examples.firstClick)
           <= priority r)%Q).
Proof.
  apply (analyzeBoard_recommends_max_priority Examples.firstClick).
  - vm_compute. reflexivity.
  - vm_compute. discriminate.
Defined.

(** ** The keys of the probability map *)

Lemma fold_left_ext {A B} (f g : A -> B -> A) l i :
  (forall a b, f a b = g a b) -> fold_left f l i = fold_left g l i.
Proof.
  intros H. revert i. induction l as [|b l IH]; intros i; simpl; [reflexivity|].
  now rewrite H, IH.
Qed.

Lemma calculateConstrainedProbabilities_eq cs cells :
  NoDup (map addr cells) ->
  ProbabilityCalculator.calculateConstrainedProbabilities cs cells
  = map (fun c => (c, marginal cs cells c)) cells.
Proof.
  intros Hnd. unfold ProbabilityCalculator.calculateConstrainedProbabilities.
  rewrite (fold_set_fresh (fun c => c) (fun _ => 0%Q) cells []) by exact Hnd.
  simpl app.
  destruct (Z.of_nat (List.length
              (ProbabilityCalculator.generateValidAssignments cs cells)) =? 0) eqn:E.
  - pose proof (fold_set_overwrite (fun c => c) (fun _ => (1 # 2)%Q)
                  (fun _ => 0%Q) [] cells Hnd) as H.
    etransitivity; [exact H|].
    simpl app. apply map_ext. intros c. unfold marginal. now rewrite E.
  - pose proof (fold_set_overwrite (fun c => c) (fun c => marginal cs cells c)
                  (fun _ => 0%Q) [] cells Hnd) as H.
    etransitivity; [|exact H].
    apply fold_left_ext. intros m c. unfold marginal. now rewrite E.
Qed.

Lemma NoDup_map_filter {A B} (f : A -> B) (p : A -> bool) l :
  NoDup (map f l) -> NoDup (map f (filter p l)).
Proof.
  induction l as [|a l IH]; simpl; [auto|].
  intros H. inversion H as [|? ? Hn Hnd]; subst.
  destruct (p a); simpl; [|auto].
  constructor; [|auto]. intros Hin. apply Hn.
  apply in_map_iff in Hin. destruct Hin as (b & Hb & Hin).
  apply filter_In in Hin. apply in_map_iff. exists b. tauto.
Qed.

Lemma filter_partition {A} (p : A -> bool) l :
  Permutation (filter p l ++ filter (fun a => negb (p a)) l) l.
Proof.
  induction l as [|a l IH]; simpl; [constructor|].
  destruct (p a); simpl.
  - now constructor.
  - symmetry. apply Permutation_cons_app. now symmetry.
Qed.

Lemma NoDup_map_in {A B} (f : A -> B) l :
  NoDup l -> (forall a b, In a l -> In b l -> f a = f b -> a = b) -> NoDup (map f l).
Proof.
  induction l as [|a l IH]; simpl; intros Hnd Hinj; [constructor|].
  inversion Hnd as [|? ? Hn Hnd']; subst. constructor.
  - intros Hin. apply in_map_iff in Hin. destruct Hin as (b & Hb & Hin).
    assert (b = a) by (apply Hinj; auto). now subst.
  - apply IH; auto.
Qed.

Lemma wf_target_NoDup gb :
  Board.wf gb = true -> NoDup (map (fun c => target (coordinates c)) (Board.scan gb)).
Proof.
  intros Hwf. apply NoDup_map_in.
  - exact (NoDup_map_inv _ _ (wf_addr_NoDup gb Hwf)).
  - intros a b Ha Hb E.
    destruct (wf_scan_target gb a Hwf Ha) as (Hata & _).
    destruct (wf_scan_target gb b Hwf Hb) as (Hatb & _).
    rewrite E in Hata. congruence.
Qed.

Lemma unknownCells_target_NoDup gb :
  Board.wf gb = true -> NoDup (map target (unknownCells gb)).
Proof.
  intros Hwf. unfold unknownCells, Board.getUnrevealedCells. rewrite map_map.
  apply NoDup_map_filter, NoDup_map_filter. now apply wf_target_NoDup.
Qed.

Lemma unknownCells_NoDup gb :
  Board.wf gb = true -> NoDup (map addr (unknownCells gb)).
Proof.
  intros Hwf. unfold unknownCells, Board.getUnrevealedCells. rewrite map_map.
  apply NoDup_map_filter, NoDup_map_filter. now apply wf_addr_NoDup.
Qed.

Lemma constrainedCoords_nil gb :
  ConstraintSolver.extractConstraints gb = [] -> constrainedCoords gb = [].
Proof.
  intros E. unfold constrainedCoords, frontierKeys. rewrite E. simpl.
  induction (unknownCells gb); simpl; auto.
Qed.

(** The map computed for a board, entry by entry. *)
Lemma calculateProbabilities_eq gb :
  Board.wf gb = true ->
  ProbabilityCalculator.calculateProbabilities gb
  = map (fun c => (c, marginal (ConstraintSolver.extractConstraints gb)
                              (constrainedCoords gb) c))
        (constrainedCoords gb)
    ++ map (fun c => (c, ProbabilityCalculator.calculateUnconstrainedProbability gb
                           (Z.of_nat (List.length (constrainedCoords gb)))
                           (Z.of_nat (List.length (unconstrainedCoords gb)))))
           (unconstrainedCoords gb).
Proof.
  intros Hwf. pose proof (unknownCells_NoDup gb Hwf) as Hnd.
  assert (NoDup (map addr (constrainedCoords gb ++ unconstrainedCoords gb))) as Hnd2.
  { apply (Permutation_NoDup (l := map addr (unknownCells gb))); [|exact Hnd].
    apply Permutation_map. symmetry. apply filter_partition. }
  assert (NoDup (map addr (constrainedCoords gb))) as Hndc.
  { rewrite map_app in Hnd2. now apply NoDup_app_remove_r in Hnd2. }
  rewrite calculateProbabilities_unfold.
  destruct (Z.of_nat (List.length (unknownCells gb)) =? 0) eqn:E0.
  { apply Z.eqb_eq in E0. destruct (unknownCells gb) eqn:Eu; [|simpl in E0; lia].
    unfold constrainedCoords, unconstrainedCoords. rewrite Eu. reflexivity. }
  cbv zeta.
  set (p1 := if (0 <? Z.of_nat (List.length (constrainedCoords gb)))
                && (0 <? Z.of_nat (List.length (ConstraintSolver.extractConstraints gb)))
             then _ else _).
  assert (p1 = map (fun c => (c, marginal (ConstraintSolver.extractConstraints gb)
                                         (constrainedCoords gb) c))
                   (constrainedCoords gb)) as Ep1.
  { subst p1. destruct (constrainedCoords gb) as [|c0 cc] eqn:Ecc; [reflexivity|].
    destruct (ConstraintSolver.extractConstraints gb) as [|k0 ks] eqn:Ecs.
    { apply constrainedCoords_nil in Ecs. congruence. }
    replace ((0 <? Z.of_nat (List.length (c0 :: cc)))
             && (0 <? Z.of_nat (List.length (k0 :: ks)))) with true
      by (symmetry; apply andb_true_iff; split; apply Z.ltb_lt; simpl List.length; lia).
    rewrite calculateConstrainedProbabilities_eq by exact Hndc.
    apply map_copy. unfold addrs. rewrite map_map. simpl. exact Hndc. }
  rewrite Ep1.
  destruct (unconstrainedCoords gb) as [|u0 uc] eqn:Euc.
  { simpl. now rewrite app_nil_r. }
  replace (0 <? Z.of_nat (List.length (u0 :: uc))) with true
    by (symmetry; apply Z.ltb_lt; simpl List.length; lia).
  apply (fold_set_fresh (fun c => c)).
  unfold addrs. rewrite map_map. simpl map at 1. rewrite <- map_app. exact Hnd2.
Qed.



(** ** Dictionaries and the mine counters *)

Lemma dict_get_set {V} (d : JS.Dict V) k v k' :
  JS.dict_get (JS.dict_set d k v) k'
  = if String.eqb k' k then Some v else JS.dict_get d k'.
Proof.
  induction d as [|[k0 v0] d IH]; simpl.
  - reflexivity.
  - destruct (String.eqb k k0) eqn:E; simpl.
    + apply String.eqb_eq in E. subst k0. destruct (String.eqb k' k); reflexivity.
    + rewrite IH. destruct (String.eqb k' k0) eqn:E0; [|reflexivity].
      apply String.eqb_eq in E0. subst k0.
      destruct (String.eqb k' k) eqn:E1; [|reflexivity].
      apply String.eqb_eq in E1. subst. rewrite String.eqb_refl in E. discriminate.
Qed.

Lemma dict_set_keys {V} (d : JS.Dict V) k v :
  dict_keys (JS.dict_set d k v)
  = if existsb (String.eqb k) (dict_keys d) then dict_keys d else dict_keys d ++ [k].
Proof.
  induction d as [|[k0 v0] d IH]; simpl; [reflexivity|].
  destruct (String.eqb k k0) eqn:E; simpl; [reflexivity|].
  unfold dict_keys in *. rewrite IH.
  destruct (existsb (String.eqb k) (map fst d)); reflexivity.
Qed.

Lemma existsb_eqb_In k l : existsb (String.eqb k) l = true <-> In k l.
Proof.
  rewrite existsb_exists. split.
  - intros (k' & Hin & E). apply String.eqb_eq in E. now subst.
  - intros H. exists k. split; [assumption|apply String.eqb_refl].
Qed.

Lemma dict_set_NoDup {V} (d : JS.Dict V) k v :
  NoDup (dict_keys d) -> NoDup (dict_keys (JS.dict_set d k v)).
Proof.
  intros H. rewrite dict_set_keys.
  destruct (existsb (String.eqb k) (dict_keys d)) eqn:E; [assumption|].
  apply NoDup_app; [assumption|constructor; [intros []|constructor]|].
  intros a Ha [<-|[]]. apply existsb_eqb_In in Ha. congruence.
Qed.

Lemma countEntry_get d e k :
  JS.dict_get (ProbabilityCalculator.countEntry d e) k
  = if String.eqb k (fst e) && snd e
    then option_map (fun n => n + 1) (JS.dict_get d k)
    else JS.dict_get d k.
Proof.
  destruct e as [k0 b]. unfold ProbabilityCalculator.countEntry, JS.dict_has. simpl.
  destruct b; simpl; [|now rewrite andb_false_r].
  rewrite andb_true_r.
  destruct (JS.dict_get d k0) as [n|] eqn:E0.
  - rewrite dict_get_set. destruct (String.eqb k k0) eqn:E; [|reflexivity].
    apply String.eqb_eq in E. subst. now rewrite E0.
  - destruct (String.eqb k k0) eqn:E; [|reflexivity].
    apply String.eqb_eq in E. subst. now rewrite E0.
Qed.

Lemma countEntry_fold a d k :
  JS.dict_get (fold_left ProbabilityCalculator.countEntry a d) k
  = option_map (fun n => n + minesAt k a) (JS.dict_get d k).
Proof.
  revert d. induction a as [|e a IH]; intros d; simpl.
  - unfold minesAt. simpl. destruct (JS.dict_get d k); simpl; [|reflexivity].
    f_equal. lia.
  - rewrite IH, countEntry_get. unfold minesAt. simpl.
    destruct (String.eqb k (fst e) && snd e); simpl;
      destruct (JS.dict_get d k); simpl; try reflexivity.
    f_equal. lia.
Qed.

Lemma countEntry_fold_all (l : list ProbabilityCalculator.MineAssignment) d k :
  JS.dict_get (fold_left (fun d a => fold_left ProbabilityCalculator.countEntry a d) l d) k
  = option_map (fun n => n + fold_right (fun a s => minesAt k a + s) 0 l)
               (JS.dict_get d k).
Proof.
  revert d. induction l as [|a l IH]; intros d; simpl.
  - destruct (JS.dict_get d k); simpl; [|reflexivity]. f_equal. lia.
  - rewrite IH, countEntry_fold.
    destruct (JS.dict_get d k); simpl; [|reflexivity]. f_equal. lia.
Qed.

Lemma mineCounts0_get (cells : list CoordinateRef) d k :
  (forall n, JS.dict_get d k = Some n -> n = 0) ->
  forall n,
    JS.dict_get (fold_left (fun d coord =>
                   JS.dict_set d (ProbabilityCalculator.keyOf coord) 0) cells d) k
    = Some n -> n = 0.
Proof.
  revert d. induction cells as [|c cells IH]; intros d Hd; simpl; [exact Hd|].
  apply IH. intros n. rewrite dict_get_set.
  destruct (String.eqb k (ProbabilityCalculator.keyOf c)); [congruence|apply Hd].
Qed.

Lemma mineCounts0_In (cells : list CoordinateRef) d c :
  In c cells \/ JS.dict_get d (ProbabilityCalculator.keyOf c) <> None ->
  JS.dict_get (fold_left (fun d coord =>
                 JS.dict_set d (ProbabilityCalculator.keyOf coord) 0) cells d)
              (ProbabilityCalculator.keyOf c) <> None.
Proof.
  revert d. induction cells as [|c' cells IH]; intros d H; simpl.
  - destruct H as [[]|H]. exact H.
  - apply IH. destruct H as [[->|H]|H]; [right|now left|right].
    + rewrite dict_get_set, String.eqb_refl. discriminate.
    + rewrite dict_get_set.
      destruct (String.eqb _ _); [discriminate|exact H].
Qed.

(** The counter of a cell after the double loop: the number of valid
    assignments that mark it. *)
Lemma mineCountsOf_get cs cells k :
  JS.dict_get (mineCountsOf cs cells) k = None
  \/ JS.dict_get (mineCountsOf cs cells) k
     = Some (fold_right (fun a s => minesAt k a + s) 0
               (ProbabilityCalculator.generateValidAssignments cs cells)).
Proof.
  unfold mineCountsOf. rewrite countEntry_fold_all.
  set (d0 := fold_left (fun d coord =>
                 JS.dict_set d (ProbabilityCalculator.keyOf coord) 0) cells []).
  assert (forall n, JS.dict_get d0 k = Some n -> n = 0) as H0
      by (apply mineCounts0_get; intros n Hn; discriminate Hn).
  destruct (JS.dict_get d0 k) as [n|] eqn:E; [right|left; reflexivity].
  rewrite (H0 n eq_refl). reflexivity.
Qed.

Lemma mineCountsOf_In cs cells c :
  In c cells ->
  JS.dict_get (mineCountsOf cs cells) (ProbabilityCalculator.keyOf c)
  = Some (fold_right (fun a s => minesAt (ProbabilityCalculator.keyOf c) a + s) 0
            (ProbabilityCalculator.generateValidAssignments cs cells)).
Proof.
  intros Hin. destruct (mineCountsOf_get cs cells (ProbabilityCalculator.keyOf c))
    as [E|E]; [|exact E].
  exfalso. unfold mineCountsOf in E. rewrite countEntry_fold_all in E.
  pose proof (mineCounts0_In cells [] c (or_introl Hin)) as H.
  set (d0 := fold_left (fun d coord =>
                 JS.dict_set d (ProbabilityCalculator.keyOf coord) 0) cells []) in *.
  destruct (JS.dict_get d0 _); [discriminate|congruence].
Qed.

Lemma minesAt_notin k a : ~ In k (dict_keys a) -> minesAt k a = 0.
Proof.
  unfold minesAt. induction a as [|[k0 b] a IH]; simpl; [reflexivity|].
  intros H. destruct (String.eqb k k0) eqn:E.
  - apply String.eqb_eq in E. exfalso. apply H. now left.
  - simpl. apply IH. tauto.
Qed.

Lemma minesAt_wf k a :
  NoDup (dict_keys a) ->
  minesAt k a = if ProbabilityCalculator.isTrue a k then 1 else 0.
Proof.
  unfold ProbabilityCalculator.isTrue.
  induction a as [|[k0 b] a IH]; simpl; [reflexivity|].
  intros H. inversion H as [|? ? Hn Hnd]; subst.
  destruct (String.eqb k k0) eqn:E.
  - apply String.eqb_eq in E. subst k0.
    pose proof (minesAt_notin k a Hn) as H0. unfold minesAt in *. simpl.
    rewrite String.eqb_refl. destruct b; simpl; lia.
  - unfold minesAt in *. simpl. rewrite E. simpl. now apply IH.
Qed.

Lemma assignmentOf_NoDup keys i :
  NoDup (dict_keys (ProbabilityCalculator.assignmentOf keys i)).
Proof.
  unfold ProbabilityCalculator.assignmentOf.
  generalize (JS.range (Z.of_nat (List.length keys))). intros js.
  assert (NoDup (dict_keys (@nil (string * bool)))) as H by constructor.
  revert H. generalize (@nil (string * bool)).
  induction js as [|j js IH]; intros d Hd; simpl; [exact Hd|].
  apply IH. now apply dict_set_NoDup.
Qed.

Lemma In_generateValidAssignments cs cells a :
  In a (ProbabilityCalculator.generateValidAssignments cs cells) ->
  exists i, a = ProbabilityCalculator.assignmentOf (map ProbabilityCalculator.keyOf cells) i
            /\ ProbabilityCalculator.isValidAssignment a cs = true.
Proof.
  unfold ProbabilityCalculator.generateValidAssignments. rewrite in_flat_map.
  intros (i & _ & H).
  destruct (ProbabilityCalculator.isValidAssignment _ cs) eqn:E; [|destruct H].
  destruct H as [<-|[]]. eauto.
Qed.

Lemma mines_total_bound k (l : list ProbabilityCalculator.MineAssignment) :
  (forall a, In a l -> NoDup (dict_keys a)) ->
  0 <= fold_right (fun a s => minesAt k a + s) 0 l <= Z.of_nat (List.length l).
Proof.
  induction l as [|a l IH]; intros H; simpl fold_right; simpl List.length; [lia|].
  rewrite (minesAt_wf k a) by (apply H; now left).
  assert (0 <= fold_right (fun a s => minesAt k a + s) 0 l <= Z.of_nat (List.length l))
    by (apply IH; intros; apply H; now right).
  destruct (ProbabilityCalculator.isTrue a k); lia.
Qed.

(** ** Bounds of the probabilities *)

Lemma inject_Z_le a b : a <= b -> (inject_Z a <= inject_Z b)%Q.
Proof. intros H. rewrite <- Zle_Qle. exact H. Qed.

Lemma inject_Z_lt a b : a < b -> (inject_Z a < inject_Z b)%Q.
Proof. intros H. rewrite <- Zlt_Qlt. exact H. Qed.

Lemma ratio_in_unit a b :
  0 <= a <= b -> 0 < b -> Spec.inUnit (inject_Z a / inject_Z b)%Q.
Proof.
  intros Ha Hb.
  assert (0 < inject_Z b)%Q as Hb' by (apply (inject_Z_lt 0 b); exact Hb).
  split.
  - apply Qle_shift_div_l; [exact Hb'|]. rewrite Qmult_0_l.
    apply (inject_Z_le 0 a). lia.
  - apply Qle_shift_div_r; [exact Hb'|]. rewrite Qmult_1_l.
    apply (inject_Z_le a b). lia.
Qed.

Lemma scale_in_unit (p : Q) (n d : positive) :
  (n <= d)%positive -> Spec.inUnit p -> Spec.inUnit (p * (Z.pos n # d))%Q.
Proof.
  destruct p as [pn pd]. unfold Spec.inUnit, Qle, Qmult. simpl.
  intros Hnd [H0 H1]. split; nia.
Qed.

Lemma marginal_in_unit cs cells c : Spec.inUnit (marginal cs cells c).
Proof.
  unfold marginal.
  destruct (Z.of_nat (List.length
              (ProbabilityCalculator.generateValidAssignments cs cells)) =? 0) eqn:E.
  - split; discriminate.
  - apply Z.eqb_neq in E.
    pose proof (mines_total_bound (ProbabilityCalculator.keyOf c)
                  (ProbabilityCalculator.generateValidAssignments cs cells)) as Hb.
    assert (forall a, In a (ProbabilityCalculator.generateValidAssignments cs cells) ->
                      NoDup (dict_keys a)) as Hwf.
    { intros a Ha. apply In_generateValidAssignments in Ha.
      destruct Ha as (i & -> & _). apply assignmentOf_NoDup. }
    specialize (Hb Hwf).
    apply ratio_in_unit; [|lia].
    destruct (mineCountsOf_get cs cells (ProbabilityCalculator.keyOf c)) as [E'|E'];
      rewrite E'; lia.
Qed.

Lemma calculateConstrainedProbabilities_in_unit cs cells :
  Forall (fun e => Spec.inUnit (snd e))
         (ProbabilityCalculator.calculateConstrainedProbabilities cs cells).
Proof.
  unfold ProbabilityCalculator.calculateConstrainedProbabilities.
  assert (Forall (fun e : CoordinateRef * Q => Spec.inUnit (snd e))
            (fold_left (fun m coord => map_set m coord 0%Q) cells [])) as H0.
  { apply (fold_set_values (fun c => c) (fun _ => 0%Q)); [constructor|].
    intros _ _. split; discriminate. }
  destruct (Z.of_nat (List.length
              (ProbabilityCalculator.generateValidAssignments cs cells)) =? 0) eqn:E.
  - apply (fold_set_values (fun c => c) (fun _ => (1 # 2)%Q)); [exact H0|].
    intros _ _. split; discriminate.
  - pose proof (fold_set_values (fun c => c) (fun c => marginal cs cells c)
                  Spec.inUnit cells _ H0
                  (fun c _ => marginal_in_unit cs cells c)) as H.
    erewrite fold_left_ext; [exact H|].
    intros m c. simpl. unfold marginal. now rewrite E.
Qed.

Lemma calculateUnconstrainedProbability_in_unit gb cc uc :
  0 <= uc ->
  Spec.inUnit (ProbabilityCalculator.calculateUnconstrainedProbability gb cc uc).
Proof.
  intros Huc. unfold ProbabilityCalculator.calculateUnconstrainedProbability.
  destruct (uc =? 0) eqn:E; [split; discriminate|].
  apply Z.eqb_neq in E. cbv zeta.
  match goal with |- context [Qle_bool 1 ?r] => set (ratio := r) end.
  destruct (Qle_bool 1 ratio) eqn:E1; [split; discriminate|].
  split.
  - subst ratio. apply Qle_shift_div_l.
    + apply (inject_Z_lt 0 uc). lia.
    + rewrite Qmult_0_l. apply (inject_Z_le 0). lia.
  - apply Qlt_le_weak. apply Qnot_le_lt. intros H. apply Qle_bool_iff in H. congruence.
Qed.

Lemma calculateProbabilities_in_unit gb :
  Forall (fun e => Spec.inUnit (snd e)) (ProbabilityCalculator.calculateProbabilities gb).
Proof.
  rewrite calculateProbabilities_unfold.
  destruct (Z.of_nat (List.length (unknownCells gb)) =? 0); [constructor|].
  cbv zeta.
  match goal with |- context [if ?b then fold_left ?f ?l ?m else ?m] =>
    assert (Forall (fun e : CoordinateRef * Q => Spec.inUnit (snd e)) m) as H1 end.
  { destruct (_ && _); [|constructor].
    apply (fold_set_values fst snd); [constructor|].
    intros e He.
    pose proof (calculateConstrainedProbabilities_in_unit
                  (ConstraintSolver.extractConstraints gb) (constrainedCoords gb)) as H.
    rewrite Forall_forall in H. now apply H. }
  destruct (0 <? Z.of_nat (List.length (unconstrainedCoords gb))); [|exact H1].
  apply (fold_set_values (fun c => c)); [exact H1|].
  intros _ _. apply calculateUnconstrainedProbability_in_unit. lia.
Qed.

(** C6: every value of the probability map returned by [analyzeBoard] lies
    between 0 and 1, both included. *)
Theorem analyzeBoard_probabilities_in_unit (gb : GameBoard) :
  Forall (fun e => (0 <= snd e /\ snd e <= 1)%Q)
         (probabilities (HintEngine.analyzeBoard gb)).
Proof.
  change (probabilities (HintEngine.analyzeBoard gb))
    with (ProbabilityCalculator.handleEdgeCases gb
            (ProbabilityCalculator.calculateProbabilities gb)).
  rewrite handleEdgeCases_map by apply calculateProbabilities_NoDup.
  pose proof (calculateProbabilities_in_unit gb) as H.
  rewrite Forall_forall in *. intros e He.
  apply in_map_iff in He. destruct He as (e0 & <- & He0).
  specialize (H e0 He0). unfold rescale.
  destruct (ProbabilityCalculator.earlyGame gb); [|exact H].
  destruct (ProbabilityCalculator.isCorner gb _);
    [apply (scale_in_unit _ 8 10); [lia|exact H]|].
  destruct (ProbabilityCalculator.isEdge gb _);
    [apply (scale_in_unit _ 9 10); [lia|exact H]|exact H].
Qed.

(** ** Coordinate keys *)

Lemma Number_numberToString n : JS.Number (JS.numberToString n) = n.
Proof.
  unfold JS.Number, JS.numberToString. rewrite NilZero.isi.
  - apply DecimalZ.of_to.
  - destruct n; simpl; try discriminate.
    intros H. inversion H as [H']. exact (Unsigned.to_uint_nonnil _ H').
  - destruct n; simpl; try discriminate.
    intros H. inversion H as [H']. exact (Unsigned.to_uint_nonnil _ H').
Qed.

Lemma string_of_uint_commaFree d : commaFree (NilEmpty.string_of_uint d).
Proof. induction d; simpl; auto. Qed.

Lemma numberToString_commaFree n : commaFree (JS.numberToString n).
Proof.
  unfold JS.numberToString, NilZero.string_of_int, NilZero.string_of_uint.
  destruct (Z.to_int n) as [d|d]; [|split; [reflexivity|]]; destruct d; simpl; auto;
    repeat split; apply string_of_uint_commaFree.
Qed.

Lemma split_comma_commaFree s : commaFree s -> JS.split_comma s = [s].
Proof.
  induction s as [|c s IH]; simpl; [reflexivity|].
  intros [Hc Hs]. rewrite Hc, IH by exact Hs. reflexivity.
Qed.

Lemma split_comma_app s1 s2 :
  commaFree s1 -> JS.split_comma (s1 ++ String ","%char s2) = s1 :: JS.split_comma s2.
Proof.
  induction s1 as [|c s1 IH]; simpl; [reflexivity|].
  intros [Hc Hs]. rewrite Hc, IH by exact Hs. reflexivity.
Qed.

Lemma stringToCoord_coordToString c :
  ConstraintSolver.stringToCoord (ConstraintSolver.coordToString c) = c.
Proof.
  unfold ConstraintSolver.stringToCoord, ConstraintSolver.coordToString.
  change ("," ++ JS.numberToString (y c))%string
    with (String ","%char (JS.numberToString (y c))).
  rewrite split_comma_app by apply numberToString_commaFree.
  rewrite split_comma_commaFree by apply numberToString_commaFree.
  simpl. rewrite !Number_numberToString. now destruct c.
Qed.

Lemma coordToString_inj c c' :
  ConstraintSolver.coordToString c = ConstraintSolver.coordToString c' -> c = c'.
Proof.
  intros H. rewrite <- (stringToCoord_coordToString c), H.
  apply stringToCoord_coordToString.
Qed.

Lemma keyOf_same r : ProbabilityCalculator.keyOf r = ConstraintSolver.keyOf r.
Proof. reflexivity. Qed.

(** ** Sets of strings *)

Lemma set_has_In s k : JS.set_has s k = true <-> In k s.
Proof. apply existsb_eqb_In. Qed.

Lemma set_add_In s k k' : In k' (JS.set_add s k) <-> In k' s \/ k' = k.
Proof.
  unfold JS.set_add. destruct (JS.set_has s k) eqn:E.
  - apply set_has_In in E. split; [auto|]. intros [H| ->]; assumption.
  - rewrite in_app_iff. simpl. intuition.
Qed.

Lemma set_add_fold_In {A} (f : A -> string) l s k :
  In k (fold_left (fun s a => JS.set_add s (f a)) l s) <-> In k s \/ In k (map f l).
Proof.
  revert s. induction l as [|a l IH]; intros s; simpl; [tauto|].
  rewrite IH, set_add_In. intuition.
Qed.

Lemma set_of_In l k : In k (JS.set_of l) <-> In k l.
Proof.
  unfold JS.set_of.
  pose proof (set_add_fold_In (fun a => a) l [] k) as H.
  rewrite map_id in H. simpl in H.
  rewrite <- (fold_left_ext (fun s a => JS.set_add s a) JS.set_add l [])
    by reflexivity.
  tauto.
Qed.

Lemma set_of_NoDup_eq l : NoDup l -> JS.set_of l = l.
Proof.
  unfold JS.set_of.
  assert (forall s, NoDup (s ++ l) -> fold_left JS.set_add l s = s ++ l) as H.
  { induction l as [|a l IH]; intros s Hs; simpl.
    - now rewrite app_nil_r.
    - unfold JS.set_add at 2. destruct (JS.set_has s a) eqn:E.
      + apply set_has_In in E. apply NoDup_remove_2 in Hs. exfalso. apply Hs.
        apply in_or_app. now left.
      + rewrite IH; rewrite <- app_assoc; [reflexivity|exact Hs]. }
  intros Hl. exact (H [] Hl).
Qed.

(** ** Counting mines on lists of keys *)

Lemma filter_length_zero {A} (p : A -> bool) l :
  List.length (filter p l) = 0%nat -> forall a, In a l -> p a = false.
Proof.
  induction l as [|b l IH]; simpl; [tauto|].
  destruct (p b) eqn:E; simpl; [discriminate|].
  intros H a [<-|Ha]; auto.
Qed.

Lemma filter_length_all {A} (p : A -> bool) l :
  List.length (filter p l) = List.length l -> forall a, In a l -> p a = true.
Proof.
  induction l as [|b l IH]; simpl; [tauto|].
  pose proof (filter_length_le p l) as Hle.
  destruct (p b) eqn:E; simpl; intros H a [<-|Ha]; auto; try lia.
Qed.

Lemma filter_length_perm {A} (p : A -> bool) l l' :
  Permutation l l' -> List.length (filter p l) = List.length (filter p l').
Proof.
  induction 1 as [|a l1 l2 _ IH|a b l1|l1 l2 l3 _ IH1 _ IH2]; simpl; auto.
  - destruct (p a); simpl; auto.
  - destruct (p a), (p b); reflexivity.
  - congruence.
Qed.

Lemma subset_split (K1 K2 : list string) :
  NoDup K1 -> NoDup K2 -> (forall k, In k K1 -> In k K2) ->
  Permutation K2 (K1 ++ filter (fun s => negb (JS.set_has K1 s)) K2).
Proof.
  intros H1 H2 Hsub. apply NoDup_Permutation.
  - exact H2.
  - apply NoDup_app; [exact H1|now apply NoDup_filter|].
    intros k Hk Hk'. apply filter_In in Hk'. destruct Hk' as [_ Hk'].
    apply negb_true_iff in Hk'. apply set_has_In in Hk. congruence.
  - intros k. rewrite in_app_iff, filter_In, negb_true_iff. split.
    + intros Hk. destruct (JS.set_has K1 k) eqn:E; [left; now apply set_has_In|auto].
    + intros [Hk|[Hk _]]; auto.
Qed.

(** ** Neighbourhoods *)

Lemma offsets_NoDup : NoDup Board.offsets.
Proof.
  unfold Board.offsets. simpl.
  repeat constructor; simpl; intuition congruence.
Qed.

Lemma getAdjacentCells_target gb cx cy c :
  Board.wf gb = true -> In c (Board.getAdjacentCells gb cx cy) ->
  exists d, In d Board.offsets
            /\ target (coordinates c) = mkCoordinate (cx + fst d) (cy + snd d).
Proof.
  intros Hwf H. apply In_getAdjacentCells in H. destruct H as (d & Hd & Hx & Hy & Hat).
  exists d. split; [exact Hd|].
  destruct (wf_at gb _ _ Hwf Hx Hy) as (c' & Hat' & Ht). congruence.
Qed.

Lemma getAdjacentCells_target_NoDup gb cx cy :
  Board.wf gb = true ->
  NoDup (map (fun c => target (coordinates c)) (Board.getAdjacentCells gb cx cy)).
Proof.
  intros Hwf. unfold Board.getAdjacentCells.
  pose proof offsets_NoDup as Hnd. revert Hnd.
  assert (forall offs c,
    In c (flat_map (fun d =>
            if Board.isValidCoordinate gb (cx + fst d) (cy + snd d)
            then Board.push_cell gb (cx + fst d) (cy + snd d) else []) offs) ->
    exists d, In d offs
              /\ target (coordinates c) = mkCoordinate (cx + fst d) (cy + snd d)) as Hin.
  { intros offs c H. apply in_flat_map in H. destruct H as (d & Hd & H).
    exists d. split; [exact Hd|].
    destruct (Board.isValidCoordinate gb _ _) eqn:E; [|destruct H].
    apply isValidCoordinate_spec in E. destruct E as [Hx Hy].
    apply In_push_cell in H.
    destruct (wf_at gb _ _ Hwf Hx Hy) as (c' & Hat' & Ht). congruence. }
  induction Board.offsets as [|d offs IH]; intros Hnd; simpl; [constructor|].
  inversion Hnd as [|? ? Hn Hnd']; subst.
  rewrite map_app. apply NoDup_app.
  - destruct (Board.isValidCoordinate gb _ _); [|constructor].
    unfold Board.push_cell. destruct (Board.at_ gb _ _); simpl; repeat constructor; auto.
  - now apply IH.
  - intros t Ht Ht'.
    apply in_map_iff in Ht. destruct Ht as (c & <- & Hc).
    apply in_map_iff in Ht'. destruct Ht' as (c' & E & Hc').
    assert (In c (flat_map (fun d =>
            if Board.isValidCoordinate gb (cx + fst d) (cy + snd d)
            then Board.push_cell gb (cx + fst d) (cy + snd d) else []) [d])) as Hc1
        by (simpl; now rewrite app_nil_r).
    apply Hin in Hc1. destruct Hc1 as (d1 & [<-|[]] & H1).
    apply Hin in Hc'. destruct Hc' as (d2 & Hd2 & H2).
    rewrite H1, H2 in E. inversion E.
    assert (d2 = d) by (destruct d, d2; simpl in *; f_equal; lia).
    subst. contradiction.
Qed.

Lemma affectedCells_keys_NoDup gb c :
  Board.wf gb = true -> In c (ConstraintSolver.extractConstraints gb) ->
  NoDup (map ConstraintSolver.keyOf (affectedCells c)).
Proof.
  intros Hwf Hc. apply In_extractConstraints in Hc.
  destruct Hc as (cell & _ & _ & _ & -> & _). rewrite map_map.
  apply NoDup_map_filter.
  rewrite <- (map_map (fun c => target (coordinates c)) ConstraintSolver.coordToString).
  apply NoDup_map_in.
  - now apply getAdjacentCells_target_NoDup.
  - intros a b _ _. apply coordToString_inj.
Qed.

(** ** Soundness of the deductions *)

Lemma minesOn_keys sigma cells :
  Spec.minesOn sigma cells
  = Z.of_nat (List.length
      (filter (fun s => sigma (ConstraintSolver.stringToCoord s))
              (map ConstraintSolver.keyOf cells))).
Proof.
  unfold Spec.minesOn. f_equal.
  induction cells as [|r cells IH]; simpl; [reflexivity|].
  unfold ConstraintSolver.keyOf at 1. rewrite stringToCoord_coordToString.
  destruct (sigma (target r)); simpl; now rewrite IH.
Qed.

Lemma soundSets_add_safe sigma st (keys : list string) :
  soundSets sigma st ->
  (forall s, In s keys -> sigma (ConstraintSolver.stringToCoord s) = false) ->
  soundSets sigma (fold_left JS.set_add keys (fst st), snd st).
Proof.
  intros [Hs Hm] Hk. split; simpl; [|exact Hm].
  intros s H.
  rewrite (fold_left_ext JS.set_add (fun s a => JS.set_add s ((fun a => a) a)))
    in H by reflexivity.
  apply set_add_fold_In in H. rewrite map_id in H. destruct H; auto.
Qed.

Lemma soundSets_add_mines sigma st (keys : list string) :
  soundSets sigma st ->
  (forall s, In s keys -> sigma (ConstraintSolver.stringToCoord s) = true) ->
  soundSets sigma (fst st, fold_left JS.set_add keys (snd st)).
Proof.
  intros [Hs Hm] Hk. split; simpl; [exact Hs|].
  intros s H.
  rewrite (fold_left_ext JS.set_add (fun s a => JS.set_add s ((fun a => a) a)))
    in H by reflexivity.
  apply set_add_fold_In in H. rewrite map_id in H. destruct H; auto.
Qed.

Lemma set_add_keys_fold (cells : list CoordinateRef) s :
  fold_left (fun s coord => JS.set_add s (ConstraintSolver.keyOf coord)) cells s
  = fold_left JS.set_add (map ConstraintSolver.keyOf cells) s.
Proof.
  revert s. induction cells as [|r cells IH]; intros s; simpl; auto.
Qed.

Lemma simpleRule_sound sigma st c :
  Spec.satisfies sigma c -> soundSets sigma st ->
  soundSets sigma (ConstraintSolver.simpleRule st c).
Proof.
  unfold Spec.satisfies. rewrite minesOn_keys. intros Hsat Hst.
  unfold ConstraintSolver.simpleRule.
  destruct (requiredMines c =? 0) eqn:E0.
  - apply Z.eqb_eq in E0. rewrite set_add_keys_fold.
    apply soundSets_add_safe; [exact Hst|].
    apply filter_length_zero. lia.
  - destruct ((requiredMines c =? Z.of_nat (List.length (affectedCells c)))
              && (0 <? requiredMines c)) eqn:E1; [|exact Hst].
    apply andb_true_iff in E1. destruct E1 as [E1 _]. apply Z.eqb_eq in E1.
    rewrite set_add_keys_fold. apply soundSets_add_mines; [exact Hst|].
    apply filter_length_all. rewrite length_map. lia.
Qed.

Lemma subsetRule_sound sigma constraints st ij :
  (forall c, In c constraints ->
     Spec.satisfies sigma c /\ NoDup (map ConstraintSolver.keyOf (affectedCells c))) ->
  soundSets sigma st ->
  soundSets sigma (ConstraintSolver.subsetRule constraints st ij).
Proof.
  intros Hcs Hst. unfold ConstraintSolver.subsetRule. destruct ij as [i j].
  destruct (i =? j); [exact Hst|].
  destruct (nth_error constraints (Z.to_nat i)) as [c1|] eqn:E1; [|exact Hst].
  destruct (nth_error constraints (Z.to_nat j)) as [c2|] eqn:E2; [|exact Hst].
  apply nth_error_In in E1, E2.
  destruct (Hcs c1 E1) as [Hsat1 Hnd1]. destruct (Hcs c2 E2) as [Hsat2 Hnd2].
  unfold Spec.satisfies in Hsat1, Hsat2. rewrite minesOn_keys in Hsat1, Hsat2.
  rewrite (set_of_NoDup_eq _ Hnd1), (set_of_NoDup_eq _ Hnd2).
  set (K1 := map ConstraintSolver.keyOf (affectedCells c1)) in *.
  set (K2 := map ConstraintSolver.keyOf (affectedCells c2)) in *.
  destruct (ConstraintSolver.isSubset K1 K2) eqn:Esub; [|exact Hst].
  assert (forall k, In k K1 -> In k K2) as Hsub.
  { intros k Hk. unfold ConstraintSolver.isSubset in Esub.
    rewrite forallb_forall in Esub. apply set_has_In. now apply Esub. }
  pose proof (subset_split K1 K2 Hnd1 Hnd2 Hsub) as Hperm.
  set (difference := filter (fun s => negb (JS.set_has K1 s)) K2) in *.
  pose proof (filter_length_perm
                (fun s => sigma (ConstraintSolver.stringToCoord s)) _ _ Hperm) as Hcount.
  rewrite filter_app, length_app in Hcount.
  destruct (requiredMines c2 - requiredMines c1 =? 0) eqn:E0.
  - apply Z.eqb_eq in E0. apply soundSets_add_safe; [exact Hst|].
    apply filter_length_zero. lia.
  - destruct ((requiredMines c2 - requiredMines c1 =? Z.of_nat (List.length difference))
              && (0 <? requiredMines c2 - requiredMines c1)) eqn:E3; [|exact Hst].
    apply andb_true_iff in E3. destruct E3 as [E3 _]. apply Z.eqb_eq in E3.
    apply soundSets_add_mines; [exact Hst|].
    apply filter_length_all. lia.
Qed.

Lemma guaranteedSets_sound sigma constraints :
  (forall c, In c constraints ->
     Spec.satisfies sigma c /\ NoDup (map ConstraintSolver.keyOf (affectedCells c))) ->
  soundSets sigma (ConstraintSolver.guaranteedSets constraints).
Proof.
  intros Hcs. unfold ConstraintSolver.guaranteedSets.
  assert (forall l st, soundSets sigma st ->
            soundSets sigma (fold_left (ConstraintSolver.subsetRule constraints) l st))
    as Hsub.
  { induction l as [|ij l IH]; intros st Hst; simpl; [exact Hst|].
    apply IH. now apply subsetRule_sound. }
  apply Hsub.
  assert (forall l st, (forall c, In c l -> In c constraints) -> soundSets sigma st ->
            soundSets sigma (fold_left ConstraintSolver.simpleRule l st)) as Hsimple.
  { induction l as [|c l IH]; intros st Hl Hst; simpl; [exact Hst|].
    apply IH; [intros; apply Hl; now right|].
    apply simpleRule_sound; [|exact Hst]. apply Hcs, Hl. now left. }
  apply Hsimple; [auto|]. split; intros s [].
Qed.

(** C1: on every board, whatever complete mine assignment satisfies all the
    extracted constraints, it puts no mine on a cell of [guaranteedSafe] and
    a mine on every cell of [guaranteedMines]: the zero rule, the saturation
    rule and the subset rule are sound. *)
Theorem findGuaranteedMoves_sound (gb : GameBoard) (sigma : Coordinate -> bool) :
  Board.wf gb = true ->
  (forall c, In c (ConstraintSolver.extractConstraints gb) -> Spec.satisfies sigma c) ->
  (forall p, In p (fst (ConstraintSolver.findGuaranteedMoves gb)) -> sigma p = false)
  /\ (forall p, In p (snd (ConstraintSolver.findGuaranteedMoves gb)) -> sigma p = true).
Proof.
  intros Hwf Hsat.
  destruct (guaranteedSets_sound sigma (ConstraintSolver.extractConstraints gb))
    as [Hs Hm].
  { intros c Hc. split; [now apply Hsat|now apply (affectedCells_keys_NoDup gb)]. }
  unfold ConstraintSolver.findGuaranteedMoves. simpl. split; intros p Hp;
    apply in_map_iff in Hp; destruct Hp as (s & <- & Hin); auto.
Qed.

(** When the constraints contradict each other no assignment satisfies them
    and the guarantee is empty: on [Examples.twoComponents], where the player
    has flagged a safe cell, (2,0) is reported both safe and mined. *)
Example contradictory_constraints :
  ConstraintSolver.findGuaranteedMoves Examples.twoComponents
  = ([mkCoordinate 2 0; mkCoordinate 6 0], [mkCoordinate 2 0])
  /\ ConstraintSolver.validateConstraints
       (ConstraintSolver.extractConstraints Examples.twoComponents) = true.
Proof. split; vm_compute; reflexivity. Qed.

(** On [Examples.subsetBoard] the true layout, one mine at (0,0), satisfies
    the two constraints; the engine reports (2,0) safe and (0,0) mined. *)
Lemma findGuaranteedMoves_sound_witness :
  ConstraintSolver.findGuaranteedMoves Examples.subsetBoard
  = ([mkCoordinate 2 0], [mkCoordinate 0 0])
  /\ (forall p, In p (fst (ConstraintSolver.findGuaranteedMoves Examples.subsetBoard)) ->
                ((x p =? 0) && (y p =? 0)) = false)
  /\ (forall p, In p (snd (ConstraintSolver.findGuaranteedMoves Examples.subsetBoard)) ->
                ((x p =? 0) && (y p =? 0)) = true).
Proof.
  split; [vm_compute; reflexivity|].
  apply (findGuaranteedMoves_sound Examples.subsetBoard
           (fun p => (x p =? 0) && (y p =? 0))).
  - vm_compute. reflexivity.
  - intros c Hc. vm_compute in Hc.
    destruct Hc as [<-|[<-|[]]]; vm_compute; reflexivity.
Defined.

(** ** The enumeration of assignments *)

Lemma toInt32_small n : - 2 ^ 31 <= n < 2 ^ 31 -> JS.toInt32 n = n.
Proof.
  unfold JS.toInt32. change (2 ^ 31) with 2147483648. change (2 ^ 32) with 4294967296.
  intros H. rewrite Z.mod_small; lia.
Qed.

Lemma land_pow2 i j :
  0 <= j -> Z.land i (2 ^ j) = if Z.testbit i j then 2 ^ j else 0.
Proof.
  intros Hj. apply Z.bits_inj'. intros n Hn.
  rewrite Z.land_spec, Z.pow2_bits_eqb by exact Hj.
  destruct (Z.eqb_spec j n) as [->|Hne].
  - rewrite andb_true_r. destruct (Z.testbit i n) eqn:E.
    + now rewrite Z.pow2_bits_true.
    + now rewrite Z.bits_0.
  - rewrite andb_false_r. destruct (Z.testbit i j).
    + rewrite Z.pow2_bits_false; [reflexivity|exact Hne].
    + now rewrite Z.bits_0.
Qed.

Lemma isMineBit_testbit i j :
  0 <= i < 2 ^ 31 -> 0 <= j < 31 ->
  ProbabilityCalculator.isMineBit i j = Z.testbit i j.
Proof.
  intros Hi Hj. unfold ProbabilityCalculator.isMineBit, JS.band, JS.shl.
  assert (0 < 2 ^ j < 2 ^ 31) as Hp.
  { split; [apply Z.pow_pos_nonneg; lia|apply Z.pow_lt_mono_r; lia]. }
  rewrite (toInt32_small 1) by (change (2 ^ 31) with 2147483648; lia).
  rewrite (Z.mod_small j 32) by lia.
  rewrite Z.shiftl_1_l.
  rewrite !(toInt32_small (2 ^ j)) by lia.
  rewrite (toInt32_small i) by lia.
  rewrite land_pow2 by lia.
  destruct (Z.testbit i j); simpl.
  - destruct (Z.eqb_spec (2 ^ j) 0); [lia|reflexivity].
  - reflexivity.
Qed.

Lemma dict_set_fold_fresh {A V} (kf : A -> string) (vf : A -> V) l (d : JS.Dict V) :
  NoDup (dict_keys d ++ map kf l) ->
  fold_left (fun d a => JS.dict_set d (kf a) (vf a)) l d
  = d ++ map (fun a => (kf a, vf a)) l.
Proof.
  revert d. induction l as [|a l IH]; intros d H; simpl.
  - now rewrite app_nil_r.
  - assert (JS.dict_set d (kf a) (vf a) = d ++ [(kf a, vf a)]) as E.
    { assert (~ In (kf a) (dict_keys d)) as Hn.
      { intros Hin. apply NoDup_remove_2 in H. apply H. apply in_or_app. now left. }
      clear -Hn. induction d as [|[k0 v0] d IHd]; simpl; [reflexivity|].
      destruct (String.eqb (kf a) k0) eqn:E.
      - apply String.eqb_eq in E. exfalso. apply Hn. now left.
      - rewrite IHd; [reflexivity|]. intros Hin. apply Hn. now right. }
    rewrite E, IH.
    + now rewrite <- app_assoc.
    + unfold dict_keys in *. rewrite map_app, <- app_assoc. exact H.
Qed.

Lemma map_nth_seq {A} (l : list A) d :
  map (fun k => nth k l d) (seq 0 (List.length l)) = l.
Proof.
  induction l as [|a l IH]; simpl; [reflexivity|].
  f_equal. rewrite <- seq_shift, map_map. exact IH.
Qed.

Lemma assignmentOf_eq keys i :
  NoDup keys ->
  ProbabilityCalculator.assignmentOf keys i
  = map (fun k => (nth k keys EmptyString,
                   ProbabilityCalculator.isMineBit i (Z.of_nat k)))
        (seq 0 (List.length keys)).
Proof.
  intros Hnd. unfold ProbabilityCalculator.assignmentOf, JS.range.
  rewrite Nat2Z.id.
  rewrite (dict_set_fold_fresh (fun j => nth (Z.to_nat j) keys EmptyString)
             (fun j => ProbabilityCalculator.isMineBit i j)).
  - simpl. rewrite map_map. apply map_ext. intros k. now rewrite Nat2Z.id.
  - simpl. rewrite map_map.
    rewrite (map_ext _ (fun k => nth k keys EmptyString))
      by (intros k; now rewrite Nat2Z.id).
    now rewrite map_nth_seq.
Qed.

Lemma bitsAssign_eq keys i :
  map (fun k => (nth k keys EmptyString, Z.testbit i (Z.of_nat k)))
      (seq 0 (List.length keys))
  = bitsAssign keys i.
Proof.
  revert i. induction keys as [|k0 keys IH]; intros i; [reflexivity|].
  cbn [List.length seq map bitsAssign]. f_equal.
  rewrite <- seq_shift, map_map. rewrite <- IH. apply map_ext. intros k.
  cbn [nth]. f_equal. rewrite Nat2Z.inj_succ.
  rewrite Z.div2_spec, Z.shiftr_spec by lia. reflexivity.
Qed.

Lemma assignmentOf_bits keys i :
  NoDup keys -> (List.length keys <= 31)%nat -> 0 <= i < 2 ^ 31 ->
  ProbabilityCalculator.assignmentOf keys i = bitsAssign keys i.
Proof.
  intros Hnd Hlen Hi. rewrite assignmentOf_eq by exact Hnd.
  rewrite <- bitsAssign_eq. apply map_ext_in. intros k Hk. apply in_seq in Hk.
  f_equal. apply isMineBit_testbit; lia.
Qed.

Lemma seq_double {A} (f : nat -> A) m :
  map f (seq 0 (2 * m)) = flat_map (fun k => [f (2 * k)%nat; f (2 * k + 1)%nat]) (seq 0 m).
Proof.
  induction m as [|m IH]; [reflexivity|].
  replace (2 * S m)%nat with (S (S (2 * m))) by lia.
  rewrite !seq_S, !map_app, flat_map_app, <- IH. simpl.
  rewrite <- app_assoc. simpl. repeat f_equal; lia.
Qed.

Lemma flat_map_map_comp {A B C} (g : B -> list C) (h : A -> B) l :
  flat_map g (map h l) = flat_map (fun a => g (h a)) l.
Proof.
  induction l as [|a l IH]; simpl; [reflexivity|]. now rewrite IH.
Qed.

Lemma allAssignments_eq keys :
  map (bitsAssign keys) (JS.range (2 ^ Z.of_nat (List.length keys)))
  = allAssignments keys.
Proof.
  induction keys as [|k keys IH]; [reflexivity|].
  unfold JS.range in *. rewrite map_map in *.
  cbn [allAssignments List.length]. rewrite <- IH.
  rewrite Nat2Z.inj_succ, Z.pow_succ_r by lia.
  rewrite Z2Nat.inj_mul by (try apply Z.pow_nonneg; lia).
  change (Z.to_nat 2) with 2%nat.
  rewrite seq_double, flat_map_map_comp.
  apply flat_map_ext. intros m. cbn [bitsAssign].
  replace (Z.odd (Z.of_nat (2 * m))) with false
    by (rewrite Nat2Z.inj_mul; symmetry; rewrite Z.odd_mul; reflexivity).
  replace (Z.odd (Z.of_nat (2 * m + 1))) with true
    by (rewrite Nat2Z.inj_add, Nat2Z.inj_mul; symmetry;
        rewrite Z.odd_add, Z.odd_mul; reflexivity).
  replace (Z.div2 (Z.of_nat (2 * m))) with (Z.of_nat m)
    by (rewrite Z.div2_div; apply Z.div_unique with 0; lia).
  replace (Z.div2 (Z.of_nat (2 * m + 1))) with (Z.of_nat m)
    by (rewrite Z.div2_div; apply Z.div_unique with 1; lia).
  reflexivity.
Qed.

Lemma flat_map_filter {A B} (h : A -> B) (P : B -> bool) l :
  flat_map (fun i => if P (h i) then [h i] else []) l = filter P (map h l).
Proof.
  induction l as [|a l IH]; simpl; [reflexivity|].
  rewrite IH. destruct (P (h a)); reflexivity.
Qed.

(** Up to 19 cells the cap of 1000000 combinations is not reached: the
    generator filters the complete enumeration. *)
Lemma generateValidAssignments_eq cs cells :
  NoDup (map ProbabilityCalculator.keyOf cells) -> (List.length cells <= 19)%nat ->
  ProbabilityCalculator.generateValidAssignments cs cells
  = filter (fun a => ProbabilityCalculator.isValidAssignment a cs)
           (allAssignments (map ProbabilityCalculator.keyOf cells)).
Proof.
  intros Hnd Hlen. unfold ProbabilityCalculator.generateValidAssignments.
  assert (2 ^ Z.of_nat (List.length cells) <= 2 ^ 19) as Hpow
      by (apply Z.pow_le_mono_r; lia).
  change (2 ^ 19) with 524288 in Hpow.
  rewrite Z.min_l by lia.
  rewrite (flat_map_filter
             (ProbabilityCalculator.assignmentOf (map ProbabilityCalculator.keyOf cells))
             (fun a => ProbabilityCalculator.isValidAssignment a cs)).
  f_equal. rewrite <- allAssignments_eq, length_map.
  apply map_ext_in. intros i Hi. apply In_range in Hi.
  apply assignmentOf_bits; [exact Hnd|rewrite length_map; lia|].
  change (2 ^ 31) with 2147483648. lia.
Qed.

Lemma allAssignments_keys keys a : In a (allAssignments keys) -> dict_keys a = keys.
Proof.
  revert a. induction keys as [|k keys IH]; intros a; simpl.
  - intros [<-|[]]. reflexivity.
  - rewrite in_flat_map. intros (a' & Ha' & [<-|[<-|[]]]);
      unfold dict_keys in *; simpl; f_equal; now apply IH.
Qed.

(** ** Counting over independent components *)

Lemma countIf_ext {A} (P Q : A -> bool) l :
  (forall a, In a l -> P a = Q a) -> countIf P l = countIf Q l.
Proof.
  intros H. unfold countIf. f_equal. f_equal. now apply filter_ext_in.
Qed.

Lemma countIf_pairs {A B} (f g : A -> B) (P : B -> bool) l :
  countIf P (flat_map (fun a => [f a; g a]) l)
  = countIf (fun a => P (f a)) l + countIf (fun a => P (g a)) l.
Proof.
  unfold countIf. rewrite <- Nat2Z.inj_add. f_equal.
  induction l as [|a l IH]; simpl; [reflexivity|].
  destruct (P (f a)), (P (g a)); simpl; lia.
Qed.

Lemma countIf_filter {A} (P Q : A -> bool) l :
  countIf P (filter Q l) = countIf (fun a => Q a && P a) l.
Proof.
  unfold countIf. f_equal. f_equal.
  induction l as [|a l IH]; simpl; [reflexivity|].
  destruct (Q a); simpl; [destruct (P a); simpl; now rewrite IH|exact IH].
Qed.

Lemma isTrue_cons k b a k' :
  ProbabilityCalculator.isTrue ((k, b) :: a) k'
  = if String.eqb k' k then b else ProbabilityCalculator.isTrue a k'.
Proof.
  unfold ProbabilityCalculator.isTrue. simpl.
  destruct (String.eqb k' k); [destruct b|]; reflexivity.
Qed.

Lemma agreeOn_cons sel k b a a' :
  agreeOn sel a a' -> agreeOn sel ((k, b) :: a) ((k, b) :: a').
Proof.
  intros H k' Hk'. rewrite !isTrue_cons. destruct (String.eqb k' k); auto.
Qed.

Lemma agreeOn_drop sel k b a : sel k = false -> agreeOn sel ((k, b) :: a) a.
Proof.
  intros Hk k' Hk'. rewrite isTrue_cons.
  destruct (String.eqb_spec k' k) as [->|_]; [congruence|reflexivity].
Qed.

Lemma countIf_independent (sel : string -> bool) keys :
  forall P1 P2,
    readsOnly sel P1 -> readsOnly (fun k => negb (sel k)) P2 ->
    countIf (fun a => P1 a && P2 a) (allAssignments keys)
    = countIf P1 (allAssignments (filter sel keys))
      * countIf P2 (allAssignments (filter (fun k => negb (sel k)) keys)).
Proof.
  induction keys as [|k keys IH]; intros P1 P2 H1 H2.
  - unfold countIf. simpl. destruct (P1 []), (P2 []); reflexivity.
  - cbn [allAssignments]. rewrite countIf_pairs. cbn [filter].
    unfold ProbabilityCalculator.MineAssignment, JS.Dict in *.
    destruct (sel k) eqn:Ek; cbn [negb allAssignments].
    + rewrite countIf_pairs.
      rewrite (countIf_ext (fun a => P1 ((k, false) :: a) && P2 ((k, false) :: a))
                           (fun a => P1 ((k, false) :: a) && P2 a))
        by (intros a _; f_equal; apply H2, agreeOn_drop; now rewrite Ek).
      rewrite (countIf_ext (fun a => P1 ((k, true) :: a) && P2 ((k, true) :: a))
                           (fun a => P1 ((k, true) :: a) && P2 a))
        by (intros a _; f_equal; apply H2, agreeOn_drop; now rewrite Ek).
      rewrite (IH (fun a => P1 ((k, false) :: a)) P2),
              (IH (fun a => P1 ((k, true) :: a)) P2); auto;
        try (intros a a' Ha; apply H1; now apply agreeOn_cons).
      lia.
    + rewrite countIf_pairs.
      rewrite (countIf_ext (fun a => P1 ((k, false) :: a) && P2 ((k, false) :: a))
                           (fun a => P1 a && P2 ((k, false) :: a)))
        by (intros a _; f_equal; apply H1, agreeOn_drop; exact Ek).
      rewrite (countIf_ext (fun a => P1 ((k, true) :: a) && P2 ((k, true) :: a))
                           (fun a => P1 a && P2 ((k, true) :: a)))
        by (intros a _; f_equal; apply H1, agreeOn_drop; exact Ek).
      rewrite (IH P1 (fun a => P2 ((k, false) :: a))),
              (IH P1 (fun a => P2 ((k, true) :: a))); auto;
        try (intros a a' Ha; apply H2; now apply agreeOn_cons).
      lia.
Qed.

Lemma forallb_ext_in {A} (f g : A -> bool) l :
  (forall a, In a l -> f a = g a) -> forallb f l = forallb g l.
Proof.
  induction l as [|a l IH]; simpl; intros H; [reflexivity|].
  rewrite H by now left. rewrite IH; [reflexivity|]. intros; apply H; now right.
Qed.

Lemma isValidAssignment_readsOnly sel cs :
  (forall c r, In c cs -> In r (affectedCells c) ->
               sel (ProbabilityCalculator.keyOf r) = true) ->
  readsOnly sel (fun a => ProbabilityCalculator.isValidAssignment a cs).
Proof.
  intros Hsel a a' Hagree. unfold ProbabilityCalculator.isValidAssignment.
  apply forallb_ext_in. intros c Hc. f_equal.
  specialize (Hsel c). generalize 0.
  induction (affectedCells c) as [|r rs IH]; intros n; simpl; [reflexivity|].
  rewrite (Hagree (ProbabilityCalculator.keyOf r)) by (apply Hsel; [exact Hc|now left]).
  apply IH. intros r' Hc' Hr'. apply Hsel; [exact Hc|now right].
Qed.

Lemma forallb_perm {A} (f : A -> bool) l l' :
  Permutation l l' -> forallb f l = forallb f l'.
Proof.
  induction 1 as [|a l1 l2 _ IH|a b l1|l1 l2 l3 _ IH1 _ IH2]; simpl; auto.
  - now rewrite IH.
  - destruct (f a), (f b); reflexivity.
  - congruence.
Qed.

Lemma isValidAssignment_split a cs cs1 cs2 :
  Permutation cs (cs1 ++ cs2) ->
  ProbabilityCalculator.isValidAssignment a cs
  = ProbabilityCalculator.isValidAssignment a cs1
    && ProbabilityCalculator.isValidAssignment a cs2.
Proof.
  intros H. unfold ProbabilityCalculator.isValidAssignment.
  rewrite (forallb_perm _ _ _ H). apply forallb_app.
Qed.

Lemma mines_total_count k (l : list ProbabilityCalculator.MineAssignment) :
  (forall a, In a l -> NoDup (dict_keys a)) ->
  fold_right (fun a s => minesAt k a + s) 0 l
  = countIf (fun a => ProbabilityCalculator.isTrue a k) l.
Proof.
  unfold countIf. induction l as [|a l IH]; intros H; [reflexivity|].
  cbn [fold_right filter].
  rewrite (minesAt_wf k a) by (apply H; now left).
  rewrite IH by (intros; apply H; now right).
  destruct (ProbabilityCalculator.isTrue a k); cbn [List.length];
    rewrite ?Nat2Z.inj_succ; lia.
Qed.

(** The value stored for a frontier cell, by counting: the share of the valid
    assignments that mark it, or 0.5 when there is none. *)
Lemma marginal_closed cs cells c :
  NoDup (map ProbabilityCalculator.keyOf cells) -> (List.length cells <= 19)%nat ->
  In c cells ->
  let K := map ProbabilityCalculator.keyOf cells in
  let V := countIf (fun a => ProbabilityCalculator.isValidAssignment a cs)
                   (allAssignments K) in
  let M := countIf (fun a => ProbabilityCalculator.isValidAssignment a cs
                             && ProbabilityCalculator.isTrue a
                                  (ProbabilityCalculator.keyOf c))
                   (allAssignments K) in
  marginal cs cells c = if V =? 0 then (1 # 2)%Q else (inject_Z M / inject_Z V)%Q.
Proof.
  intros Hnd Hlen Hin K V M. unfold marginal.
  rewrite (mineCountsOf_In cs cells c Hin).
  rewrite (generateValidAssignments_eq cs cells Hnd Hlen).
  fold K. change (Z.of_nat (List.length (filter
             (fun a => ProbabilityCalculator.isValidAssignment a cs) (allAssignments K))))
    with V.
  destruct (V =? 0); [reflexivity|].
  rewrite mines_total_count.
  - rewrite countIf_filter. reflexivity.
  - intros a Ha. apply filter_In in Ha. destruct Ha as [Ha _].
    apply allAssignments_keys in Ha. rewrite Ha. exact Hnd.
Qed.

Lemma filter_map_comm {A B} (f : A -> B) (p : B -> bool) l :
  filter p (map f l) = map f (filter (fun a => p (f a)) l).
Proof.
  induction l as [|a l IH]; simpl; [reflexivity|].
  destruct (p (f a)); simpl; now rewrite IH.
Qed.

Lemma countIf_nonneg {A} (P : A -> bool) l : 0 <= countIf P l.
Proof. unfold countIf. lia. Qed.

Lemma ratio_cancel m n d :
  n <> 0 -> d <> 0 ->
  (inject_Z (m * d) / inject_Z (n * d) == inject_Z m / inject_Z n)%Q.
Proof.
  intros Hn Hd. rewrite !inject_Z_mult.
  assert (~ inject_Z n == 0)%Q as Hn'.
  { intros H. apply Hn. unfold Qeq in H. simpl in H. lia. }
  assert (~ inject_Z d == 0)%Q as Hd'.
  { intros H. apply Hd. unfold Qeq in H. simpl in H. lia. }
  field. split; assumption.
Qed.

(** One half of the factorisation: the cells selected by [sel]. *)
Lemma marginal_factor (sel : string -> bool) cs cs1 cs2 cells c :
  Permutation cs (cs1 ++ cs2) ->
  (forall k r, In k cs1 -> In r (affectedCells k) ->
               sel (ProbabilityCalculator.keyOf r) = true) ->
  (forall k r, In k cs2 -> In r (affectedCells k) ->
               negb (sel (ProbabilityCalculator.keyOf r)) = true) ->
  NoDup (map ProbabilityCalculator.keyOf cells) -> (List.length cells <= 19)%nat ->
  In c cells -> sel (ProbabilityCalculator.keyOf c) = true ->
  ProbabilityCalculator.generateValidAssignments cs2
    (filter (fun r => negb (sel (ProbabilityCalculator.keyOf r))) cells) <> [] ->
  (marginal cs cells c
   == marginal cs1 (filter (fun r => sel (ProbabilityCalculator.keyOf r)) cells) c)%Q.
Proof.
  intros Hperm H1 H2 Hnd Hlen Hin Hsel Hne2.
  set (cells1 := filter (fun r => sel (ProbabilityCalculator.keyOf r)) cells) in *.
  set (cells2 := filter (fun r => negb (sel (ProbabilityCalculator.keyOf r))) cells) in *.
  assert (NoDup (map ProbabilityCalculator.keyOf cells1)) as Hnd1
      by (apply NoDup_map_filter; exact Hnd).
  assert (NoDup (map ProbabilityCalculator.keyOf cells2)) as Hnd2
      by (apply NoDup_map_filter; exact Hnd).
  assert (List.length cells1 <= 19)%nat as Hlen1
      by (pose proof (filter_length_le (fun r => sel (ProbabilityCalculator.keyOf r)) cells);
          unfold cells1; lia).
  assert (List.length cells2 <= 19)%nat as Hlen2
      by (pose proof (filter_length_le
                        (fun r => negb (sel (ProbabilityCalculator.keyOf r))) cells);
          unfold cells2; lia).
  assert (In c cells1) as Hin1 by (apply filter_In; auto).
  rewrite (marginal_closed cs cells c Hnd Hlen Hin).
  rewrite (marginal_closed cs1 cells1 c Hnd1 Hlen1 Hin1).
  cbv zeta.
  set (K := map ProbabilityCalculator.keyOf cells).
  assert (map ProbabilityCalculator.keyOf cells1 = filter sel K) as EK1
      by (unfold cells1, K; now rewrite filter_map_comm).
  assert (map ProbabilityCalculator.keyOf cells2 = filter (fun k => negb (sel k)) K)
    as EK2 by (unfold cells2, K; now rewrite filter_map_comm).
  rewrite EK1.
  set (v1 := fun a => ProbabilityCalculator.isValidAssignment a cs1).
  set (v2 := fun a => ProbabilityCalculator.isValidAssignment a cs2).
  set (t := fun a => ProbabilityCalculator.isTrue a (ProbabilityCalculator.keyOf c)).
  assert (readsOnly sel v1) as R1 by (apply isValidAssignment_readsOnly; exact H1).
  assert (readsOnly (fun k => negb (sel k)) v2) as R2
      by (apply (isValidAssignment_readsOnly (fun k => negb (sel k))); exact H2).
  assert (readsOnly sel (fun a => v1 a && t a)) as R1t.
  { intros a a' Ha. rewrite (R1 a a' Ha). unfold t. now rewrite (Ha _ Hsel). }
  set (n2 := countIf v2 (allAssignments (filter (fun k => negb (sel k)) K))).
  assert (n2 <> 0) as Hn2.
  { unfold n2. rewrite <- EK2. intros E. apply Hne2.
    rewrite (generateValidAssignments_eq cs2 cells2 Hnd2 Hlen2).
    unfold countIf in E. fold v2.
    destruct (filter v2 _); [reflexivity|simpl in E; lia]. }
  assert (countIf (fun a => ProbabilityCalculator.isValidAssignment a cs) (allAssignments K)
          = countIf v1 (allAssignments (filter sel K)) * n2) as EV.
  { unfold n2. rewrite <- (countIf_independent sel K v1 v2 R1 R2).
    apply countIf_ext. intros a _. now apply isValidAssignment_split. }
  assert (countIf (fun a => ProbabilityCalculator.isValidAssignment a cs
                            && ProbabilityCalculator.isTrue a
                                 (ProbabilityCalculator.keyOf c))
                  (allAssignments K)
          = countIf (fun a => v1 a && t a) (allAssignments (filter sel K)) * n2) as EM.
  { unfold n2. rewrite <- (countIf_independent sel K (fun a => v1 a && t a) v2 R1t R2).
    apply countIf_ext. intros a _.
    rewrite (isValidAssignment_split a cs cs1 cs2 Hperm).
    fold (v1 a) (v2 a) (t a).
    destruct (v1 a), (v2 a), (t a); reflexivity. }
  rewrite EV, EM.
  change (fun a : ProbabilityCalculator.MineAssignment =>
            ProbabilityCalculator.isValidAssignment a cs1
            && ProbabilityCalculator.isTrue a (ProbabilityCalculator.keyOf c))
    with (fun a => v1 a && t a).
  set (n1 := countIf v1 (allAssignments (filter sel K))).
  set (m1 := countIf (fun a => v1 a && t a) (allAssignments (filter sel K))).
  destruct (n1 =? 0) eqn:E1.
  - apply Z.eqb_eq in E1. rewrite E1. simpl. reflexivity.
  - apply Z.eqb_neq in E1.
    replace (n1 * n2 =? 0) with false by (symmetry; apply Z.eqb_neq; nia).
    now apply ratio_cancel.
Qed.

Lemma calculateConstrainedProbabilities_get cs cells c :
  NoDup (map addr cells) -> In c cells ->
  map_get (ProbabilityCalculator.calculateConstrainedProbabilities cs cells) c
  = Some (marginal cs cells c).
Proof.
  intros Hnd Hin. rewrite calculateConstrainedProbabilities_eq by exact Hnd.
  apply In_map_get.
  - unfold addrs. rewrite map_map. exact Hnd.
  - apply in_map_iff. exists c. auto.
Qed.

(** C7, as stated, fails: on [Examples.twoComponents] the constraints of
    (1,0) and (3,0) bear on (2,0) alone and contradict each other, the
    constraint of (5,0) bears on (6,0) alone and requires no mine.  The
    joint enumeration finds no valid assignment and stores 0.5 for (6,0);
    the enumeration of the second component alone stores 0. *)
Lemma factorization_counterexample :
  let gb := Examples.twoComponents in
  let cs := ConstraintSolver.extractConstraints gb in
  let cells := constrainedCoords gb in
  let sel := fun k => String.eqb k "2,0" in
  let cs1 := firstn 2 cs in
  let cs2 := skipn 2 cs in
  let cells2 := filter (fun r => negb (sel (ProbabilityCalculator.keyOf r))) cells in
  Board.wf gb = true
  /\ (forall k r, In k cs1 -> In r (affectedCells k) ->
                  sel (ProbabilityCalculator.keyOf r) = true)
  /\ (forall k r, In k cs2 -> In r (affectedCells k) ->
                  sel (ProbabilityCalculator.keyOf r) = false)
  /\ map_get (ProbabilityCalculator.calculateConstrainedProbabilities cs cells)
             (mkRef 6 (mkCoordinate 6 0)) = Some (1 # 2)%Q
  /\ map_get (ProbabilityCalculator.calculateConstrainedProbabilities cs2 cells2)
             (mkRef 6 (mkCoordinate 6 0)) = Some 0%Q
  /\ ~ (1 # 2 == 0)%Q.
Proof.
  cbv zeta. split; [vm_compute; reflexivity|].
  split.
  { intros k r Hk Hr. vm_compute in Hk.
    destruct Hk as [<-|[<-|[]]]; vm_compute in Hr; destruct Hr as [<-|[]];
      vm_compute; reflexivity. }
  split.
  { intros k r Hk Hr. vm_compute in Hk.
    destruct Hk as [<-|[]]; vm_compute in Hr; destruct Hr as [<-|[]];
      vm_compute; reflexivity. }
  split; [vm_compute; reflexivity|].
  split; [vm_compute; reflexivity|].
  discriminate.
Qed.

(** C7 (amended): let the constraints split into two groups whose affected
    cells are told apart by [sel], over a frontier of at most 19 distinct
    cells, so that the cap of 1000000 combinations is not reached.  When
    each group has at least one valid assignment, the probability stored for
    every frontier cell by the joint enumeration equals the one stored by
    the enumeration of its own group alone. *)
Theorem constrained_probabilities_factorize
    (sel : string -> bool) (cs cs1 cs2 : list Constraint) (cells : list CoordinateRef) :
  let cells1 := filter (fun r => sel (ProbabilityCalculator.keyOf r)) cells in
  let cells2 := filter (fun r => negb (sel (ProbabilityCalculator.keyOf r))) cells in
  Permutation cs (cs1 ++ cs2) ->
  (forall k r, In k cs1 -> In r (affectedCells k) ->
               sel (ProbabilityCalculator.keyOf r) = true) ->
  (forall k r, In k cs2 -> In r (affectedCells k) ->
               sel (ProbabilityCalculator.keyOf r) = false) ->
  NoDup (map addr cells) ->
  NoDup (map ProbabilityCalculator.keyOf cells) ->
  (List.length cells <= 19)%nat ->
  ProbabilityCalculator.generateValidAssignments cs1 cells1 <> [] ->
  ProbabilityCalculator.generateValidAssignments cs2 cells2 <> [] ->
  (forall c, In c cells1 ->
     exists p q,
       map_get (ProbabilityCalculator.calculateConstrainedProbabilities cs cells) c
       = Some p
       /\ map_get (ProbabilityCalculator.calculateConstrainedProbabilities cs1 cells1) c
          = Some q
       /\ (p == q)%Q)
  /\ (forall c, In c cells2 ->
        exists p q,
          map_get (ProbabilityCalculator.calculateConstrainedProbabilities cs cells) c
          = Some p
          /\ map_get (ProbabilityCalculator.calculateConstrainedProbabilities cs2 cells2) c
             = Some q
          /\ (p == q)%Q).
Proof.
  intros cells1 cells2 Hperm H1 H2 Hnda Hndk Hlen Hne1 Hne2.
  assert (forall k r, In k cs2 -> In r (affectedCells k) ->
                      negb (sel (ProbabilityCalculator.keyOf r)) = true) as H2'
      by (intros k r Hk Hr; now rewrite (H2 k r Hk Hr)).
  split; intros c Hc; pose proof Hc as Hc0; apply filter_In in Hc0;
    destruct Hc0 as [Hin Hsel]; do 2 eexists.
  - split; [apply calculateConstrainedProbabilities_get; assumption|].
    split; [apply calculateConstrainedProbabilities_get;
            [now apply NoDup_map_filter|exact Hc]|].
    now apply (marginal_factor sel cs cs1 cs2).
  - split; [apply calculateConstrainedProbabilities_get; assumption|].
    split; [apply calculateConstrainedProbabilities_get;
            [now apply NoDup_map_filter|exact Hc]|].
    apply (marginal_factor (fun k => negb (sel k)) cs cs2 cs1); auto.
    + rewrite Hperm. apply Permutation_app_comm.
    + intros k r Hk Hr. now rewrite (H1 k r Hk Hr).
    + rewrite (filter_ext _ (fun r => sel (ProbabilityCalculator.keyOf r)));
        [exact Hne1|]. intros r. apply negb_involutive.
Qed.

(** On [Examples.twoPairs] each of the four frontier cells gets 1/2 from the
    joint enumeration of 16 assignments and from the enumeration of its own
    pair. *)
Lemma constrained_probabilities_factorize_witness :
  let cs := ConstraintSolver.extractConstraints Examples.twoPairs in
  let cells := constrainedCoords Examples.twoPairs in
  let sel := fun k => String.eqb k "0,0" || String.eqb k "2,0" in
  let cells1 := filter (fun r => sel (ProbabilityCalculator.keyOf r)) cells in
  let cells2 := filter (fun r => negb (sel (ProbabilityCalculator.keyOf r))) cells in
  List.length cells = 4%nat
  /\ (forall c, In c cells1 ->
        exists p q,
          map_get (ProbabilityCalculator.calculateConstrainedProbabilities cs cells) c
          = Some p
          /\ map_get (ProbabilityCalculator.calculateConstrainedProbabilities
                        (firstn 1 cs) cells1) c = Some q
          /\ (p == q)%Q)
  /\ (forall c, In c cells2 ->
        exists p q,
          map_get (ProbabilityCalculator.calculateConstrainedProbabilities cs cells) c
          = Some p
          /\ map_get (ProbabilityCalculator.calculateConstrainedProbabilities
                        (skipn 1 cs) cells2) c = Some q
          /\ (p == q)%Q).
Proof.
  cbv zeta. split; [vm_compute; reflexivity|].
  apply (constrained_probabilities_factorize
           (fun k => String.eqb k "0,0" || String.eqb k "2,0")
           (ConstraintSolver.extractConstraints Examples.twoPairs)
           (firstn 1 (ConstraintSolver.extractConstraints Examples.twoPairs))
           (skipn 1 (ConstraintSolver.extractConstraints Examples.twoPairs))
           (constrainedCoords Examples.twoPairs)).
  - rewrite firstn_skipn. apply Permutation_refl.
  - intros k r Hk Hr. vm_compute in Hk.
    destruct Hk as [<-|[]]; vm_compute in Hr; destruct Hr as [<-|[<-|[]]];
      vm_compute; reflexivity.
  - intros k r Hk Hr. vm_compute in Hk.
    destruct Hk as [<-|[]]; vm_compute in Hr; destruct Hr as [<-|[<-|[]]];
      vm_compute; reflexivity.
  - vm_compute. repeat constructor; simpl; intuition discriminate.
  - vm_compute. repeat constructor; simpl; intuition discriminate.
  - vm_compute. lia.
  - vm_compute. discriminate.
  - vm_compute. discriminate.
Defined.

(** ** The engine does not write to the board *)

Lemma forM_pure {A B} (f : A -> Stateful.M B) (g : GameBoard -> A -> B) :
  (forall a s, f a s = (g s a, s)) ->
  forall l s, Stateful.forM l f s = (map (g s) l, s).
Proof.
  intros H. induction l as [|a l IH]; intros s; simpl; [reflexivity|].
  unfold Stateful.bind. rewrite H, IH. reflexivity.
Qed.

Lemma foldM_pure {A S} (f : S -> A -> Stateful.M S) (g : GameBoard -> S -> A -> S) :
  (forall st a s, f st a s = (g s st a, s)) ->
  forall l st s, Stateful.foldM f l st s = (fold_left (g s) l st, s).
Proof.
  intros H. induction l as [|a l IH]; intros st s; simpl; [reflexivity|].
  unfold Stateful.bind. rewrite H, IH. reflexivity.
Qed.

Lemma extractConstraints_run s :
  Stateful.extractConstraints s = (ConstraintSolver.extractConstraints s, s).
Proof.
  unfold Stateful.extractConstraints, Stateful.bind, Stateful.getRevealedCells.
  rewrite (forM_pure _ (fun s cell =>
    let adjacentCells :=
      Board.getAdjacentCells s (x (target (coordinates cell)))
                               (y (target (coordinates cell))) in
    let unrevealedAdjacent :=
      filter (fun c => negb (isRevealed c) && negb (isFlagged c)) adjacentCells in
    let flaggedAdjacent := filter isFlagged adjacentCells in
    let remainingMines :=
      adjacentMines cell - Z.of_nat (List.length flaggedAdjacent) in
    if (0 <? Z.of_nat (List.length unrevealedAdjacent)) && (0 <=? remainingMines)
    then [mkConstraint (coordinates cell) remainingMines
                       (map coordinates unrevealedAdjacent)]
    else [])).
  - unfold Stateful.ret, ConstraintSolver.extractConstraints.
    rewrite flat_map_concat_map. reflexivity.
  - intros cell s'. unfold Stateful.getAdjacentCells. cbv zeta.
    match goal with |- (if ?b then _ else _) s' = _ => destruct b end; reflexivity.
Qed.

Lemma findGuaranteedMoves_run s :
  Stateful.findGuaranteedMoves s = (ConstraintSolver.findGuaranteedMoves s, s).
Proof.
  unfold Stateful.findGuaranteedMoves, Stateful.bind.
  rewrite extractConstraints_run. reflexivity.
Qed.

Lemma calculateUnconstrainedProbability_run cc uc s :
  Stateful.calculateUnconstrainedProbability cc uc s
  = (ProbabilityCalculator.calculateUnconstrainedProbability s cc uc, s).
Proof.
  unfold Stateful.calculateUnconstrainedProbability,
    ProbabilityCalculator.calculateUnconstrainedProbability.
  destruct (uc =? 0); reflexivity.
Qed.

Lemma calculateProbabilities_run s :
  Stateful.calculateProbabilities s = (ProbabilityCalculator.calculateProbabilities s, s).
Proof.
  unfold Stateful.calculateProbabilities, Stateful.bind.
  rewrite extractConstraints_run. unfold Stateful.getUnrevealedCells.
  unfold ProbabilityCalculator.calculateProbabilities. cbv zeta.
  destruct (Z.of_nat _ =? 0); [reflexivity|].
  destruct (0 <? Z.of_nat (List.length (filter (fun coord => negb _) _)));
    [|reflexivity].
  rewrite calculateUnconstrainedProbability_run. reflexivity.
Qed.

Lemma calculateInformationGain_run c s :
  Stateful.calculateInformationGain c s
  = (ProbabilityCalculator.calculateInformationGain c s, s).
Proof. reflexivity. Qed.

Lemma handleEdgeCases_run probs s :
  Stateful.handleEdgeCases probs s = (ProbabilityCalculator.handleEdgeCases s probs, s).
Proof.
  unfold Stateful.handleEdgeCases, Stateful.bind, Stateful.getDimensions,
    Stateful.getRevealedCount, Board.getDimensions,
    ProbabilityCalculator.handleEdgeCases, ProbabilityCalculator.earlyGame.
  destruct (Qltb _ _); reflexivity.
Qed.

Lemma selectBestGuaranteedSafe_run safeMoves s :
  Stateful.selectBestGuaranteedSafe safeMoves s
  = (HintEngine.selectBestGuaranteedSafe s safeMoves, s).
Proof.
  destruct safeMoves as [|first [|second rest]]; try reflexivity.
  unfold Stateful.selectBestGuaranteedSafe, Stateful.bind.
  rewrite calculateInformationGain_run.
  rewrite (foldM_pure _ (fun s => HintEngine.betterSafe s)); reflexivity.
Qed.

Lemma selectBestProbabilisticMove_run probs s :
  Stateful.selectBestProbabilisticMove probs s
  = (HintEngine.selectBestProbabilisticMove s probs, s).
Proof.
  unfold Stateful.selectBestProbabilisticMove, Stateful.bind.
  rewrite (forM_pure _ (fun s => HintEngine.recommend s)).
  - unfold HintEngine.selectBestProbabilisticMove.
    destruct (Z.of_nat _ =? 0); reflexivity.
  - intros [k p] s'. reflexivity.
Qed.

Lemma getBestMove_run gm probs s :
  Stateful.getBestMove gm probs s = (HintEngine.getBestMove s gm probs, s).
Proof.
  unfold Stateful.getBestMove, HintEngine.getBestMove.
  destruct (0 <? Z.of_nat (List.length (fst gm))).
  - unfold Stateful.bind. rewrite selectBestGuaranteedSafe_run.
    destruct (HintEngine.selectBestGuaranteedSafe s (fst gm)); reflexivity.
  - destruct (0 <? map_size probs); [apply selectBestProbabilisticMove_run|reflexivity].
Qed.

Lemma analyzeBoard_run s :
  Stateful.analyzeBoard s = (HintEngine.analyzeBoard s, s).
Proof.
  unfold Stateful.analyzeBoard, Stateful.bind.
  rewrite findGuaranteedMoves_run, calculateProbabilities_run, handleEdgeCases_run,
    getBestMove_run.
  reflexivity.
Qed.

(** The state can change: a click on a hidden cell yields another board. *)
Example revealCell_writes :
  snd (Stateful.revealCell 1 1 Examples.fresh3) <> Examples.fresh3.
Proof. vm_compute. discriminate. Qed.

(** C9: [analyzeBoard], and each operation it calls, returns the board it
    was given: every cell has the same [hasMine], [isRevealed], [isFlagged]
    and [adjacentMines] after the call as before. *)
Theorem analyzeBoard_preserves_board (gb : GameBoard) :
  snd (Stateful.analyzeBoard gb) = gb
  /\ snd (Stateful.extractConstraints gb) = gb
  /\ snd (Stateful.findGuaranteedMoves gb) = gb
  /\ snd (Stateful.calculateProbabilities gb) = gb
  /\ (forall probs, snd (Stateful.handleEdgeCases probs gb) = gb)
  /\ (forall gm probs, snd (Stateful.getBestMove gm probs gb) = gb)
  /\ (forall c, snd (Stateful.calculateInformationGain c gb) = gb)
  /\ Forall2 (fun before after =>
                hasMine before = hasMine after
                /\ isRevealed before = isRevealed after
                /\ isFlagged before = isFlagged after
                /\ adjacentMines before = adjacentMines after)
             (Board.scan gb) (Board.scan (snd (Stateful.analyzeBoard gb)))
  /\ fst (Stateful.analyzeBoard gb) = HintEngine.analyzeBoard gb.
Proof.
  rewrite analyzeBoard_run, extractConstraints_run, findGuaranteedMoves_run,
    calculateProbabilities_run. simpl.
  repeat split; try reflexivity.
  - intros probs. now rewrite handleEdgeCases_run.
  - intros gm probs. now rewrite getBestMove_run.
  - induction (Board.scan gb); constructor; auto.
Qed.

(** ** The class invariant of [GameBoard] *)

Lemma nth_error_replace_nth {A} (f : A -> A) n m (l : list A) :
  nth_error (Board.replace_nth n f l) m
  = if Nat.eqb n m then option_map f (nth_error l m) else nth_error l m.
Proof.
  revert n m. induction l as [|a l IH]; intros n m.
  - destruct n, m; simpl; try reflexivity; destruct (Nat.eqb n m); reflexivity.
  - destruct n, m; simpl; try reflexivity. apply IH.
Qed.

Lemma nth_replace_nth {A} (g : list A -> list A) n m (rows : list (list A)) :
  g [] = [] ->
  nth m (Board.replace_nth n g rows) []
  = if Nat.eqb n m then g (nth m rows []) else nth m rows [].
Proof.
  intros Hg. revert n m. induction rows as [|r rows IH]; intros n m.
  - destruct n, m; simpl; auto; destruct (Nat.eqb n m); auto.
  - destruct n, m; simpl; try reflexivity. apply IH.
Qed.

Lemma at_update gb cx cy f px py :
  Board.at_ (Board.update gb cx cy f) px py
  = if (0 <=? cx) && (0 <=? cy) && (px =? cx) && (py =? cy)
    then option_map f (Board.at_ gb px py)
    else Board.at_ gb px py.
Proof.
  unfold Board.update.
  destruct (Z.ltb_spec cx 0); [|destruct (Z.ltb_spec cy 0)]; simpl.
  - replace (0 <=? cx) with false by (symmetry; apply Z.leb_gt; lia). reflexivity.
  - replace (0 <=? cy) with false by (symmetry; apply Z.leb_gt; lia).
    now rewrite andb_false_r.
  - replace (0 <=? cx) with true by (symmetry; apply Z.leb_le; lia).
    replace (0 <=? cy) with true by (symmetry; apply Z.leb_le; lia).
    unfold Board.at_. simpl.
    destruct (Z.ltb_spec px 0); [|destruct (Z.ltb_spec py 0)]; simpl.
    + destruct ((px =? cx) && (py =? cy)) eqn:E; [|reflexivity].
      apply andb_true_iff in E. destruct E as [E _]. apply Z.eqb_eq in E. lia.
    + destruct ((px =? cx) && (py =? cy)) eqn:E; [|reflexivity].
      apply andb_true_iff in E. destruct E as [_ E]. apply Z.eqb_eq in E. lia.
    + rewrite nth_replace_nth by (now destruct (Z.to_nat cx)).
      destruct (Z.eqb_spec py cy) as [->|Hy].
      * rewrite Nat.eqb_refl, nth_error_replace_nth.
        destruct (Z.eqb_spec px cx) as [->|Hx].
        -- now rewrite Nat.eqb_refl.
        -- replace (Nat.eqb (Z.to_nat cx) (Z.to_nat px)) with false
             by (symmetry; apply Nat.eqb_neq; lia).
           reflexivity.
      * replace (Nat.eqb (Z.to_nat cy) (Z.to_nat py)) with false
          by (symmetry; apply Nat.eqb_neq; lia).
        now rewrite andb_false_r.
Qed.

Lemma map_flat_map {A B C} (g : B -> C) (f : A -> list B) l :
  map g (flat_map f l) = flat_map (fun a => map g (f a)) l.
Proof.
  induction l as [|a l IH]; simpl; [reflexivity|]. now rewrite map_app, IH.
Qed.

Lemma update_wf gb cx cy f :
  (forall c, coordinates (f c) = coordinates c) ->
  Board.wf gb = true -> Board.wf (Board.update gb cx cy f) = true.
Proof.
  intros Hf Hwf.
  assert (width (Board.update gb cx cy f) = width gb
          /\ height (Board.update gb cx cy f) = height gb) as [Hw Hh].
  { unfold Board.update. destruct ((cx <? 0) || (cy <? 0)); auto. }
  assert (forall px py,
            map (fun c => coordinates c) (Board.push_cell (Board.update gb cx cy f) px py)
            = map (fun c => coordinates c) (Board.push_cell gb px py)) as Hpush.
  { intros px py. unfold Board.push_cell. rewrite at_update.
    destruct ((0 <=? cx) && (0 <=? cy) && (px =? cx) && (py =? cy)); [|reflexivity].
    destruct (Board.at_ gb px py); simpl; [now rewrite Hf|reflexivity]. }
  unfold Board.wf in *. apply andb_true_iff in Hwf. destruct Hwf as [H1 H2].
  apply andb_true_iff. split.
  - rewrite Hw, Hh. rewrite forallb_forall in *. intros py Hpy.
    specialize (H1 py Hpy). rewrite forallb_forall in *. intros px Hpx.
    specialize (H1 px Hpx). rewrite at_update.
    destruct ((0 <=? cx) && (0 <=? cy) && (px =? cx) && (py =? cy)); [|exact H1].
    destruct (Board.at_ gb px py); simpl; [now rewrite Hf|exact H1].
  - replace (map (fun c => addr (coordinates c)) (Board.scan (Board.update gb cx cy f)))
      with (map (fun c => addr (coordinates c)) (Board.scan gb)); [exact H2|].
    rewrite <- !(map_map (fun c => coordinates c) addr). f_equal.
    unfold Board.scan. rewrite Hw, Hh, !map_flat_map.
    apply flat_map_ext. intros py. rewrite !map_flat_map.
    apply flat_map_ext. intros px. symmetry. apply Hpush.
Qed.

Lemma update_dims gb cx cy f :
  width (Board.update gb cx cy f) = width gb
  /\ height (Board.update gb cx cy f) = height gb.
Proof. unfold Board.update. destruct ((cx <? 0) || (cy <? 0)); auto. Qed.

Lemma nth_error_range {A} (f : Z -> A) n k :
  0 <= k < n -> nth_error (map f (JS.range n)) (Z.to_nat k) = Some (f k).
Proof.
  intros Hk. unfold JS.range. rewrite map_map.
  rewrite (map_nth_error (fun j => f (Z.of_nat j)) (Z.to_nat k) (seq 0 (Z.to_nat n))
             (d := Z.to_nat k)).
  - now rewrite Z2Nat.id by lia.
  - rewrite (nth_error_nth' _ 0%nat) by (rewrite length_seq; lia).
    rewrite seq_nth by lia. reflexivity.
Qed.

Lemma new_at w h mines cx cy :
  0 <= cx < w -> 0 <= cy < h ->
  Board.at_ (Board.new w h mines) cx cy
  = Some (mkCell false false false 0
                 (mkRef (Z.to_nat (cy * w + cx)) (mkCoordinate cx cy))).
Proof.
  intros Hx Hy. unfold Board.at_, Board.new, Board.initializeBoard. simpl.
  replace ((cx <? 0) || (cy <? 0)) with false
    by (symmetry; apply orb_false_iff; split; apply Z.ltb_ge; lia).
  erewrite nth_error_nth; [|apply (nth_error_range _ h cy Hy)].
  exact (nth_error_range
           (fun cx => mkCell false false false 0
                        (mkRef (Z.to_nat (cy * w + cx)) (mkCoordinate cx cy)))
           w cx Hx).
Qed.

Lemma positions_NoDup gb : NoDup (Board.positions gb).
Proof.
  unfold Board.positions.
  assert (forall n, NoDup (JS.range n)) as Hr.
  { intros n. unfold JS.range. apply NoDup_map_in; [apply seq_NoDup|].
    intros a b _ _ E. lia. }
  generalize (Hr (height gb)). generalize (JS.range (height gb)).
  induction l as [|cy l IH]; intros Hl; simpl; [constructor|].
  inversion Hl as [|? ? Hn Hl']; subst.
  apply NoDup_app.
  - apply NoDup_map_in; [apply Hr|]. intros a b _ _ E. congruence.
  - now apply IH.
  - intros [px py] H1 H2. apply in_map_iff in H1. destruct H1 as (a & E & _).
    inversion E; subst. apply in_flat_map in H2. destruct H2 as (cy' & Hcy' & H2).
    apply in_map_iff in H2. destruct H2 as (b & E' & _). inversion E'; subst.
    contradiction.
Qed.

Lemma In_positions gb p :
  In p (Board.positions gb) <-> 0 <= fst p < width gb /\ 0 <= snd p < height gb.
Proof.
  unfold Board.positions. rewrite in_flat_map. split.
  - intros (cy & Hy & H). apply in_map_iff in H. destruct H as (cx & <- & Hx).
    apply In_range in Hx, Hy. simpl. lia.
  - intros [Hx Hy]. exists (snd p). split; [now apply In_range|].
    apply in_map_iff. exists (fst p). split; [now destruct p|now apply In_range].
Qed.

Lemma scan_positions gb :
  Board.scan gb
  = flat_map (fun p => Board.push_cell gb (fst p) (snd p)) (Board.positions gb).
Proof.
  unfold Board.scan, Board.positions.
  induction (JS.range (height gb)) as [|cy l IH]; simpl; [reflexivity|].
  rewrite flat_map_app, IH. f_equal. now rewrite flat_map_map_comp.
Qed.

Lemma new_wf w h mines : Board.wf (Board.new w h mines) = true.
Proof.
  unfold Board.wf. apply andb_true_iff. split.
  - apply forallb_forall. intros cy Hy. apply forallb_forall. intros cx Hx.
    apply In_range in Hx, Hy. simpl in Hx, Hy.
    rewrite new_at by assumption. simpl. rewrite !Z.eqb_refl. reflexivity.
  - apply distinct_NoDup. rewrite scan_positions, map_flat_map.
    pose proof (positions_NoDup (Board.new w h mines)) as Hnd.
    assert (forall p, In p (Board.positions (Board.new w h mines)) ->
              map (fun c => addr (coordinates c))
                  (Board.push_cell (Board.new w h mines) (fst p) (snd p))
              = [Z.to_nat (snd p * w + fst p)]) as Hcell.
    { intros p Hp. apply In_positions in Hp. simpl in Hp.
      unfold Board.push_cell. rewrite new_at by tauto. reflexivity. }
    assert (forall p q, In p (Board.positions (Board.new w h mines)) ->
              In q (Board.positions (Board.new w h mines)) ->
              Z.to_nat (snd p * w + fst p) = Z.to_nat (snd q * w + fst q) -> p = q)
      as Hinj.
    { intros [px py] [qx qy] Hp Hq E. apply In_positions in Hp, Hq. simpl in *.
      assert (py * w + px = qy * w + qx) as E' by nia.
      assert (py = qy) by nia. subst. f_equal. lia. }
    revert Hnd Hcell Hinj. generalize (Board.positions (Board.new w h mines)).
    induction l as [|p l IH]; intros Hnd Hcell Hinj; simpl; [constructor|].
    inversion Hnd as [|? ? Hn Hnd']; subst.
    rewrite (Hcell p) by now left. simpl. constructor.
    + intros Hin. apply in_flat_map in Hin. destruct Hin as (q & Hq & Hin).
      rewrite (Hcell q) in Hin by now right. destruct Hin as [E|[]].
      assert (q = p) by (apply Hinj; auto; [now right|now left]). subst. contradiction.
    + apply IH; auto. intros; apply Hcell; now right.
      intros; apply Hinj; auto; now right.
Qed.

Lemma fold_update_wf {A} (step : GameBoard -> A -> GameBoard) l gb :
  (forall g a, Board.wf g = true -> Board.wf (step g a) = true) ->
  Board.wf gb = true -> Board.wf (fold_left step l gb) = true.
Proof.
  intros H. revert gb. induction l as [|a l IH]; intros gb Hwf; simpl; auto.
Qed.

Lemma placeMines_wf gb minePositions :
  Board.wf gb = true -> Board.wf (Board.placeMines gb minePositions) = true.
Proof.
  intros Hwf. unfold Board.placeMines, Board.calculateAdjacentMines, Board.clearMines.
  apply fold_update_wf.
  { intros g p Hg. destruct (Board.at_ g (fst p) (snd p)); [|exact Hg].
    destruct (negb (hasMine c)); [|exact Hg]. now apply update_wf. }
  apply fold_update_wf.
  { intros g pos Hg. destruct (Board.isValidCoordinate g (x pos) (y pos)); [|exact Hg].
    now apply update_wf. }
  apply fold_update_wf; [|exact Hwf].
  intros g p Hg. now apply update_wf.
Qed.

Lemma revealCell_wf gb cx cy :
  Board.wf gb = true -> Board.wf (snd (Board.revealCell gb cx cy)) = true.
Proof.
  intros Hwf. unfold Board.revealCell. destruct (Board.getCell gb cx cy); [|exact Hwf].
  destruct (isRevealed c || isFlagged c); [exact Hwf|]. now apply update_wf.
Qed.

Lemma toggleFlag_wf gb cx cy :
  Board.wf gb = true -> Board.wf (snd (Board.toggleFlag gb cx cy)) = true.
Proof.
  intros Hwf. unfold Board.toggleFlag. destruct (Board.getCell gb cx cy); [|exact Hwf].
  destruct (isRevealed c); [exact Hwf|]. now apply update_wf.
Qed.

(** Every board obtained from the constructor by [placeMines] and clicks
    satisfies the invariant. *)
Lemma play_wf w h mines clicks : Board.wf (Examples.play w h mines clicks) = true.
Proof.
  unfold Examples.play. apply fold_update_wf.
  - intros g [cx cy|cx cy] Hg; simpl; [now apply revealCell_wf|now apply toggleFlag_wf].
  - apply placeMines_wf, new_wf.
Qed.

(** * Further properties of the engine and of the board *)

(** ** The keys of the solver *)

(** X1: the string key of a coordinate determines the coordinate:
    [stringToCoord] inverts [coordToString] on every pair of integers,
    negative ones included, two coordinates share a key only when they are
    equal, and the solver and the calculator print the same key. *)
Theorem coordinate_key_round_trip (c c' : Coordinate) :
  ConstraintSolver.stringToCoord (ConstraintSolver.coordToString c) = c
  /\ (ConstraintSolver.coordToString c = ConstraintSolver.coordToString c' <-> c = c')
  /\ ProbabilityCalculator.coordToString c = ConstraintSolver.coordToString c.
Proof.
  split; [apply stringToCoord_coordToString|]. split; [|reflexivity].
  split; [apply coordToString_inj|]. now intros ->.
Qed.

(** ** The lowest-risk cell *)

Lemma findLowestRiskCell_loop (m : ProbabilityMap) :
  forall (o : option CoordinateRef) (v : Q),
    let st := fold_left (fun (st : option CoordinateRef * Q) (e : CoordinateRef * Q) =>
                if Qltb (snd e) (snd st) then (Some (fst e), snd e) else st)
              m (o, v) in
    (st = (o, v) /\ forall e, In e m -> (v <= snd e)%Q)
    \/ exists m1 k p m2,
         m = m1 ++ (k, p) :: m2 /\ st = (Some k, p) /\ (p < v)%Q
         /\ (forall e, In e m1 -> (p < snd e)%Q)
         /\ (forall e, In e m2 -> (p <= snd e)%Q).
Proof.
  induction m as [|[k p] m IH]; intros o v; cbn [fold_left].
  - left. split; [reflexivity|]. intros e [].
  - cbn [snd fst]. destruct (Qltb p v) eqn:E.
    + apply Qltb_lt in E. right.
      destruct (IH (Some k) p) as [[-> H]|(m1 & k' & p' & m2 & -> & -> & Hlt & H1 & H2)].
      * exists [], k, p, m. repeat split; auto. intros e [].
      * exists ((k, p) :: m1), k', p', m2. repeat split.
        -- eapply Qlt_trans; eassumption.
        -- intros e [<-|He]; [exact Hlt|now apply H1].
        -- exact H2.
    + apply Qltb_ge in E.
      destruct (IH o v) as [[-> H]|(m1 & k' & p' & m2 & -> & -> & Hlt & H1 & H2)].
      * left. split; [reflexivity|]. intros e [<-|He]; [exact E|now apply H].
      * right. exists ((k, p) :: m1), k', p', m2. repeat split; auto.
        intros e [<-|He]; [|now apply H1]. cbn [snd].
        eapply Qlt_le_trans; eassumption.
Qed.

(** X2: [findLowestRiskCell] returns the first entry whose value is the
    minimum of the map, provided that minimum is below 1; on a map whose
    values are all 1 or more, the empty map included, it returns [null].
    [getFallbackMove] is this search on the unadjusted probabilities. *)
Theorem findLowestRiskCell_first_minimum (m : ProbabilityMap) :
  (ProbabilityCalculator.findLowestRiskCell m = None
   <-> forall e, In e m -> (1 <= snd e)%Q)
  /\ (forall k, ProbabilityCalculator.findLowestRiskCell m = Some k ->
        exists m1 p m2,
          m = m1 ++ (k, p) :: m2 /\ (p < 1)%Q
          /\ (forall e, In e m1 -> (p < snd e)%Q)
          /\ (forall e, In e m2 -> (p <= snd e)%Q))
  /\ (forall gb, HintEngine.getFallbackMove gb
                 = ProbabilityCalculator.findLowestRiskCell
                     (ProbabilityCalculator.calculateProbabilities gb)).
Proof.
  assert (forall m, ProbabilityCalculator.findLowestRiskCell m
            = fst (fold_left (fun (st : option CoordinateRef * Q) (e : CoordinateRef * Q) =>
                     if Qltb (snd e) (snd st) then (Some (fst e), snd e) else st)
                   m (None, 1%Q))) as Hdef.
  { intros [|e l]; [reflexivity|].
    unfold ProbabilityCalculator.findLowestRiskCell, map_size.
    cbn [List.length]. rewrite Nat2Z.inj_succ.
    destruct (Z.succ _ =? 0) eqn:E; [apply Z.eqb_eq in E; lia|reflexivity]. }
  split; [|split].
  - rewrite Hdef.
    destruct (findLowestRiskCell_loop m None 1%Q)
      as [[-> H]|(m1 & k & p & m2 & -> & -> & Hlt & H1 & H2)]; cbn [fst].
    + split; [intros _; exact H|reflexivity].
    + split; [discriminate|]. intros H. exfalso.
      assert (1 <= p)%Q as Hp by (apply (H (k, p)); apply in_or_app; right; now left).
      exact (Qlt_not_le _ _ Hlt Hp).
  - intros k. rewrite Hdef.
    destruct (findLowestRiskCell_loop m None 1%Q)
      as [[-> H]|(m1 & k' & p & m2 & -> & -> & Hlt & H1 & H2)]; cbn [fst];
      [discriminate|].
    intros [= ->]. exists m1, p, m2. auto.
  - intros gb. unfold HintEngine.getFallbackMove.
    destruct (map_size _ =? 0) eqn:E; [|reflexivity].
    unfold map_size in E.
    destruct (ProbabilityCalculator.calculateProbabilities gb); [reflexivity|].
    cbn [List.length] in E. apply Z.eqb_eq in E. lia.
Qed.

(** ** The simple rules alone *)

Lemma set_add_fold_app l : forall s, exists r, fold_left JS.set_add l s = s ++ r.
Proof.
  induction l as [|k l IH]; intros s; cbn [fold_left].
  - exists []. now rewrite app_nil_r.
  - destruct (IH (JS.set_add s k)) as [r ->]. unfold JS.set_add.
    destruct (JS.set_has s k); [now exists r|].
    exists (k :: r). now rewrite <- app_assoc.
Qed.

Lemma simpleRule_fold cs : forall s m,
  fold_left ConstraintSolver.simpleRule cs (s, m)
  = (fold_left (fun s c =>
       if requiredMines c =? 0 then
         fold_left (fun s' coord => JS.set_add s' (ConstraintSolver.keyOf coord))
                   (affectedCells c) s
       else s) cs s,
     fold_left (fun s c =>
       if (requiredMines c =? Z.of_nat (List.length (affectedCells c)))
          && (0 <? requiredMines c) then
         fold_left (fun s' coord => JS.set_add s' (ConstraintSolver.keyOf coord))
                   (affectedCells c) s
       else s) cs m).
Proof.
  induction cs as [|c cs IH]; intros s m; cbn [fold_left]; [reflexivity|].
  rewrite <- IH. f_equal. unfold ConstraintSolver.simpleRule. cbn [fst snd].
  destruct (requiredMines c =? 0) eqn:E.
  - apply Z.eqb_eq in E. rewrite E. cbn [Z.ltb Z.compare]. now rewrite andb_false_r.
  - destruct (_ && _); reflexivity.
Qed.

Lemma subsetRule_app cs st ij :
  exists r1 r2,
    ConstraintSolver.subsetRule cs st ij = (fst st ++ r1, snd st ++ r2).
Proof.
  assert (st = (fst st ++ [], snd st ++ [])) as Hst
    by (destruct st; cbn [fst snd]; now rewrite !app_nil_r).
  unfold ConstraintSolver.subsetRule. destruct ij as [i j].
  destruct (i =? j); [now exists [], []|].
  destruct (nth_error cs (Z.to_nat i)) as [c1|]; [|now exists [], []].
  destruct (nth_error cs (Z.to_nat j)) as [c2|]; [|now exists [], []].
  cbv zeta. destruct (ConstraintSolver.isSubset _ _); [|now exists [], []].
  destruct (_ =? 0).
  - match goal with |- context [fold_left JS.set_add ?d (fst st)] =>
      destruct (set_add_fold_app d (fst st)) as [r ->] end.
    exists r, []. now rewrite app_nil_r.
  - destruct (_ && _); [|now exists [], []].
    match goal with |- context [fold_left JS.set_add ?d (snd st)] =>
      destruct (set_add_fold_app d (snd st)) as [r ->] end.
    exists [], r. now rewrite app_nil_r.
Qed.

Lemma subsetRule_fold_app cs l : forall st,
  exists r1 r2,
    fold_left (ConstraintSolver.subsetRule cs) l st = (fst st ++ r1, snd st ++ r2).
Proof.
  induction l as [|ij l IH]; intros st; cbn [fold_left].
  - exists [], []. destruct st; cbn [fst snd]. now rewrite !app_nil_r.
  - destruct (subsetRule_app cs st ij) as (a1 & a2 & ->).
    destruct (IH (fst st ++ a1, snd st ++ a2)) as (r1 & r2 & ->). cbn [fst snd].
    exists (a1 ++ r1), (a2 ++ r2). now rewrite !app_assoc.
Qed.

(** X3: [findGuaranteedMoves] extends [findGuaranteedSafe] and
    [findGuaranteedMines]: the safe list of the former starts with the whole
    list of [findGuaranteedSafe], in the same order, and its mine list starts
    with the whole list of [findGuaranteedMines]; the subset rule only
    appends to them. *)
Theorem findGuaranteedMoves_extends_simple_rules (gb : GameBoard) :
  exists moreSafe moreMines,
    fst (ConstraintSolver.findGuaranteedMoves gb)
    = ConstraintSolver.findGuaranteedSafe gb ++ moreSafe
    /\ snd (ConstraintSolver.findGuaranteedMoves gb)
       = ConstraintSolver.findGuaranteedMines gb ++ moreMines.
Proof.
  unfold ConstraintSolver.findGuaranteedMoves, ConstraintSolver.findGuaranteedSafe,
    ConstraintSolver.findGuaranteedMines, ConstraintSolver.guaranteedSets.
  cbv zeta. rewrite simpleRule_fold.
  match goal with |- context [fold_left (ConstraintSolver.subsetRule ?cs) ?l ?st] =>
    destruct (subsetRule_fold_app cs l st) as (r1 & r2 & ->) end.
  cbn [fst snd]. rewrite !map_app. eauto.
Qed.

(** ** A board without unknown cells *)

Lemma extractConstraints_no_unknown gb :
  filter (fun cell => negb (isFlagged cell)) (Board.getUnrevealedCells gb) = [] ->
  ConstraintSolver.extractConstraints gb = [].
Proof.
  intros H.
  assert (forall c, In c (Board.scan gb) ->
            negb (isRevealed c) && negb (isFlagged c) = false) as Hu.
  { intros c Hc. destruct (negb (isRevealed c) && negb (isFlagged c)) eqn:E; [|reflexivity].
    apply andb_prop in E. destruct E as [E1 E2].
    assert (In c (filter (fun cell => negb (isFlagged cell)) (Board.getUnrevealedCells gb)))
      as Hin.
    { apply filter_In. split; [|exact E2]. apply filter_In. now split. }
    rewrite H in Hin. destruct Hin. }
  unfold ConstraintSolver.extractConstraints.
  induction (Board.getRevealedCells gb) as [|cell l IH]; [reflexivity|].
  cbn [flat_map]. rewrite IH, app_nil_r.
  match goal with |- context [filter ?p (Board.getAdjacentCells gb ?cx ?cy)] =>
    replace (filter p (Board.getAdjacentCells gb cx cy)) with (@nil Cell) end.
  - reflexivity.
  - symmetry.
    match goal with |- filter ?p (Board.getAdjacentCells gb ?cx ?cy) = [] =>
      assert (forall c, In c (Board.getAdjacentCells gb cx cy) -> p c = false) as Ha
        by (intros c Hc; apply Hu; eapply getAdjacentCells_scan; exact Hc);
      induction (Board.getAdjacentCells gb cx cy) as [|a adj IHa]; [reflexivity|];
      cbn [filter]; rewrite (Ha a (or_introl eq_refl)); apply IHa;
      intros c Hc; apply Ha; now right end.
Qed.

Lemma handleEdgeCases_nil gb : ProbabilityCalculator.handleEdgeCases gb [] = [].
Proof.
  unfold ProbabilityCalculator.handleEdgeCases. cbn [fold_left].
  now destruct (ProbabilityCalculator.earlyGame gb).
Qed.

Lemma calculateProbabilities_no_unknown gb :
  filter (fun cell => negb (isFlagged cell)) (Board.getUnrevealedCells gb) = [] ->
  ProbabilityCalculator.calculateProbabilities gb = [].
Proof.
  intros H. rewrite calculateProbabilities_unfold. unfold unknownCells. now rewrite H.
Qed.

(** X4: on a board without an unrevealed, unflagged cell (a finished game,
    or a grid without cells) the engine has nothing to say: [analyzeBoard]
    returns empty lists, an empty map, no move and the confidence 0.1,
    [getTopMoves] returns no move whatever count is asked for,
    [getFallbackMove] returns [null] and [hasSolvableMoves] is false. *)
Theorem analyzeBoard_without_unknown_cells (gb : GameBoard) (count : option Z) :
  filter (fun cell => negb (isFlagged cell)) (Board.getUnrevealedCells gb) = [] ->
  HintEngine.analyzeBoard gb = mkHintAnalysis [] [] [] None (1 # 10)%Q
  /\ HintEngine.getTopMoves gb count = []
  /\ HintEngine.getFallbackMove gb = None
  /\ HintEngine.hasSolvableMoves gb = false.
Proof.
  intros H.
  pose proof (extractConstraints_no_unknown gb H) as Hc.
  pose proof (calculateProbabilities_no_unknown gb H) as Hp.
  assert (ConstraintSolver.findGuaranteedMoves gb = ([], [])) as Hg
    by (unfold ConstraintSolver.findGuaranteedMoves; now rewrite Hc).
  repeat split.
  - unfold HintEngine.analyzeBoard. rewrite Hg, Hp, handleEdgeCases_nil. reflexivity.
  - unfold HintEngine.getTopMoves. rewrite Hg, Hp, handleEdgeCases_nil.
    cbn [fst map app HintEngine.sortByPriority fold_right].
    unfold JS.slice0. apply firstn_nil.
  - unfold HintEngine.getFallbackMove. now rewrite Hp.
  - unfold HintEngine.hasSolvableMoves. now rewrite Hg.
Qed.

Lemma analyzeBoard_without_unknown_cells_witness :
  HintEngine.analyzeBoard Examples.finished = mkHintAnalysis [] [] [] None (1 # 10)%Q
  /\ HintEngine.getTopMoves Examples.finished None = []
  /\ HintEngine.getFallbackMove Examples.finished = None
  /\ HintEngine.hasSolvableMoves Examples.finished = false.
Proof.
  apply (analyzeBoard_without_unknown_cells Examples.finished None).
  vm_compute. reflexivity.
Defined.

(** ** The confidence of an analysis *)

(** X5: the confidence reported by [analyzeBoard] is one of 0.9, 0.7, 0.5,
    0.3 and 0.1; it is 0.9 exactly when the solver found a guaranteed safe
    cell or a guaranteed mine, which covers every board on which
    [hasSolvableMoves] answers true, and 0.1 exactly when there is neither a
    guaranteed cell nor an entry in the probability map. *)
Theorem analyzeBoard_confidence_levels (gb : GameBoard) :
  let a := HintEngine.analyzeBoard gb in
  In (confidence a) [(9 # 10)%Q; (7 # 10)%Q; (5 # 10)%Q; (3 # 10)%Q; (1 # 10)%Q]
  /\ (confidence a = (9 # 10)%Q <-> guaranteedSafe a <> [] \/ guaranteedMines a <> [])
  /\ (confidence a = (1 # 10)%Q
      <-> guaranteedSafe a = [] /\ guaranteedMines a = [] /\ probabilities a = [])
  /\ (HintEngine.hasSolvableMoves gb = true <-> guaranteedSafe a <> []).
Proof.
  unfold HintEngine.analyzeBoard, HintEngine.hasSolvableMoves. cbv zeta.
  cbn [confidence guaranteedSafe guaranteedMines probabilities].
  unfold HintEngine.calculateConfidence, map_size.
  destruct (ConstraintSolver.findGuaranteedMoves gb) as [safe mines]. cbn [fst snd].
  destruct (ProbabilityCalculator.handleEdgeCases gb _) as [|e m].
  - destruct safe, mines; cbn; repeat split; intros; auto 10;
      try discriminate; try tauto; try (intuition discriminate); try (intuition congruence).
  - destruct safe, mines; cbn -[HintEngine.Qmax_list HintEngine.Qmin_list Qltb];
      repeat match goal with |- context [if Qltb ?a ?b then _ else _] =>
        destruct (Qltb a b) end;
      repeat split; intros; auto 10;
      try discriminate; try tauto; try (intuition discriminate); try (intuition congruence).
Qed.

(** ** Information gain and priority *)

Lemma flat_map_length_le {A B} (f : A -> list B) l :
  (forall a, (List.length (f a) <= 1)%nat) ->
  (List.length (flat_map f l) <= List.length l)%nat.
Proof.
  intros H. induction l as [|a l IH]; [apply Nat.le_refl|].
  cbn [flat_map List.length]. rewrite length_app. specialize (H a). lia.
Qed.

Lemma getAdjacentCells_length gb cx cy :
  (List.length (Board.getAdjacentCells gb cx cy) <= 8)%nat.
Proof.
  unfold Board.getAdjacentCells.
  etransitivity; [apply flat_map_length_le|vm_compute; apply Nat.le_refl].
  intros d. cbv zeta. destruct (Board.isValidCoordinate _ _ _); [|cbn; lia].
  unfold Board.push_cell. destruct (Board.at_ _ _ _); cbn; lia.
Qed.

Lemma filter_disjoint_length {A} (p q : A -> bool) l :
  (forall a, p a = true -> q a = false) ->
  (List.length (filter p l) + List.length (filter q l) <= List.length l)%nat.
Proof.
  intros H. induction l as [|a l IH]; [apply Nat.le_refl|].
  cbn [filter List.length]. specialize (H a).
  destruct (p a); [rewrite H by reflexivity|destruct (q a)]; cbn [List.length]; lia.
Qed.

Lemma calculateInformationGain_range c gb :
  (0 <= ProbabilityCalculator.calculateInformationGain c gb <= 8)%Q.
Proof.
  unfold ProbabilityCalculator.calculateInformationGain. cbv zeta.
  pose proof (getAdjacentCells_length gb (x c) (y c)) as H8.
  pose proof (filter_disjoint_length ProbabilityCalculator.isUnknown isRevealed
                (Board.getAdjacentCells gb (x c) (y c))) as Hd.
  assert (forall a, ProbabilityCalculator.isUnknown a = true -> isRevealed a = false) as Hx.
  { intros a. unfold ProbabilityCalculator.isUnknown. destruct (isRevealed a); auto. }
  specialize (Hd Hx).
  set (u := List.length (filter ProbabilityCalculator.isUnknown _)) in *.
  set (r := List.length (filter isRevealed _)) in *.
  assert (0 <= Z.of_nat u /\ 0 <= Z.of_nat r /\ Z.of_nat u + Z.of_nat r <= 8) as Hb by lia.
  revert Hb. generalize (Z.of_nat u) (Z.of_nat r). clear.
  intros zu zr (H1 & H2 & H3). unfold Qle. cbn. split; lia.
Qed.

Lemma calculateMovePriority_range p g :
  (0 <= p <= 1)%Q -> (0 <= g <= 8)%Q ->
  (0 <= HintEngine.calculateMovePriority p g <= 94)%Q.
Proof. unfold HintEngine.calculateMovePriority. cbv zeta. intros. lra. Qed.

Lemma handleEdgeCases_in_unit gb :
  Forall (fun e => Spec.inUnit (snd e))
         (ProbabilityCalculator.handleEdgeCases gb
            (ProbabilityCalculator.calculateProbabilities gb)).
Proof.
  rewrite handleEdgeCases_map by apply calculateProbabilities_NoDup.
  pose proof (calculateProbabilities_in_unit gb) as H.
  induction H as [|e m He _ IH]; [constructor|].
  cbn [map]. constructor; [|exact IH].
  unfold rescale. destruct (ProbabilityCalculator.earlyGame gb); [|exact He].
  destruct (ProbabilityCalculator.isCorner gb _); [now apply scale_in_unit|].
  destruct (ProbabilityCalculator.isEdge gb _); [now apply scale_in_unit|exact He].
Qed.

(** X6: the information gain of a cell lies between 0 and 8 on every board,
    and the priority computed from a probability between 0 and 1 and such a
    gain lies between 0 and 94; so every probabilistic candidate of
    [getTopMoves] ranks strictly below the 1000 given to a guaranteed safe
    cell. *)
Theorem probabilistic_priority_below_guaranteed (gb : GameBoard) :
  (forall c, (0 <= ProbabilityCalculator.calculateInformationGain c gb <= 8)%Q)
  /\ (forall p g, (0 <= p <= 1)%Q -> (0 <= g <= 8)%Q ->
                  (0 <= HintEngine.calculateMovePriority p g <= 94)%Q)
  /\ (forall e, In e (ProbabilityCalculator.handleEdgeCases gb
                        (ProbabilityCalculator.calculateProbabilities gb)) ->
                (0 <= priority (HintEngine.recommend gb e) <= 94)%Q).
Proof.
  split; [intros c; apply calculateInformationGain_range|].
  split; [apply calculateMovePriority_range|].
  intros [k p] He. cbn [HintEngine.recommend priority].
  apply calculateMovePriority_range; [|apply calculateInformationGain_range].
  pose proof (handleEdgeCases_in_unit gb) as H. rewrite Forall_forall in H.
  exact (H _ He).
Qed.

(** ** Ranking *)

Lemma insertByPriority_perm a l : Permutation (HintEngine.insertByPriority a l) (a :: l).
Proof.
  induction l as [|b l IH]; cbn [HintEngine.insertByPriority]; [reflexivity|].
  destruct (Qle_bool _ _); [reflexivity|].
  etransitivity; [apply perm_skip, IH|apply perm_swap].
Qed.

Lemma sortByPriority_perm l : Permutation (HintEngine.sortByPriority l) l.
Proof.
  induction l as [|a l IH]; cbn [HintEngine.sortByPriority fold_right]; [reflexivity|].
  etransitivity; [apply insertByPriority_perm|now apply perm_skip].
Qed.

Lemma insertByPriority_descending a l :
  descending l -> descending (HintEngine.insertByPriority a l).
Proof.
  induction l as [|b l IH]; cbn [HintEngine.insertByPriority descending].
  - intros _. split; [intros ? []|exact I].
  - intros [Hb Hl]. destruct (Qle_bool (priority b - priority a) 0) eqn:E.
    + apply Qle_bool_iff in E. cbn [descending]. split; [|now split].
      intros c [<-|Hc]; [lra|]. specialize (Hb c Hc). lra.
    + assert (priority a <= priority b)%Q as Hab.
      { destruct (Qlt_le_dec (priority b) (priority a)) as [Hlt|Hle]; [|exact Hle].
        exfalso. assert (Qle_bool (priority b - priority a) 0 = true) as E'
          by (apply Qle_bool_iff; lra).
        congruence. }
      cbn [descending]. split; [|now apply IH].
      intros c Hc. apply (Permutation_in _ (insertByPriority_perm a l)) in Hc.
      destruct Hc as [<-|Hc]; [exact Hab|now apply Hb].
Qed.

Lemma sortByPriority_descending l : descending (HintEngine.sortByPriority l).
Proof.
  induction l as [|a l IH]; cbn [HintEngine.sortByPriority fold_right]; [exact I|].
  now apply insertByPriority_descending.
Qed.

(** The head of the stable sort is the first element of maximal priority. *)
Lemma sortByPriority_first_max l1 : forall a l2,
  (forall b, In b l1 -> (priority b < priority a)%Q) ->
  (forall b, In b l2 -> (priority b <= priority a)%Q) ->
  hd_error (HintEngine.sortByPriority (l1 ++ a :: l2)) = Some a.
Proof.
  induction l1 as [|b l1 IH]; intros a l2 H1 H2.
  - cbn [app HintEngine.sortByPriority fold_right].
    destruct (fold_right HintEngine.insertByPriority [] l2) as [|h t] eqn:E;
      [reflexivity|].
    cbn [HintEngine.insertByPriority].
    assert (In h l2) as Hh.
    { apply (Permutation_in _ (sortByPriority_perm l2)).
      unfold HintEngine.sortByPriority. rewrite E. now left. }
    specialize (H2 h Hh).
    assert (Qle_bool (priority h - priority a) 0 = true) as ->
      by (apply Qle_bool_iff; lra).
    reflexivity.
  - cbn [app HintEngine.sortByPriority fold_right].
    specialize (IH a l2 (fun c Hc => H1 c (or_intror Hc)) H2).
    unfold HintEngine.sortByPriority in IH.
    destruct (fold_right HintEngine.insertByPriority [] (l1 ++ a :: l2)) as [|h t];
      [discriminate|].
    cbn [hd_error] in IH. injection IH as ->.
    cbn [HintEngine.insertByPriority].
    specialize (H1 b (or_introl eq_refl)).
    destruct (Qle_bool (priority a - priority b) 0) eqn:E; [|reflexivity].
    apply Qle_bool_iff in E. lra.
Qed.

Lemma slice0_prefix {A} (l : list A) n : exists rest, l = JS.slice0 l n ++ rest.
Proof. unfold JS.slice0. cbv zeta. eexists. symmetry. apply firstn_skipn. Qed.

Lemma slice0_length {A} (l : list A) n :
  Z.of_nat (List.length (JS.slice0 l n))
  = if n <? 0 then Z.max (Z.of_nat (List.length l) + n) 0
    else Z.min n (Z.of_nat (List.length l)).
Proof.
  unfold JS.slice0. cbv zeta. rewrite length_firstn.
  destruct (n <? 0) eqn:E; [apply Z.ltb_lt in E|apply Z.ltb_ge in E]; lia.
Qed.

Lemma slice0_head {A} (l : list A) n : 1 <= n -> hd_error (JS.slice0 l n) = hd_error l.
Proof.
  intros Hn. unfold JS.slice0. cbv zeta.
  destruct (n <? 0) eqn:E; [apply Z.ltb_lt in E; lia|].
  destruct l as [|a l]; [now rewrite firstn_nil|].
  cbn [List.length]. rewrite Nat2Z.inj_succ.
  destruct (Z.to_nat (Z.min n (Z.succ (Z.of_nat (List.length l))))) eqn:En; [lia|].
  reflexivity.
Qed.

(** X7: [getTopMoves] returns the first [count] elements of its candidates
    in the order of descending priority: the moves returned, followed by
    the candidates left out, are a rearrangement of all candidates (each
    guaranteed safe cell with priority 1000, then each entry of the adjusted
    probability map) in which no move is preceded by one of lower priority.
    Their number is [count] capped by the number of candidates; a negative
    [count] drops that many candidates from the end instead; without a
    [count] three are asked for. *)
Theorem getTopMoves_ranked (gb : GameBoard) (count : option Z) :
  let n := match count with Some n => n | None => 3 end in
  let total := Z.of_nat (List.length (topCandidates gb)) in
  exists rest,
    Permutation (HintEngine.getTopMoves gb count ++ rest) (topCandidates gb)
    /\ descending (HintEngine.getTopMoves gb count ++ rest)
    /\ Z.of_nat (List.length (HintEngine.getTopMoves gb count))
       = (if n <? 0 then Z.max (total + n) 0 else Z.min n total).
Proof.
  cbv zeta.
  change (HintEngine.getTopMoves gb count)
    with (JS.slice0 (HintEngine.sortByPriority (topCandidates gb))
                    match count with Some n => n | None => 3 end).
  set (n := match count with Some n => n | None => 3 end).
  destruct (slice0_prefix (HintEngine.sortByPriority (topCandidates gb)) n) as [rest Hr].
  exists rest. rewrite <- Hr. split; [apply sortByPriority_perm|].
  split; [apply sortByPriority_descending|].
  rewrite slice0_length.
  now rewrite (Permutation_length (sortByPriority_perm (topCandidates gb))).
Qed.

(** X8: the first move of [getTopMoves], for a count of at least one.  When
    the solver found guaranteed safe cells it is the first of them, with
    probability 0 and priority 1000, whatever the probability map holds;
    when it found none it is the move that [analyzeBoard] recommends. *)
Theorem getTopMoves_first (gb : GameBoard) (n : Z) :
  1 <= n ->
  (forall s rest,
     guaranteedSafe (HintEngine.analyzeBoard gb) = s :: rest ->
     hd_error (HintEngine.getTopMoves gb (Some n))
     = Some (mkMove s 0%Q 1000%Q "Guaranteed safe move"))
  /\ (guaranteedSafe (HintEngine.analyzeBoard gb) = [] ->
      option_map coordinate (hd_error (HintEngine.getTopMoves gb (Some n)))
      = recommendedMove (HintEngine.analyzeBoard gb)).
Proof.
  intros Hn.
  change (HintEngine.getTopMoves gb (Some n))
    with (JS.slice0 (HintEngine.sortByPriority (topCandidates gb)) n).
  rewrite slice0_head by exact Hn.
  unfold HintEngine.analyzeBoard, topCandidates. cbv zeta.
  cbn [guaranteedSafe recommendedMove].
  set (adjusted := ProbabilityCalculator.handleEdgeCases gb _).
  split.
  - intros s rest ->. cbn [map app].
    apply (sortByPriority_first_max []); [intros ? []|].
    intros b Hb. cbn [priority]. apply in_app_or in Hb.
    destruct Hb as [Hb|Hb]; apply in_map_iff in Hb; destruct Hb as (z & <- & Hz).
    + cbn [priority]. lra.
    + destruct z as [k p]. cbn [HintEngine.recommend priority].
      pose proof (handleEdgeCases_in_unit gb) as Hu. rewrite Forall_forall in Hu.
      specialize (Hu _ Hz). cbn [snd] in Hu.
      pose proof (calculateMovePriority_range p
                    (ProbabilityCalculator.calculateInformationGain (target k) gb)
                    Hu (calculateInformationGain_range _ _)).
      lra.
  - intros E. unfold HintEngine.getBestMove. rewrite E. cbn [map app List.length].
    cbn [Z.of_nat Z.ltb Z.compare].
    unfold HintEngine.selectBestProbabilisticMove, map_size. cbv zeta.
    rewrite length_map.
    destruct adjusted as [|e m]; [reflexivity|].
    cbn [List.length]. rewrite Nat2Z.inj_succ.
    destruct (0 <? Z.succ _) eqn:E1; [|apply Z.ltb_ge in E1; lia].
    destruct (Z.succ _ =? 0) eqn:E2; [apply Z.eqb_eq in E2; lia|].
    reflexivity.
Qed.

Lemma getTopMoves_first_witness :
  (forall s rest,
     guaranteedSafe (HintEngine.analyzeBoard Examples.twoSafe) = s :: rest ->
     hd_error (HintEngine.getTopMoves Examples.twoSafe (Some 3))
     = Some (mkMove s 0%Q 1000%Q "Guaranteed safe move"))
  /\ (guaranteedSafe (HintEngine.analyzeBoard Examples.twoSafe) = [] ->
      option_map coordinate (hd_error (HintEngine.getTopMoves Examples.twoSafe (Some 3)))
      = recommendedMove (HintEngine.analyzeBoard Examples.twoSafe)).
Proof. apply (getTopMoves_first Examples.twoSafe 3). lia. Defined.

(** X9: the recommended cell is never dominated.  When the solver finds no
    guaranteed safe cell and the probability map is not empty, the move
    recommended by [analyzeBoard] is a key of the map such that no entry of
    the map combines a probability that is lower or equal with an
    information gain that is strictly higher: an entry with a higher gain
    has a strictly higher probability. *)
Theorem analyzeBoard_probabilistic_choice (gb : GameBoard) :
  let a := HintEngine.analyzeBoard gb in
  let gain k := ProbabilityCalculator.calculateInformationGain (target k) gb in
  guaranteedSafe a = [] -> probabilities a <> [] ->
  exists k p,
    In (k, p) (probabilities a)
    /\ recommendedMove a = Some (target k)
    /\ (forall k' p', In (k', p') (probabilities a) ->
          ((p' <= p)%Q -> (gain k' <= gain k)%Q)
          /\ ((gain k < gain k')%Q -> (p < p')%Q)).
Proof.
  cbv zeta. unfold HintEngine.analyzeBoard. cbv zeta.
  cbn [guaranteedSafe probabilities recommendedMove].
  set (adjusted := ProbabilityCalculator.handleEdgeCases gb _).
  intros Hs Hm.
  destruct (getBestMove_max_priority gb (ConstraintSolver.findGuaranteedMoves gb)
              adjusted Hs Hm) as (r & -> & Hr & Hmax).
  apply in_map_iff in Hr. destruct Hr as ([k p] & <- & Hin).
  exists k, p. split; [exact Hin|]. split; [reflexivity|].
  intros k' p' Hin'. specialize (Hmax _ Hin').
  cbn [HintEngine.recommend priority] in Hmax.
  unfold HintEngine.calculateMovePriority in Hmax. cbv zeta in Hmax.
  split; intros H; lra.
Qed.

Lemma analyzeBoard_probabilistic_choice_witness :
  let gb := Examples.firstClick in
  let a := HintEngine.analyzeBoard gb in
  let gain k := ProbabilityCalculator.calculateInformationGain (target k) gb in
  exists k p,
    In (k, p) (probabilities a)
    /\ recommendedMove a = Some (target k)
    /\ (forall k' p', In (k', p') (probabilities a) ->
          ((p' <= p)%Q -> (gain k' <= gain k)%Q)
          /\ ((gain k < gain k')%Q -> (p < p')%Q)).
Proof.
  apply (analyzeBoard_probabilistic_choice Examples.firstClick).
  - vm_compute. reflexivity.
  - vm_compute. discriminate.
Defined.

(** ** Where the guaranteed cells come from *)

Lemma set_add_fold_In_id l : forall s k,
  In k (fold_left JS.set_add l s) <-> In k s \/ In k l.
Proof.
  induction l as [|a l IH]; intros s k; cbn [fold_left].
  - cbn. tauto.
  - rewrite IH, set_add_In. cbn [In]. intuition congruence.
Qed.

(** Every key of the two sets of [findGuaranteedMoves] is the key of an
    affected cell of a constraint. *)
Lemma guaranteedSets_ind (P : string -> Prop) cs :
  (forall c r, In c cs -> In r (affectedCells c) -> P (ConstraintSolver.keyOf r)) ->
  forall s, In s (fst (ConstraintSolver.guaranteedSets cs))
            \/ In s (snd (ConstraintSolver.guaranteedSets cs)) -> P s.
Proof.
  intros HP.
  set (Inv := fun st : JS.StringSet * JS.StringSet =>
                forall s, In s (fst st) \/ In s (snd st) -> P s).
  assert (forall (keys : list string) st,
            Inv st -> (forall s, In s keys -> P s) ->
            Inv (fold_left JS.set_add keys (fst st), snd st)
            /\ Inv (fst st, fold_left JS.set_add keys (snd st))) as Hadd.
  { intros keys st Hst Hk. split; intros s; cbn [fst snd];
      rewrite set_add_fold_In_id; intros H; [destruct H as [[H|H]|H]|destruct H as [H|[H|H]]];
      auto. }
  assert (forall l, (forall c, In c l -> In c cs) ->
            forall st, Inv st -> Inv (fold_left ConstraintSolver.simpleRule l st)) as H1.
  { induction l as [|c l IH]; intros Hl st Hst; cbn [fold_left]; [exact Hst|].
    apply IH; [intros; apply Hl; now right|].
    unfold ConstraintSolver.simpleRule. rewrite !set_add_keys_fold.
    assert (forall s, In s (map ConstraintSolver.keyOf (affectedCells c)) -> P s) as Hk.
    { intros s Hs. apply in_map_iff in Hs. destruct Hs as (r & <- & Hr).
      apply (HP c r); [apply Hl; now left|exact Hr]. }
    destruct (Hadd _ st Hst Hk) as [Ha Hb].
    destruct (requiredMines c =? 0); [exact Ha|].
    destruct (_ && _); [exact Hb|exact Hst]. }
  assert (forall l st, Inv st ->
            Inv (fold_left (ConstraintSolver.subsetRule cs) l st)) as H2.
  { induction l as [|ij l IH]; intros st Hst; cbn [fold_left]; [exact Hst|].
    apply IH. unfold ConstraintSolver.subsetRule. destruct ij as [i j].
    destruct (i =? j); [exact Hst|].
    destruct (nth_error cs (Z.to_nat i)) as [c1|] eqn:E1; [|exact Hst].
    destruct (nth_error cs (Z.to_nat j)) as [c2|] eqn:E2; [|exact Hst].
    cbv zeta. destruct (ConstraintSolver.isSubset _ _); [|exact Hst].
    match goal with |- context [fold_left JS.set_add ?d (fst st)] =>
      assert (forall s, In s d -> P s) as Hk end.
    { intros s Hs. apply filter_In in Hs. destruct Hs as [Hs _].
      apply (proj1 (set_of_In _ _)) in Hs. apply in_map_iff in Hs. destruct Hs as (r & <- & Hr).
      apply (HP c2 r); [eapply nth_error_In; exact E2|exact Hr]. }
    destruct (Hadd _ st Hst Hk) as [Ha Hb].
    destruct (_ =? 0); [exact Ha|].
    destruct (_ && _); [exact Hb|exact Hst]. }
  unfold ConstraintSolver.guaranteedSets. cbv zeta.
  apply H2, H1; [auto|]. intros s [[]|[]].
Qed.

Lemma unknown_cell_valid gb n :
  Board.wf gb = true -> In n (Board.scan gb) ->
  ProbabilityCalculator.isUnknown n = true ->
  HintEngine.isValidMove (target (coordinates n)) gb = true.
Proof.
  intros Hwf Hn Hu. destruct (wf_scan_target gb n Hwf Hn) as (Hat & Hx & Hy).
  unfold HintEngine.isValidMove, Board.getCell.
  rewrite (proj2 (isValidCoordinate_spec gb _ _) (conj Hx Hy)). cbn [negb].
  rewrite Hat. exact Hu.
Qed.

Lemma affected_cell_unknown gb c r :
  In c (ConstraintSolver.extractConstraints gb) -> In r (affectedCells c) ->
  exists n, In n (Board.scan gb) /\ ProbabilityCalculator.isUnknown n = true
            /\ coordinates n = r.
Proof.
  intros Hc Hr. destruct (In_extractConstraints gb c Hc) as (cell & _ & _ & _ & Ha & _).
  rewrite Ha in Hr. apply in_map_iff in Hr. destruct Hr as (n & <- & Hn).
  apply filter_In in Hn. destruct Hn as [Hn Hu].
  exists n. split; [eapply getAdjacentCells_scan; exact Hn|]. now split.
Qed.

Lemma stringToCoord_keyOf r :
  ConstraintSolver.stringToCoord (ConstraintSolver.keyOf r) = target r.
Proof. apply stringToCoord_coordToString. Qed.

Lemma guaranteed_cells_valid gb c :
  Board.wf gb = true ->
  In c (fst (ConstraintSolver.findGuaranteedMoves gb))
  \/ In c (snd (ConstraintSolver.findGuaranteedMoves gb)) ->
  HintEngine.isValidMove c gb = true.
Proof.
  intros Hwf H. unfold ConstraintSolver.findGuaranteedMoves in H. cbv zeta in H.
  cbn [fst snd] in H.
  assert (exists s, ConstraintSolver.stringToCoord s = c
            /\ (In s (fst (ConstraintSolver.guaranteedSets
                             (ConstraintSolver.extractConstraints gb)))
                \/ In s (snd (ConstraintSolver.guaranteedSets
                                (ConstraintSolver.extractConstraints gb))))) as (s & <- & Hs).
  { destruct H as [H|H]; apply in_map_iff in H; destruct H as (s & E & Hs); eauto. }
  clear H. revert s Hs. apply guaranteedSets_ind. intros k r Hk Hr.
  destruct (affected_cell_unknown gb k r Hk Hr) as (n & Hn & Hu & <-).
  rewrite stringToCoord_keyOf. now apply unknown_cell_valid.
Qed.

Lemma adjusted_key_unknown gb k p :
  Board.wf gb = true ->
  In (k, p) (ProbabilityCalculator.handleEdgeCases gb
               (ProbabilityCalculator.calculateProbabilities gb)) ->
  In k (unknownCells gb).
Proof.
  intros Hwf H.
  rewrite handleEdgeCases_map in H by apply calculateProbabilities_NoDup.
  apply in_map_iff in H. destruct H as (e & E & He).
  assert (k = fst e) as -> by (rewrite <- (rescale_fst gb e), E; reflexivity).
  rewrite (calculateProbabilities_eq gb Hwf) in He.
  apply in_app_or in He.
  destruct He as [He|He]; apply in_map_iff in He; destruct He as (r & <- & Hr);
    cbn [fst]; apply filter_In in Hr; tauto.
Qed.

Lemma candidate_valid gb r :
  Board.wf gb = true -> In r (topCandidates gb) ->
  HintEngine.isValidMove (coordinate r) gb = true.
Proof.
  intros Hwf Hr. apply in_app_or in Hr. destruct Hr as [Hr|Hr].
  - apply in_map_iff in Hr. destruct Hr as (c & <- & Hc). cbn [coordinate].
    apply guaranteed_cells_valid; auto.
  - apply in_map_iff in Hr. destruct Hr as ([k p] & <- & He).
    cbn [HintEngine.recommend coordinate].
    apply adjusted_key_unknown in He; [|exact Hwf].
    apply In_unknownCells in He. destruct He as (n & Hn & Hu & <-).
    now apply unknown_cell_valid.
Qed.

Lemma recommended_move_valid gb c :
  Board.wf gb = true ->
  recommendedMove (HintEngine.analyzeBoard gb) = Some c ->
  HintEngine.isValidMove c gb = true.
Proof.
  intros Hwf. unfold HintEngine.analyzeBoard. cbv zeta. cbn [recommendedMove].
  set (gm := ConstraintSolver.findGuaranteedMoves gb).
  set (adjusted := ProbabilityCalculator.handleEdgeCases gb _).
  intros Hc.
  destruct (fst gm) as [|s0 rest] eqn:Es.
  - destruct adjusted as [|e m] eqn:Ea.
    + unfold HintEngine.getBestMove in Hc. rewrite Es in Hc. discriminate.
    + destruct (getBestMove_max_priority gb gm adjusted Es) as (r & Hr & Hin & _);
        [rewrite Ea; discriminate|].
      rewrite <- Ea, Hr in Hc. cbn [option_map] in Hc. injection Hc as <-.
      apply candidate_valid; [exact Hwf|].
      unfold topCandidates. apply in_or_app. now right.
  - rewrite getBestMove_safe in Hc by (rewrite Es; discriminate).
    destruct (selectBestGuaranteedSafe_spec gb (fst gm)) as (best & Hb & Hin & _);
      [rewrite Es; discriminate|].
    rewrite Hb in Hc. cbn [option_map coordinate] in Hc. injection Hc as <-.
    apply guaranteed_cells_valid; auto.
Qed.

(** X10: a hint never points at a revealed cell, a flagged cell or a
    position off the board.  On a well-formed board every guaranteed safe
    cell, every guaranteed mine, the move recommended by [analyzeBoard] and
    every move of [getTopMoves] passes [isValidMove]. *)
Theorem hints_are_valid_moves (gb : GameBoard) :
  Board.wf gb = true ->
  let a := HintEngine.analyzeBoard gb in
  (forall c, In c (guaranteedSafe a) \/ In c (guaranteedMines a) ->
             HintEngine.isValidMove c gb = true)
  /\ (forall c, recommendedMove a = Some c -> HintEngine.isValidMove c gb = true)
  /\ (forall count r, In r (HintEngine.getTopMoves gb count) ->
                      HintEngine.isValidMove (coordinate r) gb = true).
Proof.
  intros Hwf. cbv zeta. split; [|split].
  - intros c Hc. now apply guaranteed_cells_valid.
  - intros c Hc. now apply recommended_move_valid.
  - intros count r Hr. apply candidate_valid; [exact Hwf|].
    apply (Permutation_in _ (sortByPriority_perm (topCandidates gb))).
    change (HintEngine.getTopMoves gb count)
      with (JS.slice0 (HintEngine.sortByPriority (topCandidates gb))
                      match count with Some n => n | None => 3 end) in Hr.
    destruct (slice0_prefix (HintEngine.sortByPriority (topCandidates gb))
                match count with Some n => n | None => 3 end) as [rest E].
    rewrite E. apply in_or_app. now left.
Qed.

Lemma hints_are_valid_moves_witness :
  let a := HintEngine.analyzeBoard Examples.twoSafe in
  (forall c, In c (guaranteedSafe a) \/ In c (guaranteedMines a) ->
             HintEngine.isValidMove c Examples.twoSafe = true)
  /\ (forall c, recommendedMove a = Some c ->
                HintEngine.isValidMove c Examples.twoSafe = true)
  /\ (forall count r, In r (HintEngine.getTopMoves Examples.twoSafe count) ->
                      HintEngine.isValidMove (coordinate r) Examples.twoSafe = true).
Proof. apply (hints_are_valid_moves Examples.twoSafe). vm_compute. reflexivity. Defined.

(** ** Soundness on a truthful board *)

Lemma mineAt_cell gb n :
  Board.wf gb = true -> In n (Board.scan gb) ->
  mineAt gb (target (coordinates n)) = hasMine n.
Proof.
  intros Hwf Hn. destruct (wf_scan_target gb n Hwf Hn) as (Hat & Hx & Hy).
  unfold mineAt, Board.getCell.
  rewrite (proj2 (isValidCoordinate_spec gb _ _) (conj Hx Hy)). cbn [negb].
  now rewrite Hat.
Qed.

Lemma filter_ext_in {A} (p q : A -> bool) l :
  (forall a, In a l -> p a = q a) -> filter p l = filter q l.
Proof.
  induction l as [|a l IH]; intros H; [reflexivity|]. cbn [filter].
  rewrite (H a (or_introl eq_refl)), IH; [reflexivity|]. intros; apply H; now right.
Qed.

Lemma mines_split (N : list Cell) :
  (forall n, In n N -> (isRevealed n = true -> hasMine n = false)
                       /\ (isFlagged n = true -> hasMine n = true)) ->
  List.length (filter hasMine N)
  = (List.length (filter isFlagged N)
     + List.length (filter hasMine (filter ProbabilityCalculator.isUnknown N)))%nat.
Proof.
  induction N as [|n N IH]; intros H; [reflexivity|].
  specialize (IH (fun m Hm => H m (or_intror Hm))).
  destruct (H n (or_introl eq_refl)) as [Hr Hf].
  cbn [filter]. unfold ProbabilityCalculator.isUnknown at 1.
  destruct (isRevealed n), (isFlagged n), (hasMine n) eqn:Em;
    cbn [negb andb filter List.length]; rewrite ?Em; cbn [List.length];
    try (specialize (Hr eq_refl)); try (specialize (Hf eq_refl)); try congruence; lia.
Qed.

Lemma truthful_satisfies gb c :
  Board.wf gb = true -> truthful gb = true ->
  In c (ConstraintSolver.extractConstraints gb) ->
  Spec.satisfies (mineAt gb) c.
Proof.
  intros Hwf Ht Hc.
  destruct (In_extractConstraints gb c Hc) as (cell & Hcell & _ & Hreq & Haff & _).
  unfold truthful in Ht. rewrite forallb_forall in Ht.
  apply filter_In in Hcell. destruct Hcell as [Hcell Hrev].
  pose proof (Ht cell Hcell) as Hcell'. rewrite Hrev in Hcell'. cbn [negb orb] in Hcell'.
  apply andb_prop in Hcell'. destruct Hcell' as [Hnum _].
  apply andb_prop in Hnum. destruct Hnum as [_ Hnum]. apply Z.eqb_eq in Hnum.
  unfold Spec.satisfies, Spec.minesOn. rewrite Hreq, Haff, Hnum.
  unfold mineNeighbours, Spec.flaggedNeighbours, Spec.neighbours.
  set (N := Board.getAdjacentCells gb _ _).
  assert (forall n, In n N -> In n (Board.scan gb)) as HN
    by (intros n Hn; eapply getAdjacentCells_scan; exact Hn).
  rewrite filter_map_comm, length_map.
  rewrite (filter_ext_in _ hasMine).
  - rewrite (mines_split N); [lia|].
    intros n Hn. specialize (Ht n (HN n Hn)).
    apply andb_prop in Ht. destruct Ht as [H1 H2]. split.
    + intros E. rewrite E in H1. cbn [negb orb] in H1.
      apply andb_prop in H1. destruct H1 as [H1 _]. now destruct (hasMine n).
    + intros E. rewrite E in H2. exact H2.
  - intros n Hn. apply filter_In in Hn. destruct Hn as [Hn _].
    apply mineAt_cell; auto.
Qed.

(** X11: on a truthful board the solver tells the truth.  If every revealed
    cell of a well-formed board is free of mines and shows the number of
    mines around it, and every flag sits on a mine, then no cell of the
    guaranteed safe list holds a mine, every cell of the guaranteed mine list
    holds one, and the extracted constraints pass [validateConstraints]. *)
Theorem findGuaranteedMoves_truthful (gb : GameBoard) :
  Board.wf gb = true -> truthful gb = true ->
  (forall c, In c (fst (ConstraintSolver.findGuaranteedMoves gb)) -> mineAt gb c = false)
  /\ (forall c, In c (snd (ConstraintSolver.findGuaranteedMoves gb)) -> mineAt gb c = true)
  /\ ConstraintSolver.validateConstraints (ConstraintSolver.extractConstraints gb) = true.
Proof.
  intros Hwf Ht.
  assert (soundSets (mineAt gb)
            (ConstraintSolver.guaranteedSets (ConstraintSolver.extractConstraints gb)))
    as [Hs Hm].
  { apply guaranteedSets_sound. intros c Hc. split.
    - now apply truthful_satisfies.
    - now apply (affectedCells_keys_NoDup gb). }
  unfold ConstraintSolver.findGuaranteedMoves. cbv zeta. cbn [fst snd].
  split; [|split].
  - intros c Hc. apply in_map_iff in Hc. destruct Hc as (s & <- & H). now apply Hs.
  - intros c Hc. apply in_map_iff in Hc. destruct Hc as (s & <- & H). now apply Hm.
  - unfold ConstraintSolver.validateConstraints. apply forallb_forall. intros c Hc.
    pose proof (truthful_satisfies gb c Hwf Ht Hc) as Hsat.
    destruct (In_extractConstraints gb c Hc) as (_ & _ & _ & _ & _ & H0 & _).
    unfold Spec.satisfies, Spec.minesOn in Hsat.
    pose proof (filter_length_le (fun r => mineAt gb (target r)) (affectedCells c)) as Hle.
    apply andb_true_intro. split; apply negb_true_iff; apply Z.ltb_ge; lia.
Qed.

Lemma findGuaranteedMoves_truthful_witness :
  (forall c, In c (fst (ConstraintSolver.findGuaranteedMoves Examples.subsetBoard)) ->
             mineAt Examples.subsetBoard c = false)
  /\ (forall c, In c (snd (ConstraintSolver.findGuaranteedMoves Examples.subsetBoard)) ->
                mineAt Examples.subsetBoard c = true)
  /\ ConstraintSolver.validateConstraints
       (ConstraintSolver.extractConstraints Examples.subsetBoard) = true.
Proof.
  apply (findGuaranteedMoves_truthful Examples.subsetBoard); vm_compute; reflexivity.
Defined.

(** ** The solver and the calculator agree *)

Lemma mineCount_fold a cells : forall n0,
  fold_left (fun n coord =>
     if ProbabilityCalculator.isTrue a (ProbabilityCalculator.keyOf coord)
     then n + 1 else n) cells n0
  = n0 + Spec.minesOn (sigmaOf a) cells.
Proof.
  unfold Spec.minesOn.
  induction cells as [|r cells IH]; intros n0; cbn [fold_left filter]; [cbn; lia|].
  rewrite IH. unfold sigmaOf at 2.
  change (ProbabilityCalculator.coordToString (target r))
    with (ProbabilityCalculator.keyOf r).
  destruct (ProbabilityCalculator.isTrue a _); cbn [List.length]; lia.
Qed.

Lemma isValidAssignment_satisfies a cs :
  ProbabilityCalculator.isValidAssignment a cs = true <->
  forall c, In c cs -> Spec.satisfies (sigmaOf a) c.
Proof.
  unfold ProbabilityCalculator.isValidAssignment. rewrite forallb_forall.
  split; intros H c Hc; specialize (H c Hc); cbv zeta in *;
    rewrite mineCount_fold in *; unfold Spec.satisfies in *;
    [apply Z.eqb_eq in H|apply Z.eqb_eq]; lia.
Qed.

Lemma In_frontierKeys gb c r :
  In c (ConstraintSolver.extractConstraints gb) -> In r (affectedCells c) ->
  In (ProbabilityCalculator.keyOf r) (frontierKeys gb).
Proof.
  unfold frontierKeys.
  assert (forall cs s0,
            (In (ProbabilityCalculator.keyOf r) s0
             \/ exists c, In c cs /\ In r (affectedCells c)) ->
            In (ProbabilityCalculator.keyOf r)
               (fold_left (fun s c =>
                  fold_left (fun s' coord =>
                               JS.set_add s' (ProbabilityCalculator.keyOf coord))
                            (affectedCells c) s) cs s0)) as H.
  { induction cs as [|k cs IH]; intros s0 H0; cbn [fold_left].
    - destruct H0 as [H0|(k & [] & _)]. exact H0.
    - apply IH. destruct H0 as [H0|(k' & [<-|Hk] & Hr)].
      + left. apply set_add_fold_In. now left.
      + left. apply set_add_fold_In. right. now apply in_map.
      + right. eauto. }
  intros Hc Hr. apply H. right. eauto.
Qed.

Lemma affected_cell_constrained gb c r :
  In c (ConstraintSolver.extractConstraints gb) -> In r (affectedCells c) ->
  In r (constrainedCoords gb).
Proof.
  intros Hc Hr. apply filter_In. split.
  - apply In_unknownCells. destruct (affected_cell_unknown gb c r Hc Hr) as (n & H).
    exists n. exact H.
  - apply set_has_In. now apply (In_frontierKeys gb c r).
Qed.

Lemma countIf_none {A} (P : A -> bool) l :
  (forall a, In a l -> P a = false) -> countIf P l = 0.
Proof.
  intros H. unfold countIf.
  induction l as [|a l IH]; [reflexivity|]. cbn [filter].
  rewrite (H a (or_introl eq_refl)). apply IH. intros; apply H; now right.
Qed.

Lemma countIf_all {A} (P : A -> bool) l :
  (forall a, In a l -> P a = true) -> countIf P l = Z.of_nat (List.length l).
Proof.
  intros H. unfold countIf. f_equal.
  induction l as [|a l IH]; [reflexivity|]. cbn [filter].
  rewrite (H a (or_introl eq_refl)). cbn [List.length]. f_equal.
  apply IH. intros; apply H; now right.
Qed.

Lemma marginal_count cs cells c :
  In c cells ->
  ProbabilityCalculator.generateValidAssignments cs cells <> [] ->
  marginal cs cells c
  = (inject_Z (countIf (fun a => ProbabilityCalculator.isTrue a
                                   (ProbabilityCalculator.keyOf c))
                       (ProbabilityCalculator.generateValidAssignments cs cells))
     / inject_Z (Z.of_nat (List.length
                   (ProbabilityCalculator.generateValidAssignments cs cells))))%Q.
Proof.
  intros Hc Hne. unfold marginal. cbv zeta.
  destruct (Z.of_nat (List.length _) =? 0) eqn:E.
  - apply Z.eqb_eq in E.
    destruct (ProbabilityCalculator.generateValidAssignments cs cells);
      [congruence|cbn [List.length] in E; lia].
  - rewrite (mineCountsOf_In cs cells c Hc), mines_total_count; [reflexivity|].
    intros a Ha. destruct (In_generateValidAssignments cs cells a Ha) as (i & -> & _).
    apply assignmentOf_NoDup.
Qed.

(** The keys of the two sets of [findGuaranteedMoves] are keys of frontier
    cells; when some assignment is valid, the marginal of a cell of the safe
    set is 0 and that of a cell of the mine set is 1. *)
Lemma guaranteed_marginals gb :
  Board.wf gb = true ->
  ProbabilityCalculator.generateValidAssignments
    (ConstraintSolver.extractConstraints gb) (constrainedCoords gb) <> [] ->
  let cs := ConstraintSolver.extractConstraints gb in
  let cells := constrainedCoords gb in
  (forall s, In s (fst (ConstraintSolver.guaranteedSets cs)) ->
     exists k, In k cells /\ ConstraintSolver.keyOf k = s
               /\ (marginal cs cells k == 0)%Q)
  /\ (forall s, In s (snd (ConstraintSolver.guaranteedSets cs)) ->
        exists k, In k cells /\ ConstraintSolver.keyOf k = s
                  /\ (marginal cs cells k == 1)%Q).
Proof.
  intros Hwf Hne cs cells.
  set (valid := ProbabilityCalculator.generateValidAssignments cs cells).
  assert (forall a, In a valid ->
            soundSets (sigmaOf a) (ConstraintSolver.guaranteedSets cs)) as Hsound.
  { intros a Ha. apply guaranteedSets_sound. intros c Hc. split.
    - destruct (In_generateValidAssignments cs cells a Ha) as (_ & _ & Hv).
      now apply (proj1 (isValidAssignment_satisfies a cs) Hv).
    - now apply (affectedCells_keys_NoDup gb). }
  assert (forall s, In s (fst (ConstraintSolver.guaranteedSets cs))
                    \/ In s (snd (ConstraintSolver.guaranteedSets cs)) ->
            exists k, In k cells /\ ConstraintSolver.keyOf k = s) as Hkey.
  { apply guaranteedSets_ind. intros c r Hc Hr. exists r. split; [|reflexivity].
    now apply (affected_cell_constrained gb c r). }
  assert (0 < Z.of_nat (List.length valid)) as Hlen.
  { unfold valid. fold cs cells in Hne.
    destruct (ProbabilityCalculator.generateValidAssignments cs cells);
      [congruence|cbn [List.length]; lia]. }
  assert (0 < inject_Z (Z.of_nat (List.length valid)))%Q as HlenQ
    by (apply (inject_Z_lt 0); exact Hlen).
  split; intros s Hs.
  - destruct (Hkey s (or_introl Hs)) as (k & Hk & <-).
    exists k. split; [exact Hk|]. split; [reflexivity|].
    rewrite (marginal_count cs cells k Hk Hne). fold valid.
    rewrite countIf_none.
    + unfold Qdiv. now rewrite Qmult_0_l.
    + intros a Ha. destruct (Hsound a Ha) as [H0 _]. specialize (H0 _ Hs).
      rewrite stringToCoord_keyOf in H0. exact H0.
  - destruct (Hkey s (or_intror Hs)) as (k & Hk & <-).
    exists k. split; [exact Hk|]. split; [reflexivity|].
    rewrite (marginal_count cs cells k Hk Hne). fold valid.
    rewrite countIf_all.
    + apply Qmult_inv_r. intros E. rewrite E in HlenQ. now apply Qlt_irrefl in HlenQ.
    + intros a Ha. destruct (Hsound a Ha) as [_ H1]. specialize (H1 _ Hs).
      rewrite stringToCoord_keyOf in H1. exact H1.
Qed.

Lemma constrained_entry gb k :
  Board.wf gb = true -> In k (constrainedCoords gb) ->
  In (k, marginal (ConstraintSolver.extractConstraints gb) (constrainedCoords gb) k)
     (ProbabilityCalculator.calculateProbabilities gb).
Proof.
  intros Hwf Hk. rewrite (calculateProbabilities_eq gb Hwf). apply in_or_app. left.
  apply in_map_iff. exists k. now split.
Qed.

(** X12: the probabilities of the guaranteed cells.  On a well-formed board
    whose enumeration finds at least one valid assignment, every guaranteed
    safe cell of [findGuaranteedMoves] is a key of the map of
    [calculateProbabilities] with the value 0, and every guaranteed mine is
    a key with the value 1. *)
Theorem guaranteed_cells_probabilities (gb : GameBoard) :
  Board.wf gb = true ->
  ProbabilityCalculator.generateValidAssignments
    (ConstraintSolver.extractConstraints gb) (constrainedCoords gb) <> [] ->
  (forall c, In c (fst (ConstraintSolver.findGuaranteedMoves gb)) ->
     exists k p, In (k, p) (ProbabilityCalculator.calculateProbabilities gb)
                 /\ target k = c /\ (p == 0)%Q)
  /\ (forall c, In c (snd (ConstraintSolver.findGuaranteedMoves gb)) ->
        exists k p, In (k, p) (ProbabilityCalculator.calculateProbabilities gb)
                    /\ target k = c /\ (p == 1)%Q).
Proof.
  intros Hwf Hne. destruct (guaranteed_marginals gb Hwf Hne) as [Hs Hm].
  cbv zeta in Hs, Hm.
  unfold ConstraintSolver.findGuaranteedMoves. cbv zeta. cbn [fst snd].
  split; intros c Hc; apply in_map_iff in Hc; destruct Hc as (s & <- & Hin).
  - destruct (Hs s Hin) as (k & Hk & <- & H0).
    exists k, (marginal (ConstraintSolver.extractConstraints gb) (constrainedCoords gb) k).
    split; [now apply constrained_entry|].
    split; [symmetry; apply stringToCoord_keyOf|exact H0].
  - destruct (Hm s Hin) as (k & Hk & <- & H1).
    exists k, (marginal (ConstraintSolver.extractConstraints gb) (constrainedCoords gb) k).
    split; [now apply constrained_entry|].
    split; [symmetry; apply stringToCoord_keyOf|exact H1].
Qed.

Lemma guaranteed_cells_probabilities_witness :
  (forall c, In c (fst (ConstraintSolver.findGuaranteedMoves Examples.subsetBoard)) ->
     exists k p,
       In (k, p) (ProbabilityCalculator.calculateProbabilities Examples.subsetBoard)
       /\ target k = c /\ (p == 0)%Q)
  /\ (forall c, In c (snd (ConstraintSolver.findGuaranteedMoves Examples.subsetBoard)) ->
        exists k p,
          In (k, p) (ProbabilityCalculator.calculateProbabilities Examples.subsetBoard)
          /\ target k = c /\ (p == 1)%Q).
Proof.
  apply (guaranteed_cells_probabilities Examples.subsetBoard).
  - vm_compute. reflexivity.
  - vm_compute. discriminate.
Defined.

(** ** The adjustment and the guaranteed cells *)

(** What the adjustment does to one entry of the map. *)
Lemma rescale_entry gb k p :
  Spec.inUnit p ->
  let p' := snd (rescale gb (k, p)) in
  (0 <= p' <= p)%Q
  /\ (ProbabilityCalculator.earlyGame gb
      && ProbabilityCalculator.isEdge gb (target k) = false -> p' = p)
  /\ ((p == 0)%Q -> (p' == 0)%Q)
  /\ ((p == 1)%Q -> (p' == mineValue gb (target k))%Q).
Proof.
  intros [H0 H1].
  assert (ProbabilityCalculator.isCorner gb (target k) = true ->
          ProbabilityCalculator.isEdge gb (target k) = true) as Hce.
  { unfold ProbabilityCalculator.isCorner, ProbabilityCalculator.isEdge.
    rewrite !andb_true_iff, !orb_true_iff. tauto. }
  unfold rescale, mineValue. cbn [fst snd].
  destruct (ProbabilityCalculator.earlyGame gb);
    destruct (ProbabilityCalculator.isCorner gb (target k)) eqn:Ec;
    destruct (ProbabilityCalculator.isEdge gb (target k)) eqn:Ee; cbn [snd andb];
    try (specialize (Hce eq_refl); discriminate Hce);
    repeat split; intros; try discriminate; try reflexivity; try lra.
Qed.

Lemma adjusted_entry gb k p :
  In (k, p) (ProbabilityCalculator.calculateProbabilities gb) ->
  In (k, snd (rescale gb (k, p))) (probabilities (HintEngine.analyzeBoard gb))
  /\ map_get (probabilities (HintEngine.analyzeBoard gb)) k
     = Some (snd (rescale gb (k, p))).
Proof.
  intros Hin. pose proof (calculateProbabilities_NoDup gb) as Hnd.
  change (probabilities (HintEngine.analyzeBoard gb))
    with (ProbabilityCalculator.handleEdgeCases gb
            (ProbabilityCalculator.calculateProbabilities gb)).
  assert (In (k, snd (rescale gb (k, p)))
             (ProbabilityCalculator.handleEdgeCases gb
                (ProbabilityCalculator.calculateProbabilities gb))) as H.
  { rewrite handleEdgeCases_map by exact Hnd.
    apply in_map_iff. exists (k, p). split; [|assumption].
    rewrite (surjective_pairing (rescale gb (k, p))). now rewrite rescale_fst. }
  split; [exact H|]. apply In_map_get; [|exact H]. now rewrite handleEdgeCases_addrs.
Qed.

Lemma analysis_target_NoDup gb :
  Board.wf gb = true ->
  NoDup (map target (Spec.keys (probabilities (HintEngine.analyzeBoard gb)))).
Proof.
  intros Hwf.
  change (probabilities (HintEngine.analyzeBoard gb))
    with (ProbabilityCalculator.handleEdgeCases gb
            (ProbabilityCalculator.calculateProbabilities gb)).
  replace (Spec.keys (ProbabilityCalculator.handleEdgeCases gb
                        (ProbabilityCalculator.calculateProbabilities gb)))
    with (Spec.keys (ProbabilityCalculator.calculateProbabilities gb)).
  2: { rewrite handleEdgeCases_map by apply calculateProbabilities_NoDup.
       unfold Spec.keys. rewrite map_map. symmetry. apply map_ext.
       intros e. apply rescale_fst. }
  unfold Spec.keys.
  apply (Permutation_NoDup (l := map target (unknownCells gb))).
  - apply Permutation_map. symmetry.
    rewrite calculateProbabilities_eq by exact Hwf.
    rewrite map_app, !map_map. simpl. rewrite !map_id. apply filter_partition.
  - now apply unknownCells_target_NoDup.
Qed.

Lemma lookupCell_In (m : ProbabilityMap) k p :
  NoDup (map target (Spec.keys m)) -> In (k, p) m ->
  Spec.lookupCell m (target k) = Some p.
Proof.
  assert (forall a b, HintEngine.sameCell a b = true <-> a = b) as Hsame.
  { intros [ax ay] [bx by']. unfold HintEngine.sameCell. cbn [x y].
    rewrite andb_true_iff, !Z.eqb_eq. split; [intros [-> ->]; reflexivity|].
    intros E. inversion E. auto. }
  unfold Spec.lookupCell, Spec.keys.
  induction m as [|[k0 p0] m IH]; intros Hnd Hin; [destruct Hin|].
  cbn [map fst] in Hnd. inversion Hnd as [|? ? Hnot Hnd']; subst.
  cbn [find fst]. destruct (HintEngine.sameCell (target k0) (target k)) eqn:E.
  - destruct Hin as [Heq|Hin]; [now inversion Heq|].
    exfalso. apply Hnot. apply Hsame in E. rewrite E.
    apply in_map_iff. exists k. split; [reflexivity|].
    apply in_map_iff. exists (k, p). now split.
  - destruct Hin as [Heq|Hin]; [|now apply IH].
    inversion Heq; subst. assert (HintEngine.sameCell (target k) (target k) = true) as E'
      by now apply Hsame. congruence.
Qed.

(** C4, as stated, fails, in two ways.  On [Examples.earlyMines] one cell of
    twelve is revealed, a valid assignment exists, the cell (1,0) on the top
    edge is a guaranteed mine, and the returned map holds 0.9 for it.  On
    [Examples.twoComponents], where a wrong flag makes the constraints
    contradict each other, the game is past its early phase, the enumeration
    finds no valid assignment, every frontier cell is stored at 0.5, and the
    guaranteed-safe cell (6,0) is returned with 0.5. *)
Lemma handleEdgeCases_guaranteed_counterexample :
  (Board.wf Examples.earlyMines = true
   /\ ProbabilityCalculator.generateValidAssignments
        (ConstraintSolver.extractConstraints Examples.earlyMines)
        (constrainedCoords Examples.earlyMines) <> []
   /\ In (mkCoordinate 1 0) (guaranteedMines (HintEngine.analyzeBoard Examples.earlyMines))
   /\ Spec.lookupCell (probabilities (HintEngine.analyzeBoard Examples.earlyMines))
                      (mkCoordinate 1 0) = Some (9 # 10)%Q
   /\ ~ guaranteedKept (HintEngine.analyzeBoard Examples.earlyMines))
  /\ (Board.wf Examples.twoComponents = true
      /\ ProbabilityCalculator.earlyGame Examples.twoComponents = false
      /\ ProbabilityCalculator.generateValidAssignments
           (ConstraintSolver.extractConstraints Examples.twoComponents)
           (constrainedCoords Examples.twoComponents) = []
      /\ In (mkCoordinate 6 0)
            (guaranteedSafe (HintEngine.analyzeBoard Examples.twoComponents))
      /\ Spec.lookupCell (probabilities (HintEngine.analyzeBoard Examples.twoComponents))
                         (mkCoordinate 6 0) = Some (1 # 2)%Q
      /\ ~ guaranteedKept (HintEngine.analyzeBoard Examples.twoComponents)).
Proof.
  split.
  - split; [vm_compute; reflexivity|]. split; [vm_compute; discriminate|].
    split; [vm_compute; auto|]. split; [vm_compute; reflexivity|].
    intros [Hmines _].
    assert (9 # 10 == 1)%Q as H.
    { apply (Hmines (mkCoordinate 1 0)); vm_compute; auto. }
    discriminate H.
  - split; [vm_compute; reflexivity|]. split; [vm_compute; reflexivity|].
    split; [vm_compute; reflexivity|].
    split; [vm_compute; auto|]. split; [vm_compute; reflexivity|].
    intros [_ Hsafe].
    assert (1 # 2 == 0)%Q as H.
    { apply (Hsafe (mkCoordinate 6 0)); vm_compute; auto. }
    discriminate H.
Qed.

(** C4 (amended): the adjustment keeps the keys of the map and never raises
    a value.  It leaves an entry as it is outside the early phase and off
    the border; an entry that is 0 stays 0; an entry that is 1 stays 1,
    except on the border in the early phase, where it becomes 0.8 (corner)
    or 0.9 (edge).  So on a well-formed board whose enumeration finds a valid
    assignment, the map returned by [analyzeBoard] holds 0 for every
    guaranteed-safe cell and, for every guaranteed mine, 1, or 0.8 or 0.9 on
    the border in the early phase. *)
Theorem handleEdgeCases_guaranteed_values (gb : GameBoard) :
  let a := HintEngine.analyzeBoard gb in
  let probs := ProbabilityCalculator.calculateProbabilities gb in
  Spec.keys (probabilities a) = Spec.keys probs
  /\ (forall k p, In (k, p) probs ->
        exists p',
          In (k, p') (probabilities a)
          /\ map_get (probabilities a) k = Some p'
          /\ (0 <= p' <= p)%Q
          /\ (ProbabilityCalculator.earlyGame gb
              && ProbabilityCalculator.isEdge gb (target k) = false -> p' = p)
          /\ ((p == 0)%Q -> (p' == 0)%Q)
          /\ ((p == 1)%Q -> (p' == mineValue gb (target k))%Q))
  /\ (Board.wf gb = true ->
      ProbabilityCalculator.generateValidAssignments
        (ConstraintSolver.extractConstraints gb) (constrainedCoords gb) <> [] ->
      (forall c, In c (guaranteedSafe a) ->
         exists p', Spec.lookupCell (probabilities a) c = Some p' /\ (p' == 0)%Q)
      /\ (forall c, In c (guaranteedMines a) ->
            exists p', Spec.lookupCell (probabilities a) c = Some p'
                       /\ (p' == mineValue gb c)%Q)).
Proof.
  cbv zeta.
  assert (forall k p, In (k, p) (ProbabilityCalculator.calculateProbabilities gb) ->
            Spec.inUnit p) as Hunit.
  { intros k p Hin. pose proof (calculateProbabilities_in_unit gb) as H.
    rewrite Forall_forall in H. exact (H _ Hin). }
  split; [|split].
  - change (probabilities (HintEngine.analyzeBoard gb))
      with (ProbabilityCalculator.handleEdgeCases gb
              (ProbabilityCalculator.calculateProbabilities gb)).
    rewrite handleEdgeCases_map by apply calculateProbabilities_NoDup.
    unfold Spec.keys. rewrite map_map. apply map_ext. intros e. apply rescale_fst.
  - intros k p Hin. exists (snd (rescale gb (k, p))).
    destruct (adjusted_entry gb k p Hin) as [H1 H2].
    split; [exact H1|]. split; [exact H2|].
    exact (rescale_entry gb k p (Hunit k p Hin)).
  - intros Hwf Hne. destruct (guaranteed_marginals gb Hwf Hne) as [Hs Hm].
    cbv zeta in Hs, Hm.
    pose proof (analysis_target_NoDup gb Hwf) as Hnd.
    cbn [HintEngine.analyzeBoard guaranteedSafe guaranteedMines].
    unfold ConstraintSolver.findGuaranteedMoves. cbv zeta. cbn [fst snd].
    split; intros c Hc; apply in_map_iff in Hc; destruct Hc as (s & <- & Hin).
    + destruct (Hs s Hin) as (k & Hk & <- & H0).
      pose proof (constrained_entry gb k Hwf Hk) as He.
      destruct (adjusted_entry gb k _ He) as [H1 _].
      destruct (rescale_entry gb k _ (Hunit k _ He)) as (_ & _ & Hz & _).
      rewrite stringToCoord_keyOf. eexists. split; [exact (lookupCell_In _ k _ Hnd H1)|].
      now apply Hz.
    + destruct (Hm s Hin) as (k & Hk & <- & H0).
      pose proof (constrained_entry gb k Hwf Hk) as He.
      destruct (adjusted_entry gb k _ He) as [H1 _].
      destruct (rescale_entry gb k _ (Hunit k _ He)) as (_ & _ & _ & Ho).
      rewrite stringToCoord_keyOf. eexists. split; [exact (lookupCell_In _ k _ Hnd H1)|].
      now apply Ho.
Qed.

Lemma handleEdgeCases_guaranteed_values_witness :
  (forall c, In c (guaranteedSafe (HintEngine.analyzeBoard Examples.earlyMines)) ->
     exists p', Spec.lookupCell (probabilities (HintEngine.analyzeBoard Examples.earlyMines)) c
                = Some p' /\ (p' == 0)%Q)
  /\ (forall c, In c (guaranteedMines (HintEngine.analyzeBoard Examples.earlyMines)) ->
        exists p', Spec.lookupCell (probabilities (HintEngine.analyzeBoard Examples.earlyMines)) c
                   = Some p' /\ (p' == mineValue Examples.earlyMines c)%Q).
Proof.
  apply (proj2 (proj2 (handleEdgeCases_guaranteed_values Examples.earlyMines))).
  - vm_compute. reflexivity.
  - vm_compute. discriminate.
Defined.

(** ** Constraints that cannot be met *)

Lemma minesOn_range sigma cells :
  0 <= Spec.minesOn sigma cells <= Z.of_nat (List.length cells).
Proof.
  unfold Spec.minesOn.
  pose proof (filter_length_le (fun r => sigma (target r)) cells). lia.
Qed.

Lemma invalid_constraints_no_assignment cs a :
  ConstraintSolver.validateConstraints cs = false ->
  ProbabilityCalculator.isValidAssignment a cs = false.
Proof.
  intros H. destruct (ProbabilityCalculator.isValidAssignment a cs) eqn:E; [|reflexivity].
  exfalso. rewrite isValidAssignment_satisfies in E.
  assert (ConstraintSolver.validateConstraints cs = true) as H'; [|congruence].
  unfold ConstraintSolver.validateConstraints. apply forallb_forall. intros c Hc.
  specialize (E c Hc). unfold Spec.satisfies in E.
  pose proof (minesOn_range (sigmaOf a) (affectedCells c)).
  apply andb_true_intro. split; apply negb_true_iff; apply Z.ltb_ge; lia.
Qed.

(** X13: constraints that fail [validateConstraints] (one asks for a
    negative number of mines, or for more mines than it has cells) admit no
    assignment: the enumeration returns nothing and
    [calculateConstrainedProbabilities] gives every cell the uniform
    probability 0.5. *)
Theorem invalid_constraints_uniform (cs : list Constraint) (cells : list CoordinateRef) :
  ConstraintSolver.validateConstraints cs = false ->
  NoDup (map addr cells) ->
  ProbabilityCalculator.generateValidAssignments cs cells = []
  /\ ProbabilityCalculator.calculateConstrainedProbabilities cs cells
     = map (fun c => (c, (1 # 2)%Q)) cells.
Proof.
  intros Hinv Hnd.
  assert (ProbabilityCalculator.generateValidAssignments cs cells = []) as Hnil.
  { unfold ProbabilityCalculator.generateValidAssignments. cbv zeta.
    induction (JS.range _) as [|i l IH]; [reflexivity|].
    cbn [flat_map]. rewrite IH, invalid_constraints_no_assignment by exact Hinv.
    reflexivity. }
  split; [exact Hnil|].
  rewrite (calculateConstrainedProbabilities_eq cs cells Hnd).
  apply map_ext. intros c. unfold marginal. cbv zeta. now rewrite Hnil.
Qed.

Lemma invalid_constraints_uniform_witness :
  ProbabilityCalculator.generateValidAssignments
    (ConstraintSolver.extractConstraints Examples.overdrawn)
    (constrainedCoords Examples.overdrawn) = []
  /\ ProbabilityCalculator.calculateConstrainedProbabilities
       (ConstraintSolver.extractConstraints Examples.overdrawn)
       (constrainedCoords Examples.overdrawn)
     = map (fun c => (c, (1 # 2)%Q)) (constrainedCoords Examples.overdrawn).
Proof.
  apply (invalid_constraints_uniform
           (ConstraintSolver.extractConstraints Examples.overdrawn)
           (constrainedCoords Examples.overdrawn)).
  - vm_compute. reflexivity.
  - apply distinct_NoDup. vm_compute. reflexivity.
Defined.

(** ** The cap of the enumeration *)

Lemma isMineBit_high i j :
  0 <= i < 1000000 -> 20 <= j < 32 -> ProbabilityCalculator.isMineBit i j = false.
Proof.
  intros Hi Hj.
  assert (i < 2 ^ 20) as Hi20 by (change (2 ^ 20) with 1048576; lia).
  assert (forall n, 20 <= n -> Z.testbit i n = false) as Hbits.
  { intros n Hn. destruct (Z.eq_dec i 0) as [->|Hne]; [apply Z.bits_0|].
    apply Z.bits_above_log2; [lia|].
    assert (Z.log2 i < 20) by (apply Z.log2_lt_pow2; lia). lia. }
  destruct (Z.eq_dec j 31) as [->|Hne].
  - unfold ProbabilityCalculator.isMineBit, JS.band.
    change (JS.shl 1 31) with (- 2 ^ 31).
    rewrite (toInt32_small i) by (change (2 ^ 31) with 2147483648; lia).
    rewrite (toInt32_small (- 2 ^ 31)) by (change (2 ^ 31) with 2147483648; lia).
    replace (Z.land i (- 2 ^ 31)) with 0; [reflexivity|].
    symmetry. apply Z.bits_inj'. intros n Hn. rewrite Z.land_spec, Z.bits_0.
    destruct (Z_lt_dec n 31) as [Hlt|Hge].
    + replace (- 2 ^ 31) with (Z.lnot (Z.ones 31)) by reflexivity.
      rewrite Z.lnot_spec by exact Hn. rewrite Z.ones_spec_low by lia.
      apply andb_false_r.
    + rewrite Hbits by lia. reflexivity.
  - rewrite isMineBit_testbit; [apply Hbits; lia| |lia].
    change (2 ^ 31) with 2147483648. lia.
Qed.

Lemma dict_get_indexed {V} (keys : list string) (f : nat -> V) n : forall s j,
  NoDup keys -> (s <= j < s + n)%nat -> (s + n <= List.length keys)%nat ->
  JS.dict_get (map (fun k => (nth k keys EmptyString, f k)) (seq s n))
              (nth j keys EmptyString)
  = Some (f j).
Proof.
  induction n as [|n IH]; intros s j Hnd Hj Hlen; [lia|].
  cbn [seq map JS.dict_get].
  destruct (String.eqb (nth j keys EmptyString) (nth s keys EmptyString)) eqn:E.
  - apply String.eqb_eq in E.
    apply (proj1 (NoDup_nth keys EmptyString) Hnd) in E; [now subst| lia | lia].
  - apply IH; [exact Hnd| |lia].
    destruct (Nat.eq_dec j s) as [->|Hne]; [|lia].
    rewrite String.eqb_refl in E. discriminate.
Qed.

Lemma assignmentOf_isTrue keys i j :
  NoDup keys -> (j < List.length keys)%nat ->
  ProbabilityCalculator.isTrue (ProbabilityCalculator.assignmentOf keys i)
                               (nth j keys EmptyString)
  = ProbabilityCalculator.isMineBit i (Z.of_nat j).
Proof.
  intros Hnd Hj. rewrite (assignmentOf_eq keys i Hnd).
  unfold ProbabilityCalculator.isTrue.
  rewrite (dict_get_indexed keys (fun k => ProbabilityCalculator.isMineBit i (Z.of_nat k)))
    by (auto; lia).
  now destruct (ProbabilityCalculator.isMineBit i (Z.of_nat j)).
Qed.

Lemma In_generateValidAssignments_range cs cells a :
  In a (ProbabilityCalculator.generateValidAssignments cs cells) ->
  exists i, 0 <= i < 1000000
            /\ a = ProbabilityCalculator.assignmentOf
                     (map ProbabilityCalculator.keyOf cells) i.
Proof.
  unfold ProbabilityCalculator.generateValidAssignments. cbv zeta.
  intros H. apply in_flat_map in H. destruct H as (i & Hi & H).
  apply In_range in Hi.
  destruct (ProbabilityCalculator.isValidAssignment _ cs); [|destruct H].
  destruct H as [<-|[]]. exists i. split; [lia|reflexivity].
Qed.

(** X14: the enumeration stops at one million combinations, and the counter
    never reaches the binary digits 20 to 31.  So on a frontier of more than
    twenty cells no enumerated assignment puts a mine on the 21st to 32nd
    cell, and whenever some assignment is valid these cells get the
    probability 0, whatever the constraints say. *)
Theorem cells_beyond_the_cap_get_zero
    (cs : list Constraint) (cells : list CoordinateRef) (j : nat) (c : CoordinateRef) :
  NoDup (map addr cells) ->
  NoDup (map ProbabilityCalculator.keyOf cells) ->
  nth_error cells j = Some c -> (20 <= j < 32)%nat ->
  ProbabilityCalculator.generateValidAssignments cs cells <> [] ->
  (forall a, In a (ProbabilityCalculator.generateValidAssignments cs cells) ->
             ProbabilityCalculator.isTrue a (ProbabilityCalculator.keyOf c) = false)
  /\ exists p,
       map_get (ProbabilityCalculator.calculateConstrainedProbabilities cs cells) c
       = Some p
       /\ (p == 0)%Q.
Proof.
  intros Hna Hnk Hc Hj Hne.
  assert (In c cells) as Hin by (eapply nth_error_In; exact Hc).
  assert (j < List.length cells)%nat as Hlt by (apply nth_error_Some; congruence).
  assert (nth j (map ProbabilityCalculator.keyOf cells) EmptyString
          = ProbabilityCalculator.keyOf c) as Hkey.
  { rewrite (nth_indep _ EmptyString (ProbabilityCalculator.keyOf c))
      by (rewrite length_map; exact Hlt).
    rewrite map_nth. f_equal. now apply nth_error_nth. }
  assert (forall a, In a (ProbabilityCalculator.generateValidAssignments cs cells) ->
            ProbabilityCalculator.isTrue a (ProbabilityCalculator.keyOf c) = false)
    as Hfalse.
  { intros a Ha. destruct (In_generateValidAssignments_range cs cells a Ha) as (i & Hi & ->).
    rewrite <- Hkey, assignmentOf_isTrue by (auto; rewrite length_map; exact Hlt).
    apply isMineBit_high; [exact Hi|lia]. }
  split; [exact Hfalse|].
  exists (marginal cs cells c).
  split; [now apply calculateConstrainedProbabilities_get|].
  rewrite (marginal_count cs cells c Hin Hne), countIf_none by exact Hfalse.
  unfold Qdiv. now rewrite Qmult_0_l.
Qed.

Lemma cells_beyond_the_cap_get_zero_witness :
  (forall a, In a (ProbabilityCalculator.generateValidAssignments [] Examples.wideFrontier) ->
             ProbabilityCalculator.isTrue a "20,0" = false)
  /\ exists p,
       map_get (ProbabilityCalculator.calculateConstrainedProbabilities
                  [] Examples.wideFrontier)
               (mkRef 20 (mkCoordinate 20 0)) = Some p
       /\ (p == 0)%Q.
Proof.
  apply (cells_beyond_the_cap_get_zero [] Examples.wideFrontier 20
           (mkRef 20 (mkCoordinate 20 0))).
  - apply distinct_NoDup. vm_compute. reflexivity.
  - unfold Examples.wideFrontier. rewrite map_map.
    apply NoDup_map_in; [apply seq_NoDup|].
    intros a b _ _ E. apply coordToString_inj in E. injection E. lia.
  - vm_compute. reflexivity.
  - lia.
  - intros E.
    assert (In (ProbabilityCalculator.assignmentOf
                  (map ProbabilityCalculator.keyOf Examples.wideFrontier) 0)
               (ProbabilityCalculator.generateValidAssignments [] Examples.wideFrontier))
      as H; [|rewrite E in H; destruct H].
    unfold ProbabilityCalculator.generateValidAssignments. cbv zeta.
    apply in_flat_map. exists 0. split; [|now left].
    apply In_range. vm_compute. split; [discriminate|reflexivity].
Defined.

(** * The board *)

(** ** Writes to one cell *)

Lemma replace_nth_compose {A} (f g : A -> A) n : forall l,
  Board.replace_nth n g (Board.replace_nth n f l)
  = Board.replace_nth n (fun a => g (f a)) l.
Proof.
  induction n as [|n IH]; intros [|a l]; cbn [Board.replace_nth]; try reflexivity.
  now rewrite IH.
Qed.

Lemma replace_nth_id {A} (f : A -> A) n : forall l,
  (forall a, nth_error l n = Some a -> f a = a) -> Board.replace_nth n f l = l.
Proof.
  induction n as [|n IH]; intros [|a l] H; cbn [Board.replace_nth]; try reflexivity.
  - now rewrite (H a eq_refl).
  - rewrite IH; [reflexivity|]. intros b Hb. now apply H.
Qed.

Lemma replace_nth_ext {A} (f g : A -> A) n : forall l,
  (forall a, nth_error l n = Some a -> f a = g a) ->
  Board.replace_nth n f l = Board.replace_nth n g l.
Proof.
  induction n as [|n IH]; intros [|a l] H; cbn [Board.replace_nth]; try reflexivity.
  - now rewrite (H a eq_refl).
  - rewrite (IH l); [reflexivity|]. intros b Hb. now apply H.
Qed.

Lemma update_update gb cx cy f g :
  Board.update (Board.update gb cx cy f) cx cy g
  = Board.update gb cx cy (fun c => g (f c)).
Proof.
  unfold Board.update. destruct ((cx <? 0) || (cy <? 0)) eqn:E; [reflexivity|].
  cbn [board width height mineCount]. f_equal.
  rewrite replace_nth_compose. apply replace_nth_ext. intros row _.
  apply replace_nth_compose.
Qed.

Lemma update_id gb cx cy f :
  (forall c, Board.at_ gb cx cy = Some c -> f c = c) -> Board.update gb cx cy f = gb.
Proof.
  intros H. unfold Board.update. destruct ((cx <? 0) || (cy <? 0)) eqn:E; [reflexivity|].
  destruct gb as [rows w h m]. cbn [board width height mineCount]. f_equal.
  apply replace_nth_id. intros row Hrow. apply replace_nth_id. intros c Hc.
  apply H. unfold Board.at_. rewrite E. cbn [board].
  now rewrite (nth_error_nth _ _ [] Hrow).
Qed.

Lemma getCell_update gb cx cy f c :
  Board.getCell gb cx cy = Some c ->
  Board.getCell (Board.update gb cx cy f) cx cy = Some (f c).
Proof.
  unfold Board.getCell.
  destruct (Board.isValidCoordinate gb cx cy) eqn:E; [|discriminate]. cbn [negb].
  intros Hat.
  assert (Board.isValidCoordinate (Board.update gb cx cy f) cx cy = true) as ->.
  { unfold Board.isValidCoordinate in *.
    destruct (update_dims gb cx cy f) as [-> ->]. exact E. }
  cbn [negb]. rewrite at_update, Hat.
  apply isValidCoordinate_spec in E.
  replace (0 <=? cx) with true by (symmetry; apply Z.leb_le; lia).
  replace (0 <=? cy) with true by (symmetry; apply Z.leb_le; lia).
  now rewrite !Z.eqb_refl.
Qed.

Lemma getCell_at gb cx cy c :
  Board.getCell gb cx cy = Some c -> Board.at_ gb cx cy = Some c.
Proof.
  unfold Board.getCell. now destruct (Board.isValidCoordinate gb cx cy).
Qed.

(** X15: flagging is undone by flagging again.  A second [toggleFlag] on the
    same position returns the same answer as the first and restores the
    board exactly; on a revealed cell or off the board both calls answer
    false and change nothing. *)
Theorem toggleFlag_twice (gb : GameBoard) (cx cy : Z) :
  Board.toggleFlag (snd (Board.toggleFlag gb cx cy)) cx cy
  = (fst (Board.toggleFlag gb cx cy), gb)
  /\ (fst (Board.toggleFlag gb cx cy) = false -> snd (Board.toggleFlag gb cx cy) = gb).
Proof.
  unfold Board.toggleFlag at 2 3 4.
  destruct (Board.getCell gb cx cy) as [cell|] eqn:E.
  - destruct (isRevealed cell) eqn:Er; cbn [fst snd].
    + unfold Board.toggleFlag. rewrite E, Er. auto.
    + split; [|discriminate]. unfold Board.toggleFlag.
      rewrite (getCell_update gb cx cy _ cell E). cbn [isRevealed]. rewrite Er.
      f_equal. rewrite update_update. apply update_id.
      intros c _. destruct c. cbn. now rewrite negb_involutive.
  - cbn [fst snd]. unfold Board.toggleFlag. rewrite E. auto.
Qed.

(** X16: [revealCell] succeeds exactly on the moves that [isValidMove]
    accepts (an unrevealed, unflagged cell of the board); a second
    [revealCell] on the same position is always refused and changes
    nothing; and after a successful reveal the cell can no longer be
    flagged. *)
Theorem revealCell_once (gb : GameBoard) (cx cy : Z) :
  fst (Board.revealCell gb cx cy) = HintEngine.isValidMove (mkCoordinate cx cy) gb
  /\ Board.revealCell (snd (Board.revealCell gb cx cy)) cx cy
     = (false, snd (Board.revealCell gb cx cy))
  /\ (fst (Board.revealCell gb cx cy) = true ->
      Board.toggleFlag (snd (Board.revealCell gb cx cy)) cx cy
      = (false, snd (Board.revealCell gb cx cy)))
  /\ (fst (Board.revealCell gb cx cy) = false -> snd (Board.revealCell gb cx cy) = gb).
Proof.
  unfold HintEngine.isValidMove. cbn [x y].
  unfold Board.revealCell at 1 3 4 5 6 7 8.
  destruct (Board.getCell gb cx cy) as [cell|] eqn:E.
  - destruct (isRevealed cell) eqn:Er; [|destruct (isFlagged cell) eqn:Ef];
      cbn [fst snd negb andb orb].
    + unfold Board.revealCell. rewrite E, Er. cbn. repeat split; auto; discriminate.
    + unfold Board.revealCell. rewrite E, Er, Ef. cbn. repeat split; auto; discriminate.
    + repeat split; try discriminate.
      * unfold Board.revealCell.
        now rewrite (getCell_update gb cx cy _ cell E).
      * intros _. unfold Board.toggleFlag.
        now rewrite (getCell_update gb cx cy _ cell E).
  - cbn [fst snd]. unfold Board.revealCell. rewrite E. repeat split; auto; discriminate.
Qed.

Lemma filter_none {A} (p : A -> bool) l :
  (forall a, In a l -> p a = false) -> filter p l = [].
Proof.
  induction l as [|a l IH]; intros H; [reflexivity|]. cbn [filter].
  rewrite (H a (or_introl eq_refl)). apply IH. intros; apply H; now right.
Qed.

(** X17: a board fresh from the constructor.  [getCell] returns, for every
    position inside the board, an unrevealed, unflagged cell without a mine,
    showing 0 and carrying its own position as coordinates, and [null] for
    every other position; so nothing is revealed, flagged or mined, and the
    stored mine count is the one passed in. *)
Theorem new_board_cells (w h mines : Z) :
  (forall cx cy,
     Board.getCell (Board.new w h mines) cx cy
     = if (0 <=? cx) && (cx <? w) && (0 <=? cy) && (cy <? h)
       then Some (mkCell false false false 0
                         (mkRef (Z.to_nat (cy * w + cx)) (mkCoordinate cx cy)))
       else None)
  /\ Board.getRevealedCells (Board.new w h mines) = []
  /\ Board.getFlaggedCells (Board.new w h mines) = []
  /\ Board.getMineCells (Board.new w h mines) = []
  /\ Board.getMineCount (Board.new w h mines) = mines
  /\ Board.getDimensions (Board.new w h mines) = (w, h).
Proof.
  assert (forall c, In c (Board.scan (Board.new w h mines)) ->
            hasMine c = false /\ isRevealed c = false /\ isFlagged c = false) as Hs.
  { intros c Hc. apply In_scan in Hc. destruct Hc as (cx & cy & Hx & Hy & Hat).
    cbn [width height Board.new] in Hx, Hy. rewrite new_at in Hat by assumption.
    injection Hat as <-. auto. }
  pose proof (fun p => @filter_none Cell p (Board.scan (Board.new w h mines))) as Hf.
  repeat split; try reflexivity.
  - intros cx cy. unfold Board.getCell, Board.isValidCoordinate.
    cbn [width height Board.new].
    destruct ((0 <=? cx) && (cx <? w) && (0 <=? cy) && (cy <? h)) eqn:E;
      [|reflexivity].
    cbn [negb]. apply new_at;
      repeat (apply andb_prop in E; destruct E as [E ?]); lia.
  - apply Hf. intros c Hc. now apply Hs.
  - apply Hf. intros c Hc. now apply Hs.
  - apply Hf. intros c Hc. now apply Hs.
Qed.

(** ** Loops that write to the cells *)

Section FoldAt.

Context {A : Type} (step : GameBoard -> A -> GameBoard)
        (hit : A -> Z -> Z -> bool) (F : Z -> Z -> Cell -> Cell)
        (Inv : GameBoard -> Prop).

Hypothesis F_idem : forall qx qy c, F qx qy (F qx qy c) = F qx qy c.

Hypothesis step_spec : forall g a, Inv g ->
  Inv (step g a)
  /\ forall qx qy,
       Board.at_ (step g a) qx qy
       = if hit a qx qy then option_map (F qx qy) (Board.at_ g qx qy)
         else Board.at_ g qx qy.

Lemma fold_at l : forall g, Inv g ->
  Inv (fold_left step l g)
  /\ forall qx qy,
       Board.at_ (fold_left step l g) qx qy
       = if existsb (fun a => hit a qx qy) l
         then option_map (F qx qy) (Board.at_ g qx qy)
         else Board.at_ g qx qy.
Proof.
  induction l as [|a l IH]; intros g Hg; cbn [fold_left existsb]; [now split|].
  destruct (step_spec g a Hg) as [Hi Hat]. destruct (IH (step g a) Hi) as [Hi' Hat'].
  split; [exact Hi'|]. intros qx qy. rewrite Hat', Hat.
  destruct (hit a qx qy), (existsb (fun a0 => hit a0 qx qy) l); cbn [orb];
    try reflexivity.
  destruct (Board.at_ g qx qy); cbn [option_map]; [now rewrite F_idem|reflexivity].
Qed.

End FoldAt.

Lemma update_sameShape g0 g cx cy f :
  sameShape g0 g -> sameShape g0 (Board.update g cx cy f).
Proof.
  unfold sameShape, Board.update. destruct ((cx <? 0) || (cy <? 0)); auto.
Qed.

Lemma positions_hit gb qx qy :
  Board.isValidCoordinate gb qx qy = true ->
  existsb (fun p => hitAt p qx qy) (Board.positions gb) = true.
Proof.
  intros H. apply isValidCoordinate_spec in H. apply existsb_exists.
  exists (qx, qy). split; [apply In_positions; cbn [fst snd]; lia|].
  unfold hitAt. cbn [fst snd]. rewrite !Z.eqb_refl.
  replace (0 <=? qx) with true by (symmetry; apply Z.leb_le; lia).
  replace (0 <=? qy) with true by (symmetry; apply Z.leb_le; lia).
  reflexivity.
Qed.

Lemma flat_map_ext_In {A B} (f g : A -> list B) l :
  (forall a, In a l -> f a = g a) -> flat_map f l = flat_map g l.
Proof.
  induction l as [|a l IH]; intros H; [reflexivity|]. cbn [flat_map].
  rewrite (H a (or_introl eq_refl)), IH; [reflexivity|]. intros; apply H; now right.
Qed.

Lemma scan_map g g' (f : Cell -> Cell) :
  width g' = width g -> height g' = height g ->
  (forall qx qy, Board.isValidCoordinate g qx qy = true ->
                 Board.at_ g' qx qy = option_map f (Board.at_ g qx qy)) ->
  Board.scan g' = map f (Board.scan g).
Proof.
  intros Hw Hh Hat. rewrite !scan_positions.
  replace (Board.positions g') with (Board.positions g)
    by (unfold Board.positions; now rewrite Hw, Hh).
  rewrite map_flat_map. apply flat_map_ext_In. intros p Hp.
  apply In_positions in Hp. unfold Board.push_cell.
  rewrite Hat by (apply isValidCoordinate_spec; lia).
  now destruct (Board.at_ g (fst p) (snd p)).
Qed.

(** A loop over all positions that applies the same idempotent change to
    every cell. *)
Lemma fold_positions_at gb (f : Cell -> Cell) :
  (forall c, f (f c) = f c) ->
  let g' := fold_left (fun g p => Board.update g (fst p) (snd p) f)
                      (Board.positions gb) gb in
  sameShape gb g'
  /\ (forall qx qy, Board.isValidCoordinate gb qx qy = true ->
                    Board.at_ g' qx qy = option_map f (Board.at_ gb qx qy))
  /\ Board.scan g' = map f (Board.scan gb).
Proof.
  intros Hf. cbv zeta.
  destruct (fold_at (fun g p => Board.update g (fst p) (snd p) f) hitAt
                    (fun _ _ => f) (sameShape gb) (fun _ _ => Hf)) with
    (l := Board.positions gb) (g := gb) as [Hs Hat].
  - intros g a Hg. split; [now apply update_sameShape|].
    intros qx qy. apply at_update.
  - unfold sameShape. auto.
  - assert (forall qx qy, Board.isValidCoordinate gb qx qy = true ->
              Board.at_ (fold_left (fun g p => Board.update g (fst p) (snd p) f)
                                   (Board.positions gb) gb) qx qy
              = option_map f (Board.at_ gb qx qy)) as Hv
      by (intros qx qy Hq; now rewrite Hat, positions_hit).
    split; [exact Hs|]. split; [exact Hv|].
    destruct Hs as (Hw & Hh & _). now apply scan_map.
Qed.

(** X18: [reset] hides every cell again and removes every flag, and leaves
    the mines, the numbers, the coordinates, the dimensions and the mine
    count as they are.  Afterwards nothing is revealed or flagged, and the
    solver finds no constraint and no guaranteed move. *)
Theorem reset_clears (gb : GameBoard) :
  Board.scan (Board.reset gb)
  = map (fun c => mkCell (hasMine c) false false (adjacentMines c) (coordinates c))
        (Board.scan gb)
  /\ Board.getRevealedCells (Board.reset gb) = []
  /\ Board.getFlaggedCells (Board.reset gb) = []
  /\ Board.getDimensions (Board.reset gb) = Board.getDimensions gb
  /\ Board.getMineCount (Board.reset gb) = Board.getMineCount gb
  /\ ConstraintSolver.findGuaranteedMoves (Board.reset gb) = ([], []).
Proof.
  destruct (fold_positions_at gb
              (fun c => mkCell (hasMine c) false false (adjacentMines c) (coordinates c))
              (fun _ => eq_refl)) as ((Hw & Hh & Hm) & _ & Hscan).
  fold (Board.reset gb) in Hw, Hh, Hm, Hscan.
  assert (Board.getRevealedCells (Board.reset gb) = []) as Hr.
  { unfold Board.getRevealedCells. rewrite Hscan. apply filter_none.
    intros c Hc. apply in_map_iff in Hc. now destruct Hc as (c0 & <- & _). }
  repeat split; auto.
  - unfold Board.getFlaggedCells. rewrite Hscan. apply filter_none.
    intros c Hc. apply in_map_iff in Hc. now destruct Hc as (c0 & <- & _).
  - unfold Board.getDimensions. now rewrite Hw, Hh.
  - unfold ConstraintSolver.findGuaranteedMoves, ConstraintSolver.extractConstraints.
    now rewrite Hr.
Qed.

(** ** Placing the mines *)

Lemma isValidCoordinate_shape g g' cx cy :
  width g' = width g -> height g' = height g ->
  Board.isValidCoordinate g' cx cy = Board.isValidCoordinate g cx cy.
Proof. intros Hw Hh. unfold Board.isValidCoordinate. now rewrite Hw, Hh. Qed.

Lemma mineNeighbours_ext g g' cx cy :
  width g' = width g -> height g' = height g ->
  (forall qx qy, option_map hasMine (Board.at_ g' qx qy)
                 = option_map hasMine (Board.at_ g qx qy)) ->
  mineNeighbours g' cx cy = mineNeighbours g cx cy.
Proof.
  intros Hw Hh H. unfold mineNeighbours, Board.getAdjacentCells. f_equal.
  induction Board.offsets as [|d l IH]; [reflexivity|].
  cbn [flat_map]. rewrite !filter_app, !length_app, IH. f_equal.
  rewrite (isValidCoordinate_shape g g' _ _ Hw Hh).
  destruct (Board.isValidCoordinate g _ _); [|reflexivity].
  unfold Board.push_cell. specialize (H (cx + fst d) (cy + snd d)).
  destruct (Board.at_ g' _ _) as [c'|], (Board.at_ g _ _) as [c|];
    cbn [option_map] in H; try discriminate; [|reflexivity].
  injection H as H. cbn [filter]. rewrite H. now destruct (hasMine c).
Qed.

Lemma clearMines_at gb :
  sameShape gb (Board.clearMines gb)
  /\ forall qx qy, Board.isValidCoordinate gb qx qy = true ->
       Board.at_ (Board.clearMines gb) qx qy = option_map clearMine (Board.at_ gb qx qy).
Proof.
  destruct (fold_positions_at gb clearMine (fun _ => eq_refl)) as (Hs & Hat & _).
  split; [exact Hs|exact Hat].
Qed.

Lemma listed_hit g1 ps qx qy :
  Board.isValidCoordinate g1 qx qy = true ->
  existsb (fun pos => Board.isValidCoordinate g1 (x pos) (y pos)
                      && (qx =? x pos) && (qy =? y pos)) ps
  = listed ps qx qy.
Proof.
  intros Hq. unfold listed. induction ps as [|pos ps IH]; [reflexivity|].
  cbn [existsb]. rewrite IH. f_equal.
  destruct (Z.eqb_spec (x pos) qx) as [Hx|Hx]; [destruct (Z.eqb_spec (y pos) qy) as [Hy|Hy]|].
  - now rewrite Hx, Hy, Hq, !Z.eqb_refl.
  - replace (qy =? y pos) with false by (symmetry; apply Z.eqb_neq; lia).
    now rewrite andb_false_r.
  - replace (qx =? x pos) with false by (symmetry; apply Z.eqb_neq; lia).
    now rewrite andb_false_r.
Qed.

Lemma setMines_at g1 ps :
  let g2 := fold_left (fun g pos =>
              if Board.isValidCoordinate g (x pos) (y pos) then
                Board.update g (x pos) (y pos) (fun c =>
                  mkCell true (isRevealed c) (isFlagged c) (adjacentMines c)
                         (coordinates c))
              else g) ps g1 in
  sameShape g1 g2
  /\ forall qx qy, Board.isValidCoordinate g1 qx qy = true ->
       Board.at_ g2 qx qy
       = if listed ps qx qy then option_map setMine (Board.at_ g1 qx qy)
         else Board.at_ g1 qx qy.
Proof.
  cbv zeta.
  destruct (fold_at
              (fun g pos =>
                 if Board.isValidCoordinate g (x pos) (y pos) then
                   Board.update g (x pos) (y pos) (fun c =>
                     mkCell true (isRevealed c) (isFlagged c) (adjacentMines c)
                            (coordinates c))
                 else g)
              (fun pos qx qy =>
                 Board.isValidCoordinate g1 (x pos) (y pos)
                 && (qx =? x pos) && (qy =? y pos))
              (fun _ _ => setMine) (sameShape g1) (fun _ _ _ => eq_refl))
    with (l := ps) (g := g1) as [Hs Hat].
  - intros g pos Hg. pose proof Hg as (Hw & Hh & _).
    rewrite (isValidCoordinate_shape g1 g _ _ Hw Hh).
    destruct (Board.isValidCoordinate g1 (x pos) (y pos)) eqn:E.
    + split; [now apply update_sameShape|]. intros qx qy. rewrite at_update.
      apply isValidCoordinate_spec in E.
      replace (0 <=? x pos) with true by (symmetry; apply Z.leb_le; lia).
      replace (0 <=? y pos) with true by (symmetry; apply Z.leb_le; lia).
      reflexivity.
    + split; [exact Hg|]. reflexivity.
  - unfold sameShape. auto.
  - split; [exact Hs|]. intros qx qy Hq. now rewrite Hat, listed_hit.
Qed.

Lemma calculateAdjacentMines_at g2 :
  let g3 := Board.calculateAdjacentMines g2 in
  sameShape g2 g3
  /\ (forall qx qy, option_map hasMine (Board.at_ g3 qx qy)
                    = option_map hasMine (Board.at_ g2 qx qy))
  /\ forall qx qy, Board.isValidCoordinate g2 qx qy = true ->
       Board.at_ g3 qx qy
       = option_map (fun c => if hasMine c then c
                              else setAdjacent (mineNeighbours g2 qx qy) c)
                    (Board.at_ g2 qx qy).
Proof.
  cbv zeta. unfold Board.calculateAdjacentMines.
  set (step := fun (g : GameBoard) (p : Z * Z) =>
                 match Board.at_ g (fst p) (snd p) with
                 | Some cell =>
                     if negb (hasMine cell) then
                       let adjacentCells := Board.getAdjacentCells g (fst p) (snd p) in
                       Board.update g (fst p) (snd p) (fun c =>
                         mkCell (hasMine c) (isRevealed c) (isFlagged c)
                                (Z.of_nat (List.length (filter hasMine adjacentCells)))
                                (coordinates c))
                     else g
                 | None => g
                 end).
  set (F := fun (qx qy : Z) (c : Cell) =>
              if hasMine c then c else setAdjacent (mineNeighbours g2 qx qy) c).
  set (Inv := fun g => sameShape g2 g
                /\ forall qx qy, option_map hasMine (Board.at_ g qx qy)
                                 = option_map hasMine (Board.at_ g2 qx qy)).
  assert (forall qx qy c, F qx qy (F qx qy c) = F qx qy c) as Hidem.
  { intros qx qy c. unfold F. destruct (hasMine c) eqn:E; [now rewrite E|].
    cbn [setAdjacent hasMine]. now rewrite E. }
  assert (forall qx qy c, hasMine (F qx qy c) = hasMine c) as Hmine.
  { intros qx qy c. unfold F. now destruct (hasMine c) eqn:E. }
  destruct (fold_at step hitAt F Inv Hidem) with (l := Board.positions g2) (g := g2)
    as [[Hs Hm] Hat].
  - intros g p [Hg Hgm]. pose proof Hg as (Hw & Hh & _).
    assert (forall qx qy,
              Board.at_ (step g p) qx qy
              = if hitAt p qx qy then option_map (F qx qy) (Board.at_ g qx qy)
                else Board.at_ g qx qy) as Hstep.
    { intros qx qy. unfold step.
      destruct (hitAt p qx qy) eqn:Eh.
      - assert (fst p = qx /\ snd p = qy) as [Hx Hy].
        { unfold hitAt in Eh. repeat (apply andb_prop in Eh; destruct Eh as [Eh ?]).
          split; symmetry; now apply Z.eqb_eq. }
        destruct (Board.at_ g (fst p) (snd p)) as [cell|] eqn:Ec;
          rewrite Hx, Hy in Ec; rewrite Ec; [|reflexivity].
        cbn [option_map]. unfold F at 1.
        destruct (hasMine cell) eqn:Em; cbn [negb]; [exact Ec|].
        cbv zeta. rewrite at_update. rewrite Hx, Hy.
        unfold hitAt in Eh. rewrite Hx, Hy in Eh. cbn [fst snd] in Eh.
        rewrite Eh, Ec. cbn [option_map]. f_equal. unfold setAdjacent. f_equal.
        change (Z.of_nat (List.length (filter hasMine (Board.getAdjacentCells g qx qy))))
          with (mineNeighbours g qx qy).
        now apply mineNeighbours_ext.
      - destruct (Board.at_ g (fst p) (snd p)) as [cell|]; [|reflexivity].
        destruct (negb (hasMine cell)); [|reflexivity].
        cbv zeta. rewrite at_update. unfold hitAt in Eh. now rewrite Eh. }
    split; [split|exact Hstep].
    + unfold step. destruct (Board.at_ g (fst p) (snd p)) as [cell|]; [|exact Hg].
      destruct (negb (hasMine cell)); [|exact Hg]. now apply update_sameShape.
    + intros qx qy. rewrite Hstep, <- Hgm.
      destruct (hitAt p qx qy); [|reflexivity].
      destruct (Board.at_ g qx qy); [|reflexivity]. cbn [option_map]. now rewrite Hmine.
  - split; [unfold sameShape; auto|reflexivity].
  - fold step. split; [exact Hs|]. split; [exact Hm|].
    intros qx qy Hq. now rewrite Hat, positions_hit.
Qed.

Lemma getCell_shape g g' cx cy :
  width g' = width g -> height g' = height g ->
  Board.getCell g' cx cy
  = if Board.isValidCoordinate g cx cy then Board.at_ g' cx cy else None.
Proof.
  intros Hw Hh. unfold Board.getCell.
  rewrite (isValidCoordinate_shape g g' _ _ Hw Hh).
  now destruct (Board.isValidCoordinate g cx cy).
Qed.

Lemma placeMines_at (gb : GameBoard) (minePositions : list Coordinate) :
  let gb' := Board.placeMines gb minePositions in
  sameShape gb gb'
  /\ forall cx cy, Board.isValidCoordinate gb cx cy = true ->
       Board.at_ gb' cx cy
       = option_map (fun c =>
           mkCell (listed minePositions cx cy) (isRevealed c) (isFlagged c)
                  (if listed minePositions cx cy then 0 else mineNeighbours gb' cx cy)
                  (coordinates c))
           (Board.at_ gb cx cy).
Proof.
  cbv zeta. unfold Board.placeMines. cbv zeta.
  destruct (clearMines_at gb) as [(Hw1 & Hh1 & Hm1) Hat1].
  set (g1 := Board.clearMines gb) in *.
  destruct (setMines_at g1 minePositions) as [(Hw2 & Hh2 & Hm2) Hat2].
  cbv zeta in Hw2, Hh2, Hm2, Hat2.
  set (g2 := fold_left _ minePositions g1) in *.
  destruct (calculateAdjacentMines_at g2) as ((Hw3 & Hh3 & Hm3) & Hmine & Hat3).
  cbv zeta in Hw3, Hh3, Hm3, Hmine, Hat3.
  set (g3 := Board.calculateAdjacentMines g2) in *.
  split; [unfold sameShape; repeat split; congruence|].
  intros cx cy E.
  assert (Board.isValidCoordinate g1 cx cy = true) as E1
    by (now rewrite (isValidCoordinate_shape gb g1 _ _ Hw1 Hh1)).
  assert (Board.isValidCoordinate g2 cx cy = true) as E2
    by (now rewrite (isValidCoordinate_shape g1 g2 _ _ Hw2 Hh2)).
  rewrite (Hat3 cx cy E2), (Hat2 cx cy E1), (Hat1 cx cy E).
  rewrite (mineNeighbours_ext g2 g3 cx cy Hw3 Hh3 Hmine).
  destruct (Board.at_ gb cx cy) as [c|];
    destruct (listed minePositions cx cy); reflexivity.
Qed.

(** X19: what [placeMines] writes.  The cell at a position of the board
    holds a mine exactly when the list of mine positions names that
    position (positions off the board and repetitions in the list are
    harmless, and mines placed earlier are removed); a cell with a mine
    shows 0 and every other cell shows the number of mines among its
    neighbours; whether a cell is revealed or flagged, its coordinates, the
    dimensions and the stored mine count do not change, whatever the length
    of the list. *)
Theorem placeMines_numbers (gb : GameBoard) (minePositions : list Coordinate) :
  let gb' := Board.placeMines gb minePositions in
  Board.getDimensions gb' = Board.getDimensions gb
  /\ Board.getMineCount gb' = Board.getMineCount gb
  /\ forall cx cy,
       Board.getCell gb' cx cy
       = option_map (fun c =>
           mkCell (listed minePositions cx cy) (isRevealed c) (isFlagged c)
                  (if listed minePositions cx cy then 0 else mineNeighbours gb' cx cy)
                  (coordinates c))
           (Board.getCell gb cx cy).
Proof.
  cbv zeta. destruct (placeMines_at gb minePositions) as [(Hw & Hh & Hm) Hat].
  cbv zeta in Hw, Hh, Hm, Hat.
  split; [unfold Board.getDimensions; now rewrite Hw, Hh|].
  split; [exact Hm|].
  intros cx cy. rewrite (getCell_shape gb _ cx cy Hw Hh).
  unfold Board.getCell at 1.
  destruct (Board.isValidCoordinate gb cx cy) eqn:E; [|reflexivity].
  cbn [negb]. now apply Hat.
Qed.

Lemma update_numbered g cx cy f :
  (forall c, hasMine (f c) = hasMine c /\ adjacentMines (f c) = adjacentMines c) ->
  numbered g -> numbered (Board.update g cx cy f).
Proof.
  intros Hf Hn qx qy c' Hc' Hm.
  destruct (update_dims g cx cy f) as [Hw Hh].
  rewrite (getCell_shape g _ qx qy Hw Hh) in Hc'.
  destruct (Board.isValidCoordinate g qx qy) eqn:E; [|discriminate].
  rewrite (mineNeighbours_ext g (Board.update g cx cy f) qx qy Hw Hh).
  - rewrite at_update in Hc'.
    assert (exists c, Board.at_ g qx qy = Some c
                      /\ hasMine c' = hasMine c /\ adjacentMines c' = adjacentMines c)
      as (c & Hc & Hm' & Ha).
    { destruct (_ && _ && _ && _) in Hc'.
      - destruct (Board.at_ g qx qy) as [c|]; [|discriminate].
        injection Hc' as <-. exists c. split; [reflexivity|apply Hf].
      - exists c'. auto. }
    rewrite Ha. apply Hn; [|congruence].
    unfold Board.getCell. now rewrite E.
  - intros px py. rewrite at_update.
    destruct (_ && _ && _ && _); [|reflexivity].
    destruct (Board.at_ g px py); [|reflexivity]. cbn [option_map]. f_equal. apply Hf.
Qed.

Lemma click_numbered g c : numbered g -> numbered (Examples.click g c).
Proof.
  intros Hn. destruct c as [cx cy|cx cy]; cbn [Examples.click].
  - unfold Board.revealCell. destruct (Board.getCell g cx cy) as [cell|]; [|exact Hn].
    destruct (_ || _); [exact Hn|]. cbn [snd]. apply update_numbered; [|exact Hn].
    intros c. now split.
  - unfold Board.toggleFlag. destruct (Board.getCell g cx cy) as [cell|]; [|exact Hn].
    destruct (isRevealed cell); [exact Hn|]. cbn [snd].
    apply update_numbered; [|exact Hn]. intros c. now split.
Qed.

Lemma click_wf g c : Board.wf g = true -> Board.wf (Examples.click g c) = true.
Proof.
  intros H. destruct c; cbn [Examples.click]; [now apply revealCell_wf|now apply toggleFlag_wf].
Qed.

Lemma getCell_scan gb c :
  Board.wf gb = true -> In c (Board.scan gb) ->
  Board.getCell gb (x (target (coordinates c))) (y (target (coordinates c))) = Some c.
Proof.
  intros Hwf Hc. destruct (wf_scan_target gb c Hwf Hc) as (Hat & Hx & Hy).
  unfold Board.getCell.
  now rewrite (proj2 (isValidCoordinate_spec gb _ _) (conj Hx Hy)).
Qed.

(** X20: the numbers stay right through a game.  After [placeMines] and any
    sequence of [revealCell] and [toggleFlag] calls, every cell without a
    mine shows the number of mines among its neighbours; on a well-formed
    board it follows that the board is truthful as soon as no mine has been
    revealed and every flag sits on a mine. *)
Theorem played_board_numbered
    (gb : GameBoard) (minePositions : list Coordinate) (clicks : list Examples.Click) :
  let g := fold_left Examples.click clicks (Board.placeMines gb minePositions) in
  numbered g
  /\ (Board.wf gb = true ->
      (forall c, In c (Board.scan g) -> isRevealed c = true -> hasMine c = false) ->
      (forall c, In c (Board.scan g) -> isFlagged c = true -> hasMine c = true) ->
      Board.wf g = true /\ truthful g = true).
Proof.
  cbv zeta.
  assert (forall l g0, numbered g0 -> numbered (fold_left Examples.click l g0)) as Hfold.
  { induction l as [|c l IH]; intros g0 H0; cbn [fold_left]; [exact H0|].
    apply IH. now apply click_numbered. }
  assert (numbered (Board.placeMines gb minePositions)) as H0.
  { intros cx cy c Hc Hm.
    destruct (placeMines_at gb minePositions) as [(Hw & Hh & _) Hat].
    cbv zeta in Hw, Hh, Hat. rewrite (getCell_shape gb _ cx cy Hw Hh) in Hc.
    destruct (Board.isValidCoordinate gb cx cy) eqn:E; [|discriminate].
    rewrite (Hat cx cy E) in Hc.
    destruct (Board.at_ gb cx cy) as [c0|]; [|discriminate].
    injection Hc as <-. cbn [hasMine] in Hm. cbn [adjacentMines]. now rewrite Hm. }
  pose proof (Hfold clicks _ H0) as Hn.
  split; [exact Hn|]. intros Hwf Hr Hf.
  set (g := fold_left Examples.click clicks (Board.placeMines gb minePositions)) in *.
  assert (Board.wf g = true) as Hwg.
  { apply fold_update_wf; [intros; now apply click_wf|]. now apply placeMines_wf. }
  split; [exact Hwg|].
  unfold truthful. apply forallb_forall. intros c Hc.
  apply andb_true_intro. split.
  - destruct (isRevealed c) eqn:Er; [|reflexivity]. cbn [negb orb].
    rewrite (Hr c Hc Er). cbn [negb andb]. apply Z.eqb_eq.
    apply Hn; [now apply getCell_scan|now apply Hr].
  - destruct (isFlagged c) eqn:Ef; [|reflexivity]. cbn [negb orb]. now apply Hf.
Qed.

(** ** The class invariant *)

Lemma reset_wf gb : Board.wf gb = true -> Board.wf (Board.reset gb) = true.
Proof.
  intros H. unfold Board.reset. apply fold_update_wf; [|exact H].
  intros g p Hg. now apply update_wf.
Qed.

(** X21: the grid keeps its shape.  The constructor builds a well-formed
    grid ([height] rows of [width] cells, the cell at each position carrying
    that position in a coordinate object of its own), and [placeMines],
    [revealCell], [toggleFlag] and [reset] keep it well formed; on such a
    grid [getCell] finds, at every position that passes [isValidCoordinate],
    the cell whose coordinates are that position. *)
Theorem gameboard_invariant
    (w h mines : Z) (gb : GameBoard) (minePositions : list Coordinate) (cx cy : Z) :
  Board.wf (Board.new w h mines) = true
  /\ (Board.wf gb = true ->
      Board.wf (Board.placeMines gb minePositions) = true
      /\ Board.wf (snd (Board.revealCell gb cx cy)) = true
      /\ Board.wf (snd (Board.toggleFlag gb cx cy)) = true
      /\ Board.wf (Board.reset gb) = true
      /\ (Board.isValidCoordinate gb cx cy = true ->
          exists c, Board.getCell gb cx cy = Some c
                    /\ target (coordinates c) = mkCoordinate cx cy)).
Proof.
  split; [apply new_wf|]. intros Hwf.
  split; [now apply placeMines_wf|].
  split; [now apply revealCell_wf|].
  split; [now apply toggleFlag_wf|].
  split; [now apply reset_wf|].
  intros Hv. unfold Board.getCell. rewrite Hv. cbn [negb].
  apply isValidCoordinate_spec in Hv. now apply wf_at.
Qed.

(** ** Neighbours *)

Lemma In_offsets d :
  In d Board.offsets
  <-> -1 <= fst d <= 1 /\ -1 <= snd d <= 1 /\ (fst d <> 0 \/ snd d <> 0).
Proof.
  split.
  - intros H. vm_compute in H.
    repeat (destruct H as [<- |H]; [cbn [fst snd]; lia|]). destruct H.
  - destruct d as [dx dy]. cbn [fst snd]. intros (Hx & Hy & Hne).
    assert (dx = -1 \/ dx = 0 \/ dx = 1) as Hdx by lia.
    assert (dy = -1 \/ dy = 0 \/ dy = 1) as Hdy by lia.
    destruct Hdx as [-> |[-> | ->]], Hdy as [-> |[-> | ->]]; vm_compute; try tauto;
      destruct Hne; congruence.
Qed.

Lemma getAdjacentCoordinates_eq gb cx cy :
  Board.getAdjacentCoordinates gb cx cy
  = map (fun d => mkCoordinate (cx + fst d) (cy + snd d))
        (filter (fun d => Board.isValidCoordinate gb (cx + fst d) (cy + snd d))
                Board.offsets).
Proof.
  unfold Board.getAdjacentCoordinates.
  induction Board.offsets as [|d l IH]; [reflexivity|].
  cbn [flat_map filter]. rewrite IH.
  now destruct (Board.isValidCoordinate gb _ _).
Qed.

(** X22: the neighbours of a position.  [getAdjacentCoordinates] lists,
    without repetition, exactly the positions of the board at distance 1 from
    the given one (the larger of the horizontal and the vertical distance),
    never the position itself; the relation is symmetric; and on a
    well-formed board these are the coordinates of the cells that
    [getAdjacentCells] returns, in the same order. *)
Theorem getAdjacentCoordinates_spec (gb : GameBoard) (cx cy : Z) :
  (forall q, In q (Board.getAdjacentCoordinates gb cx cy)
             <-> Board.isValidCoordinate gb (x q) (y q) = true
                 /\ Z.max (Z.abs (x q - cx)) (Z.abs (y q - cy)) = 1)
  /\ NoDup (Board.getAdjacentCoordinates gb cx cy)
  /\ (forall px py,
        Board.isValidCoordinate gb cx cy = true ->
        In (mkCoordinate px py) (Board.getAdjacentCoordinates gb cx cy) ->
        In (mkCoordinate cx cy) (Board.getAdjacentCoordinates gb px py))
  /\ (Board.wf gb = true ->
      map (fun c => target (coordinates c)) (Board.getAdjacentCells gb cx cy)
      = Board.getAdjacentCoordinates gb cx cy).
Proof.
  assert (forall ax ay q, In q (Board.getAdjacentCoordinates gb ax ay)
             <-> Board.isValidCoordinate gb (x q) (y q) = true
                 /\ Z.max (Z.abs (x q - ax)) (Z.abs (y q - ay)) = 1) as Hin.
  { intros ax ay q. rewrite getAdjacentCoordinates_eq, in_map_iff. split.
    - intros (d & <- & Hd). apply filter_In in Hd. destruct Hd as [Hd Hv].
      apply In_offsets in Hd. cbn [x y]. split; [exact Hv|lia].
    - intros [Hv Hd]. exists (x q - ax, y q - ay). cbn [fst snd].
      replace (ax + (x q - ax)) with (x q) by lia.
      replace (ay + (y q - ay)) with (y q) by lia.
      split; [now destruct q|]. apply filter_In. cbn [fst snd].
      replace (ax + (x q - ax)) with (x q) by lia.
      replace (ay + (y q - ay)) with (y q) by lia.
      split; [|exact Hv]. apply In_offsets. cbn [fst snd]. lia. }
  split; [apply Hin|]. split; [|split].
  - rewrite getAdjacentCoordinates_eq. apply NoDup_map_in.
    + apply NoDup_filter, offsets_NoDup.
    + intros [ax ay] [bx by_] _ _ E. cbn [fst snd] in E. injection E as E1 E2.
      f_equal; lia.
  - intros px py Hv H. apply Hin in H. cbn [x y] in H. apply Hin. cbn [x y].
    split; [exact Hv|lia].
  - intros Hwf. unfold Board.getAdjacentCells, Board.getAdjacentCoordinates.
    rewrite map_flat_map. apply flat_map_ext. intros d. cbv zeta.
    destruct (Board.isValidCoordinate gb _ _) eqn:E; [|reflexivity].
    apply isValidCoordinate_spec in E.
    destruct (wf_at gb _ _ Hwf (proj1 E) (proj2 E)) as (c & Hc & Ht).
    unfold Board.push_cell. rewrite Hc. cbn [map]. now rewrite Ht.
Qed.

(** ** Before the first click *)

Lemma new_scan_cell w h mines c :
  In c (Board.scan (Board.new w h mines)) ->
  hasMine c = false /\ isRevealed c = false /\ isFlagged c = false.
Proof.
  intros Hc. apply In_scan in Hc. destruct Hc as (cx & cy & Hx & Hy & Hat).
  cbn [width height Board.new] in Hx, Hy. rewrite new_at in Hat by assumption.
  injection Hat as <-. auto.
Qed.

Lemma filter_all {A} (p : A -> bool) l :
  (forall a, In a l -> p a = true) -> filter p l = l.
Proof.
  induction l as [|a l IH]; intros H; [reflexivity|]. cbn [filter].
  rewrite (H a (or_introl eq_refl)), IH; [reflexivity|]. intros; apply H; now right.
Qed.

Lemma flat_map_length_const {A B} (f : A -> list B) k l :
  (forall a, In a l -> List.length (f a) = k) ->
  List.length (flat_map f l) = (k * List.length l)%nat.
Proof.
  induction l as [|a l IH]; intros H; cbn [flat_map List.length]; [lia|].
  rewrite length_app, (H a (or_introl eq_refl)), IH; [lia|].
  intros; apply H; now right.
Qed.

Lemma range_length n : List.length (JS.range n) = Z.to_nat n.
Proof. unfold JS.range. now rewrite length_map, length_seq. Qed.

Lemma new_scan_length w h mines :
  Z.of_nat (List.length (Board.scan (Board.new w h mines))) = Z.max 0 w * Z.max 0 h.
Proof.
  unfold Board.scan. cbn [width height Board.new].
  rewrite (flat_map_length_const _ (Z.to_nat w)).
  - rewrite range_length, Nat2Z.inj_mul. lia.
  - intros cy Hy. rewrite (flat_map_length_const _ 1%nat).
    + rewrite range_length. lia.
    + intros cx Hx. apply In_range in Hx, Hy. unfold Board.push_cell.
      now rewrite new_at.
Qed.

(** X23: before the first click the engine knows nothing.  On a board fresh
    from the constructor there is no constraint and no guaranteed move, and
    [calculateProbabilities] gives every cell the same value: the stored
    mine count over the number of cells, capped at 1 (and 0 for a negative
    mine count). *)
Theorem new_board_uniform_prior (w h mines : Z) :
  let gb := Board.new w h mines in
  let cells := Z.max 0 w * Z.max 0 h in
  let ratio := (inject_Z (Z.max 0 mines) / inject_Z cells)%Q in
  ConstraintSolver.findGuaranteedMoves gb = ([], [])
  /\ Z.of_nat (List.length (Board.scan gb)) = cells
  /\ ProbabilityCalculator.calculateProbabilities gb
     = map (fun c => (coordinates c, if Qle_bool 1 ratio then 1%Q else ratio))
           (Board.scan gb).
Proof.
  cbv zeta. set (gb := Board.new w h mines).
  assert (Board.getRevealedCells gb = []) as Hr
    by (apply filter_none; intros c Hc; now apply new_scan_cell in Hc).
  assert (Board.getFlaggedCells gb = []) as Hf
    by (apply filter_none; intros c Hc; now apply new_scan_cell in Hc).
  assert (ConstraintSolver.extractConstraints gb = []) as Hc
    by (unfold ConstraintSolver.extractConstraints; now rewrite Hr).
  assert (unknownCells gb = map coordinates (Board.scan gb)) as Hu.
  { unfold unknownCells, Board.getUnrevealedCells. f_equal.
    rewrite (filter_all _ (Board.scan gb)).
    - apply filter_all. intros c Hin. apply new_scan_cell in Hin.
      destruct Hin as (_ & _ & ->). reflexivity.
    - intros c Hin. apply new_scan_cell in Hin. destruct Hin as (_ & -> & _). reflexivity. }
  assert (unconstrainedCoords gb = unknownCells gb) as Hun.
  { unfold unconstrainedCoords, frontierKeys. rewrite Hc. cbn [fold_left].
    apply filter_all. reflexivity. }
  split; [unfold ConstraintSolver.findGuaranteedMoves; now rewrite Hc|].
  split; [apply new_scan_length|].
  rewrite (calculateProbabilities_eq gb (new_wf w h mines)).
  rewrite (constrainedCoords_nil gb Hc), Hun, Hu. cbn [map app List.length].
  rewrite map_map, length_map. apply map_ext_in. intros c Hin. f_equal.
  pose proof (new_scan_length w h mines) as Hlen. fold gb in Hlen. rewrite Hlen.
  unfold ProbabilityCalculator.calculateUnconstrainedProbability.
  assert (0 < Z.max 0 w * Z.max 0 h) as Hpos.
  { rewrite <- Hlen.
    destruct (Board.scan gb); [destruct Hin|cbn [List.length]; lia]. }
  destruct (Z.max 0 w * Z.max 0 h =? 0) eqn:E; [apply Z.eqb_eq in E; lia|].
  cbv zeta. unfold Board.getFlaggedCount, Board.getMineCount. rewrite Hf, Hr.
  cbn [filter List.length Z.of_nat mineCount gb Board.new].
  change (Math_round (inject_Z 0 * (2 # 10))) with 0.
  replace (Z.max 0 (mines - 0 - 0 - Z.min (mines - 0 - 0) 0)) with (Z.max 0 mines) by lia.
  reflexivity.
Qed.

(** ** Guaranteed cells among the candidates *)

Lemma guaranteed_key_constrained gb c :
  In c (fst (ConstraintSolver.findGuaranteedMoves gb))
  \/ In c (snd (ConstraintSolver.findGuaranteedMoves gb)) ->
  exists k, In k (constrainedCoords gb) /\ target k = c.
Proof.
  intros H. unfold ConstraintSolver.findGuaranteedMoves in H. cbv zeta in H.
  cbn [fst snd] in H.
  assert (exists s, ConstraintSolver.stringToCoord s = c
            /\ (In s (fst (ConstraintSolver.guaranteedSets
                             (ConstraintSolver.extractConstraints gb)))
                \/ In s (snd (ConstraintSolver.guaranteedSets
                                (ConstraintSolver.extractConstraints gb))))) as (s & <- & Hs).
  { destruct H as [H|H]; apply in_map_iff in H; destruct H as (s & E & Hs); eauto. }
  clear H. revert s Hs. apply guaranteedSets_ind. intros k r Hk Hr.
  exists r. split; [now apply (affected_cell_constrained gb k r)|].
  symmetry. apply stringToCoord_keyOf.
Qed.

Lemma constrained_key_adjusted gb k :
  Board.wf gb = true -> In k (constrainedCoords gb) ->
  exists p, In (k, p) (ProbabilityCalculator.handleEdgeCases gb
                         (ProbabilityCalculator.calculateProbabilities gb)).
Proof.
  intros Hwf Hk.
  rewrite handleEdgeCases_map by apply calculateProbabilities_NoDup.
  rewrite (calculateProbabilities_eq gb Hwf), map_app.
  set (e := (k, marginal (ConstraintSolver.extractConstraints gb) (constrainedCoords gb) k)).
  exists (snd (rescale gb e)). apply in_or_app. left.
  replace (k, snd (rescale gb e)) with (rescale gb e)
    by (rewrite (surjective_pairing (rescale gb e)), rescale_fst; reflexivity).
  apply in_map. apply in_map_iff. exists k. now split.
Qed.

(** X24: [getTopMoves] lists every guaranteed safe cell twice.  On a
    well-formed board each guaranteed safe cell is a candidate with priority
    1000 and, being a key of the probability map, a second candidate with a
    priority of at most 94; a count that covers all candidates returns
    both. *)
Theorem getTopMoves_repeats_safe_cells (gb : GameBoard) (c : Coordinate) :
  Board.wf gb = true ->
  In c (guaranteedSafe (HintEngine.analyzeBoard gb)) ->
  exists r1 r2,
    coordinate r1 = c /\ coordinate r2 = c
    /\ priority r1 = 1000%Q /\ (priority r2 <= 94)%Q
    /\ In r1 (topCandidates gb) /\ In r2 (topCandidates gb)
    /\ forall n, Z.of_nat (List.length (topCandidates gb)) <= n ->
         In r1 (HintEngine.getTopMoves gb (Some n))
         /\ In r2 (HintEngine.getTopMoves gb (Some n)).
Proof.
  intros Hwf Hc. cbn [HintEngine.analyzeBoard guaranteedSafe] in Hc.
  destruct (guaranteed_key_constrained gb c (or_introl Hc)) as (k & Hk & <-).
  destruct (constrained_key_adjusted gb k Hwf Hk) as (p & Hp).
  set (r1 := mkMove (target k) 0%Q 1000%Q "Guaranteed safe move").
  set (r2 := HintEngine.recommend gb (k, p)).
  assert (In r1 (topCandidates gb)) as H1
    by (apply in_or_app; left; apply in_map_iff; exists (target k); now split).
  assert (In r2 (topCandidates gb)) as H2
    by (apply in_or_app; right; now apply in_map).
  exists r1, r2. repeat split; auto.
  - pose proof (handleEdgeCases_in_unit gb) as Hu. rewrite Forall_forall in Hu.
    specialize (Hu _ Hp). cbn [snd] in Hu.
    apply calculateMovePriority_range; [exact Hu|apply calculateInformationGain_range].
  - change (HintEngine.getTopMoves gb (Some n))
      with (JS.slice0 (HintEngine.sortByPriority (topCandidates gb)) n).
    replace (JS.slice0 (HintEngine.sortByPriority (topCandidates gb)) n)
      with (HintEngine.sortByPriority (topCandidates gb)).
    + apply (Permutation_in _ (Permutation_sym (sortByPriority_perm _))). exact H1.
    + unfold JS.slice0. cbv zeta.
      rewrite (Permutation_length (sortByPriority_perm (topCandidates gb))).
      destruct (n <? 0) eqn:E; [apply Z.ltb_lt in E; lia|].
      symmetry. apply firstn_all2.
      rewrite (Permutation_length (sortByPriority_perm (topCandidates gb))). lia.
  - change (HintEngine.getTopMoves gb (Some n))
      with (JS.slice0 (HintEngine.sortByPriority (topCandidates gb)) n).
    replace (JS.slice0 (HintEngine.sortByPriority (topCandidates gb)) n)
      with (HintEngine.sortByPriority (topCandidates gb)).
    + apply (Permutation_in _ (Permutation_sym (sortByPriority_perm _))). exact H2.
    + unfold JS.slice0. cbv zeta.
      rewrite (Permutation_length (sortByPriority_perm (topCandidates gb))).
      destruct (n <? 0) eqn:E; [apply Z.ltb_lt in E; lia|].
      symmetry. apply firstn_all2.
      rewrite (Permutation_length (sortByPriority_perm (topCandidates gb))). lia.
Qed.

Lemma getTopMoves_repeats_safe_cells_witness :
  exists r1 r2,
    coordinate r1 = mkCoordinate 3 1 /\ coordinate r2 = mkCoordinate 3 1
    /\ priority r1 = 1000%Q /\ (priority r2 <= 94)%Q
    /\ In r1 (topCandidates Examples.twoSafe) /\ In r2 (topCandidates Examples.twoSafe)
    /\ forall n, Z.of_nat (List.length (topCandidates Examples.twoSafe)) <= n ->
         In r1 (HintEngine.getTopMoves Examples.twoSafe (Some n))
         /\ In r2 (HintEngine.getTopMoves Examples.twoSafe (Some n)).
Proof.
  apply (getTopMoves_repeats_safe_cells Examples.twoSafe (mkCoordinate 3 1)).
  - vm_compute. reflexivity.
  - vm_compute. right. now left.
Defined.

(** ** Counting the cells *)

Lemma scan_update gb cx cy f :
  Board.wf gb = true ->
  Board.scan (Board.update gb cx cy f)
  = map (fun c => if HintEngine.sameCell (target (coordinates c)) (mkCoordinate cx cy)
                  then f c else c)
        (Board.scan gb).
Proof.
  intros Hwf. destruct (update_dims gb cx cy f) as [Hw Hh].
  rewrite !scan_positions.
  replace (Board.positions (Board.update gb cx cy f)) with (Board.positions gb)
    by (unfold Board.positions; now rewrite Hw, Hh).
  rewrite map_flat_map. apply flat_map_ext_In. intros [px py] Hp.
  apply In_positions in Hp. cbn [fst snd] in *.
  destruct (wf_at gb px py Hwf (proj1 Hp) (proj2 Hp)) as (c & Hc & Ht).
  unfold Board.push_cell. rewrite at_update, Hc. cbn [option_map map].
  rewrite Ht. unfold HintEngine.sameCell. cbn [x y].
  replace ((0 <=? cx) && (0 <=? cy) && (px =? cx) && (py =? cy))
    with ((px =? cx) && (py =? cy)).
  - now destruct ((px =? cx) && (py =? cy)).
  - destruct (Z.eqb_spec px cx) as [<- |Hx]; [destruct (Z.eqb_spec py cy) as [<- |Hy]|].
    + replace (0 <=? px) with true by (symmetry; apply Z.leb_le; lia).
      replace (0 <=? py) with true by (symmetry; apply Z.leb_le; lia). reflexivity.
    + now rewrite !andb_false_r.
    + now rewrite andb_false_r.
Qed.

Lemma count_update (l : list Cell) (k0 : Coordinate) (f : Cell -> Cell)
    (P : Cell -> bool) (c0 : Cell) :
  NoDup (map (fun c => target (coordinates c)) l) -> In c0 l ->
  target (coordinates c0) = k0 ->
  (List.length (filter P (map (fun c =>
      if HintEngine.sameCell (target (coordinates c)) k0 then f c else c) l))
   + (if P c0 then 1 else 0)
   = List.length (filter P l) + (if P (f c0) then 1 else 0))%nat.
Proof.
  assert (forall a, HintEngine.sameCell (target (coordinates a)) k0 = true
                    <-> target (coordinates a) = k0) as Hsame.
  { intros a. unfold HintEngine.sameCell. rewrite andb_true_iff, !Z.eqb_eq.
    destruct (target (coordinates a)) as [ax ay], k0 as [kx ky]. cbn [x y].
    split; [intros []|intros [=]]; subst; auto. }
  induction l as [|a l IH]; intros Hnd Hin Hk; [destruct Hin|].
  cbn [map] in Hnd. inversion Hnd as [|? ? Hn Hnd']; subst.
  cbn [map filter].
  destruct (HintEngine.sameCell (target (coordinates a)) (target (coordinates c0))) eqn:E.
  - apply Hsame in E.
    assert (a = c0) as ->.
    { destruct Hin as [->|Hin]; [reflexivity|]. exfalso. apply Hn. rewrite E.
      now apply (in_map (fun c => target (coordinates c))). }
    rewrite (map_ext_in _ (fun c => c)), map_id.
    + destruct (P c0), (P (f c0)); cbn [List.length]; lia.
    + intros b Hb.
      destruct (HintEngine.sameCell (target (coordinates b)) (target (coordinates c0)))
        eqn:Eb; [|reflexivity].
      apply Hsame in Eb. exfalso. apply Hn. rewrite <- Eb.
      now apply (in_map (fun c => target (coordinates c))).
  - destruct Hin as [->|Hin].
    + assert (HintEngine.sameCell (target (coordinates c0)) (target (coordinates c0)) = true)
        by (now apply Hsame). congruence.
    + specialize (IH Hnd' Hin eq_refl). destruct (P a); cbn [List.length]; lia.
Qed.

(** X25: the counters follow the clicks.  On a well-formed board a
    successful [revealCell] raises [getRevealedCount] by exactly one and
    leaves [getFlaggedCount] alone, and a successful [toggleFlag] leaves
    [getRevealedCount] alone and moves [getFlaggedCount] by one: up when the
    cell was not flagged, down when it was. *)
Theorem clicks_move_counters (gb : GameBoard) (cx cy : Z) (cell : Cell) :
  Board.wf gb = true ->
  Board.getCell gb cx cy = Some cell -> isRevealed cell = false ->
  (isFlagged cell = false ->
   Board.getRevealedCount (snd (Board.revealCell gb cx cy))
   = Board.getRevealedCount gb + 1
   /\ Board.getFlaggedCount (snd (Board.revealCell gb cx cy)) = Board.getFlaggedCount gb)
  /\ Board.getRevealedCount (snd (Board.toggleFlag gb cx cy)) = Board.getRevealedCount gb
  /\ Board.getFlaggedCount (snd (Board.toggleFlag gb cx cy))
     = Board.getFlaggedCount gb + (if isFlagged cell then -1 else 1).
Proof.
  intros Hwf Hcell Hr.
  pose proof (getCell_at gb cx cy cell Hcell) as Hat.
  assert (In cell (Board.scan gb) /\ target (coordinates cell) = mkCoordinate cx cy)
    as [Hin Ht].
  { unfold Board.getCell in Hcell.
    destruct (Board.isValidCoordinate gb cx cy) eqn:E; [|discriminate].
    apply isValidCoordinate_spec in E.
    destruct (wf_at gb cx cy Hwf (proj1 E) (proj2 E)) as (c & Hc & Htc).
    assert (c = cell) as -> by congruence.
    split; [|exact Htc]. apply In_scan. exists cx, cy. tauto. }
  pose proof (wf_target_NoDup gb Hwf) as Hnd.
  unfold Board.revealCell, Board.toggleFlag. rewrite Hcell, Hr.
  unfold Board.getRevealedCount, Board.getFlaggedCount,
    Board.getRevealedCells, Board.getFlaggedCells.
  split; [intros Hf; rewrite Hf; cbn [orb snd]; split|cbn [snd]; split];
    rewrite (scan_update gb cx cy _ Hwf).
  - pose proof (count_update (Board.scan gb) (mkCoordinate cx cy)
                  (fun c => mkCell (hasMine c) true (isFlagged c) (adjacentMines c)
                                   (coordinates c))
                  isRevealed cell Hnd Hin Ht) as H.
    cbn [isRevealed] in H. rewrite Hr in H. lia.
  - pose proof (count_update (Board.scan gb) (mkCoordinate cx cy)
                  (fun c => mkCell (hasMine c) true (isFlagged c) (adjacentMines c)
                                   (coordinates c))
                  isFlagged cell Hnd Hin Ht) as H.
    cbn [isFlagged] in H. rewrite Hf in H. lia.
  - pose proof (count_update (Board.scan gb) (mkCoordinate cx cy)
                  (fun c => mkCell (hasMine c) (isRevealed c) (negb (isFlagged c))
                                   (adjacentMines c) (coordinates c))
                  isRevealed cell Hnd Hin Ht) as H.
    cbn [isRevealed] in H. rewrite Hr in H. lia.
  - pose proof (count_update (Board.scan gb) (mkCoordinate cx cy)
                  (fun c => mkCell (hasMine c) (isRevealed c) (negb (isFlagged c))
                                   (adjacentMines c) (coordinates c))
                  isFlagged cell Hnd Hin Ht) as H.
    cbn [isFlagged] in H. destruct (isFlagged cell); cbn [negb] in H; lia.
Qed.

Lemma clicks_move_counters_witness :
  (false = false ->
   Board.getRevealedCount (snd (Board.revealCell Examples.firstClick 0 0))
   = Board.getRevealedCount Examples.firstClick + 1
   /\ Board.getFlaggedCount (snd (Board.revealCell Examples.firstClick 0 0))
      = Board.getFlaggedCount Examples.firstClick)
  /\ Board.getRevealedCount (snd (Board.toggleFlag Examples.firstClick 0 0))
     = Board.getRevealedCount Examples.firstClick
  /\ Board.getFlaggedCount (snd (Board.toggleFlag Examples.firstClick 0 0))
     = Board.getFlaggedCount Examples.firstClick + 1.
Proof.
  apply (clicks_move_counters Examples.firstClick 0 0
           (mkCell false false false 1 (mkRef 0 (mkCoordinate 0 0))));
    vm_compute; reflexivity.
Defined.

(** ** What the enumeration returns *)

Lemma In_allAssignments keys : forall a,
  In a (allAssignments keys) <-> dict_keys a = keys.
Proof.
  induction keys as [|k keys IH]; intros a.
  - cbn [allAssignments In]. unfold dict_keys. split.
    + now intros [<- |[]].
    + destruct a; [now left|discriminate].
  - split; [apply allAssignments_keys|].
    destruct a as [|[k' b] a]; unfold dict_keys; cbn [map fst]; [discriminate|].
    intros [= -> Ha]. cbn [allAssignments]. apply in_flat_map.
    exists a. split; [now apply IH|].
    destruct b; cbn [In]; auto.
Qed.

Lemma allAssignments_NoDup keys : NoDup (allAssignments keys).
Proof.
  induction keys as [|k keys IH]; cbn [allAssignments].
  - constructor; [intros []|constructor].
  - induction IH as [|a l Ha _ IHl]; cbn [flat_map app]; [constructor|].
    assert (forall b, ~ In ((k, b) :: a)
                        (flat_map (fun a0 => [(k, false) :: a0; (k, true) :: a0]) l))
      as Hnot.
    { intros b Hin. apply in_flat_map in Hin. destruct Hin as (a' & Ha' & Hin).
      destruct Hin as [E|[E|[]]]; injection E as _ ->; contradiction. }
    constructor; [|constructor; [|exact IHl]].
    + intros [E|Hin]; [discriminate|now apply (Hnot false)].
    + apply Hnot.
Qed.

(** X26: the enumeration is exact on a small frontier.  For at most 19 cells
    with distinct keys, [generateValidAssignments] returns, each exactly
    once, the assignments that give a value to exactly these cells, in their
    order, and put on the affected cells of every constraint the number of
    mines it requires. *)
Theorem generateValidAssignments_complete
    (cs : list Constraint) (cells : list CoordinateRef) :
  NoDup (map ProbabilityCalculator.keyOf cells) -> (List.length cells <= 19)%nat ->
  (forall a, In a (ProbabilityCalculator.generateValidAssignments cs cells)
             <-> dict_keys a = map ProbabilityCalculator.keyOf cells
                 /\ forall c, In c cs -> Spec.satisfies (sigmaOf a) c)
  /\ NoDup (ProbabilityCalculator.generateValidAssignments cs cells).
Proof.
  intros Hnd Hlen. rewrite (generateValidAssignments_eq cs cells Hnd Hlen). split.
  - intros a. rewrite filter_In, In_allAssignments, isValidAssignment_satisfies.
    reflexivity.
  - apply NoDup_filter, allAssignments_NoDup.
Qed.

Lemma generateValidAssignments_complete_witness :
  (forall a,
     In a (ProbabilityCalculator.generateValidAssignments
             (ConstraintSolver.extractConstraints Examples.twoPairs)
             (constrainedCoords Examples.twoPairs))
     <-> dict_keys a
         = map ProbabilityCalculator.keyOf (constrainedCoords Examples.twoPairs)
         /\ forall c, In c (ConstraintSolver.extractConstraints Examples.twoPairs) ->
                      Spec.satisfies (sigmaOf a) c)
  /\ NoDup (ProbabilityCalculator.generateValidAssignments
              (ConstraintSolver.extractConstraints Examples.twoPairs)
              (constrainedCoords Examples.twoPairs)).
Proof.
  apply (generateValidAssignments_complete
           (ConstraintSolver.extractConstraints Examples.twoPairs)
           (constrainedCoords Examples.twoPairs)).
  - vm_compute. repeat (constructor; [cbn [In]; intuition discriminate|]). constructor.
  - vm_compute. lia.
Defined.

(** ** The probabilities on a truthful board *)

Lemma dict_get_map_In {A V} (kf : A -> string) (vf : A -> V) (l : list A) r :
  NoDup (map kf l) -> In r l ->
  JS.dict_get (map (fun a => (kf a, vf a)) l) (kf r) = Some (vf r).
Proof.
  induction l as [|a l IH]; intros Hnd Hin; [destruct Hin|].
  cbn [map] in *. inversion Hnd as [|? ? Hn Hnd']; subst. cbn [JS.dict_get].
  destruct (String.eqb (kf r) (kf a)) eqn:E.
  - apply String.eqb_eq in E. destruct Hin as [->|Hin]; [reflexivity|].
    exfalso. apply Hn. rewrite <- E. now apply in_map.
  - destruct Hin as [->|Hin]; [now rewrite String.eqb_refl in E|]. now apply IH.
Qed.

Lemma constrainedCoords_keys_NoDup gb :
  Board.wf gb = true ->
  NoDup (map ProbabilityCalculator.keyOf (constrainedCoords gb)).
Proof.
  intros Hwf.
  change (map ProbabilityCalculator.keyOf (constrainedCoords gb))
    with (map (fun r => ConstraintSolver.coordToString (target r)) (constrainedCoords gb)).
  rewrite <- (map_map target ConstraintSolver.coordToString).
  apply NoDup_map_in.
  - apply NoDup_map_filter. now apply unknownCells_target_NoDup.
  - intros a b _ _. apply coordToString_inj.
Qed.

Lemma countIf_pos {A} (P : A -> bool) l a :
  In a l -> P a = true -> 1 <= countIf P l.
Proof.
  unfold countIf. intros Hin Hp.
  assert (In a (filter P l)) as H by (apply filter_In; now split).
  destruct (filter P l); [destruct H|cbn [List.length]; lia].
Qed.

Lemma countIf_below {A} (P : A -> bool) l a :
  In a l -> P a = false -> countIf P l <= Z.of_nat (List.length l) - 1.
Proof.
  unfold countIf. induction l as [|b l IH]; intros Hin Hp; [destruct Hin|].
  cbn [filter List.length]. pose proof (filter_length_le P l) as Hle.
  destruct Hin as [->|Hin].
  - rewrite Hp. lia.
  - specialize (IH Hin Hp). destruct (P b); cbn [List.length]; lia.
Qed.

(** X27: on a truthful board the extreme probabilities are right.  If the
    board is well formed and truthful and its frontier has at most 19 cells,
    the actual mine layout is one of the enumerated assignments; so a
    frontier cell to which [calculateProbabilities] gives 0 holds no mine,
    and one to which it gives 1 holds a mine. *)
Theorem constrained_probabilities_sound (gb : GameBoard) (k : CoordinateRef) (p : Q) :
  Board.wf gb = true -> truthful gb = true ->
  (List.length (constrainedCoords gb) <= 19)%nat ->
  In k (constrainedCoords gb) ->
  In (k, p) (ProbabilityCalculator.calculateProbabilities gb) ->
  In (map (fun r => (ProbabilityCalculator.keyOf r, mineAt gb (target r)))
          (constrainedCoords gb))
     (ProbabilityCalculator.generateValidAssignments
        (ConstraintSolver.extractConstraints gb) (constrainedCoords gb))
  /\ ((p == 0)%Q -> mineAt gb (target k) = false)
  /\ ((p == 1)%Q -> mineAt gb (target k) = true).
Proof.
  intros Hwf Ht Hlen Hk Hp.
  set (cs := ConstraintSolver.extractConstraints gb) in *.
  set (cells := constrainedCoords gb) in *.
  set (actual := map (fun r => (ProbabilityCalculator.keyOf r, mineAt gb (target r))) cells).
  pose proof (constrainedCoords_keys_NoDup gb Hwf) as Hnd. fold cells in Hnd.
  assert (forall r, In r cells -> sigmaOf actual (target r) = mineAt gb (target r)) as Hsig.
  { intros r Hr. unfold sigmaOf, ProbabilityCalculator.isTrue.
    change (ProbabilityCalculator.coordToString (target r))
      with (ProbabilityCalculator.keyOf r).
    unfold actual.
    rewrite (dict_get_map_In ProbabilityCalculator.keyOf
               (fun r => mineAt gb (target r)) cells r Hnd Hr).
    now destruct (mineAt gb (target r)). }
  assert (In actual (ProbabilityCalculator.generateValidAssignments cs cells)) as Hin.
  { rewrite (generateValidAssignments_eq cs cells Hnd Hlen). apply filter_In.
    split; [apply In_allAssignments|apply isValidAssignment_satisfies].
    - unfold actual, dict_keys. rewrite map_map. reflexivity.
    - intros c Hc. pose proof (truthful_satisfies gb c Hwf Ht Hc) as Hsat.
      unfold Spec.satisfies, Spec.minesOn in *. rewrite <- Hsat. do 2 f_equal.
      apply filter_ext_in. intros r Hr. apply Hsig.
      now apply (affected_cell_constrained gb c r). }
  split; [exact Hin|].
  assert (ProbabilityCalculator.generateValidAssignments cs cells <> []) as Hne
    by (intros E; rewrite E in Hin; destruct Hin).
  assert (p = marginal cs cells k) as ->.
  { rewrite (calculateProbabilities_eq gb Hwf) in Hp. apply in_app_or in Hp.
    destruct Hp as [Hp|Hp]; apply in_map_iff in Hp; destruct Hp as (r & E & Hr).
    - now injection E as -> <-.
    - injection E as -> _. exfalso.
      apply filter_In in Hr. apply filter_In in Hk.
      destruct Hr as [_ Hr], Hk as [_ Hk]. rewrite Hk in Hr. discriminate. }
  rewrite (marginal_count cs cells k Hk Hne).
  set (valid := ProbabilityCalculator.generateValidAssignments cs cells) in *.
  assert (0 < Z.of_nat (List.length valid)) as HL
    by (destruct valid; [congruence|cbn [List.length]; lia]).
  assert (0 < inject_Z (Z.of_nat (List.length valid)))%Q as HLQ
    by (apply (inject_Z_lt 0); exact HL).
  assert (ProbabilityCalculator.isTrue actual (ProbabilityCalculator.keyOf k)
          = mineAt gb (target k)) as Hact by (apply (Hsig k Hk)).
  set (M := countIf (fun a => ProbabilityCalculator.isTrue a (ProbabilityCalculator.keyOf k))
                    valid).
  destruct (mineAt gb (target k)) eqn:Em; split; intros Hq; try reflexivity; exfalso.
  - assert (1 <= M) as HM
      by (apply (countIf_pos _ valid actual Hin); exact Hact).
    assert (0 < inject_Z M / inject_Z (Z.of_nat (List.length valid)))%Q as Hpos.
    { apply Qlt_shift_div_l; [exact HLQ|]. rewrite Qmult_0_l.
      apply (inject_Z_lt 0). lia. }
    rewrite Hq in Hpos. now apply Qlt_irrefl in Hpos.
  - assert (M <= Z.of_nat (List.length valid) - 1) as HM
      by (apply (countIf_below _ valid actual Hin); exact Hact).
    assert (inject_Z M / inject_Z (Z.of_nat (List.length valid)) < 1)%Q as Hlt.
    { apply Qlt_shift_div_r; [exact HLQ|]. rewrite Qmult_1_l.
      apply inject_Z_lt. lia. }
    rewrite Hq in Hlt. now apply Qlt_irrefl in Hlt.
Qed.

Lemma constrained_probabilities_sound_witness :
  In (map (fun r => (ProbabilityCalculator.keyOf r, mineAt Examples.subsetBoard (target r)))
          (constrainedCoords Examples.subsetBoard))
     (ProbabilityCalculator.generateValidAssignments
        (ConstraintSolver.extractConstraints Examples.subsetBoard)
        (constrainedCoords Examples.subsetBoard))
  /\ ((1 == 0)%Q -> mineAt Examples.subsetBoard (mkCoordinate 0 0) = false)
  /\ ((1 == 1)%Q -> mineAt Examples.subsetBoard (mkCoordinate 0 0) = true).
Proof.
  apply (constrained_probabilities_sound Examples.subsetBoard
           (mkRef 0 (mkCoordinate 0 0)) 1%Q).
  - vm_compute. reflexivity.
  - vm_compute. reflexivity.
  - vm_compute. lia.
  - vm_compute. now left.
  - vm_compute. now left.
Defined.

(** ** After the last safe cell *)

(** X28: the victory test and the hints.  [areAllSafeCellsRevealed] holds
    exactly when every unrevealed cell holds a mine; the safe cells and the
    mine cells together are all the cells; and on a well-formed board that
    passes the test every move that [isValidMove] accepts, and so every move
    that [analyzeBoard] recommends, lands on a mine. *)
Theorem victory_leaves_only_mines (gb : GameBoard) :
  (Board.areAllSafeCellsRevealed gb = true
   <-> forall cell, In cell (Board.getUnrevealedCells gb) -> hasMine cell = true)
  /\ Permutation (Board.getMineCells gb ++ Board.getSafeCells gb) (Board.scan gb)
  /\ (Board.wf gb = true -> Board.areAllSafeCellsRevealed gb = true ->
      (forall c, HintEngine.isValidMove c gb = true -> mineAt gb c = true)
      /\ (forall c, recommendedMove (HintEngine.analyzeBoard gb) = Some c ->
                    mineAt gb c = true)).
Proof.
  assert (Board.areAllSafeCellsRevealed gb = true
          <-> forall cell, In cell (Board.getUnrevealedCells gb) -> hasMine cell = true)
    as Hiff.
  { unfold Board.areAllSafeCellsRevealed, Board.getSafeCells, Board.getUnrevealedCells.
    rewrite forallb_forall. split.
    - intros H cell Hc. apply filter_In in Hc. destruct Hc as [Hc Hr].
      destruct (hasMine cell) eqn:Em; [reflexivity|].
      rewrite (H cell) in Hr; [discriminate|]. apply filter_In. now rewrite Em.
    - intros H cell Hc. apply filter_In in Hc. destruct Hc as [Hc Hm].
      destruct (isRevealed cell) eqn:Er; [reflexivity|].
      rewrite (H cell) in Hm; [discriminate|]. apply filter_In. now rewrite Er. }
  split; [exact Hiff|]. split; [apply filter_partition|].
  intros Hwf Hall.
  assert (forall c, HintEngine.isValidMove c gb = true -> mineAt gb c = true) as Hv.
  { intros c Hc. unfold HintEngine.isValidMove in Hc. unfold mineAt.
    destruct (Board.getCell gb (x c) (y c)) as [cell|] eqn:E; [|discriminate].
    apply andb_prop in Hc. destruct Hc as [Hr _].
    apply (proj1 Hiff Hall). apply filter_In. split; [|exact Hr].
    unfold Board.getCell in E.
    destruct (Board.isValidCoordinate gb (x c) (y c)) eqn:Ev; [|discriminate].
    apply isValidCoordinate_spec in Ev. apply In_scan. exists (x c), (y c). tauto. }
  split; [exact Hv|]. intros c Hc. apply Hv. now apply recommended_move_valid.
Qed.

Lemma victory_leaves_only_mines_witness :
  recommendedMove (HintEngine.analyzeBoard Examples.cleared) = Some (mkCoordinate 0 0)
  /\ mineAt Examples.cleared (mkCoordinate 0 0) = true.
Proof.
  split; [vm_compute; reflexivity|].
  apply (proj2 (proj2 (proj2 (victory_leaves_only_mines Examples.cleared))
                 ltac:(vm_compute; reflexivity) ltac:(vm_compute; reflexivity))).
  vm_compute. reflexivity.
Defined.
